(** * The token-recognition driver of the JavaScript runtime (Lexer.js)

    A shallow embedding of [runtime/JavaScript/src/antlr4/Lexer.js] and the
    properties of its control protocol: the outer/inner resolution loop of
    [nextToken], default and end-of-input emission, the mode stack, error
    recovery, bulk extraction and the [inputStream] setter.

    The driver works on mutable objects it does not own.  They are modelled
    as follows.
    - Character streams are objects on a heap, addressed by reference; the
      driver's [_input] field is a nullable reference.
    - The interpreter ([_interp]) is a single object; generated lexers always
      populate it, so the field is not nullable here.
    - The token factory, the error-listener dispatch and the console are
      sinks: every call is appended to an event trace.
    - A JavaScript exception is a result [Raise e] carrying the thrown value;
      the loops take a fuel argument and answer [OutOfFuel] when it runs out. *)

From Stdlib Require Import ZArith List String Bool Lia.
Import ListNotations.
Local Open Scope string_scope.
Local Open Scope list_scope.
Local Open Scope Z_scope.

(** ** Thrown values *)

(** Modelled from the spec: error/RecognitionException.js and
    error/LexerNoViableAltException.js are not part of the sources.  These
    are the exception classes the driver distinguishes with [instanceof]:
    a typed recognition failure with a "no viable alternative" variant,
    next to the two built-in classes that can reach the driver. *)
Inductive ErrorClass : Type :=
| LexerNoViableAltException
| RecognitionException
| TypeError
| Error.

(** JavaScript throws any value: the driver itself throws strings, and a
    rule action may throw [null] or [undefined].  Among the primitives only
    these two matter to the driver, because reading a property of them is
    itself a TypeError; a thrown number or boolean goes the way of a thrown
    string. *)
Inductive Thrown : Type :=
| ThrowNull
| ThrowUndefined
| ThrowString (s : string)
| ThrowObject (c : ErrorClass) (detail : Z).

(** [e == null]: the values on which a property read throws. *)
Definition nullish (e : Thrown) : bool :=
  match e with
  | ThrowNull | ThrowUndefined => true
  | ThrowString _ | ThrowObject _ _ => false
  end.

Definition subclass (c d : ErrorClass) : bool :=
  match d, c with
  | Error, _ => true
  | RecognitionException, RecognitionException => true
  | RecognitionException, LexerNoViableAltException => true
  | LexerNoViableAltException, LexerNoViableAltException => true
  | TypeError, TypeError => true
  | _, _ => false
  end.

Definition instanceof (e : Thrown) (d : ErrorClass) : bool :=
  match e with
  | ThrowNull | ThrowUndefined | ThrowString _ => false
  | ThrowObject c _ => subclass c d
  end.

(** ** Tokens *)

Definition Ref : Type := nat.

(** [[ this, input ]]: there is one driver, so [this] carries no data. *)
Definition SourcePair : Type := (unit * option Ref)%type.

(** Modelled from the spec: Token.js and CommonTokenFactory.js are not part
    of the sources; a token is the immutable tuple {source pair, type, text,
    channel, startIndex, stopIndex, line, column} that the factory builds
    from the arguments of [create]. *)
Record Token : Type := mkToken {
  tok_source : SourcePair;
  tok_type : Z;
  tok_text : option string;
  tok_channel : Z;
  tok_start : Z;
  tok_stop : Z;
  tok_line : Z;
  tok_column : Z
}.

(** The constants of Token.js that Lexer.js reads; their values are not in
    the sources, so they are parameters. *)
Class TokenConstants : Type := {
  Token_EOF : Z;
  Token_INVALID_TYPE : Z;
  Token_DEFAULT_CHANNEL : Z
}.

(** ** The driver's own fields *)

Record Lexer : Type := mkLexer {
  _input : option Ref;
  _tokenFactorySourcePair : SourcePair;
  _token : option Token;
  _tokenStartCharIndex : Z;
  _tokenStartLine : Z;
  _tokenStartColumn : Z;
  _hitEOF : bool;
  _channel : Z;
  _type : Z;
  _modeStack : list Z;
  _mode : Z;
  _text : option string
}.

Definition DEFAULT_MODE : Z := 0.
Definition MORE : Z := -2.
Definition SKIP : Z := -3.

Definition set_input (v : option Ref) (l : Lexer) : Lexer :=
  mkLexer v (_tokenFactorySourcePair l) (_token l) (_tokenStartCharIndex l)
    (_tokenStartLine l) (_tokenStartColumn l) (_hitEOF l) (_channel l)
    (_type l) (_modeStack l) (_mode l) (_text l).
Definition set_tokenFactorySourcePair (v : SourcePair) (l : Lexer) : Lexer :=
  mkLexer (_input l) v (_token l) (_tokenStartCharIndex l)
    (_tokenStartLine l) (_tokenStartColumn l) (_hitEOF l) (_channel l)
    (_type l) (_modeStack l) (_mode l) (_text l).
Definition set_token (v : option Token) (l : Lexer) : Lexer :=
  mkLexer (_input l) (_tokenFactorySourcePair l) v (_tokenStartCharIndex l)
    (_tokenStartLine l) (_tokenStartColumn l) (_hitEOF l) (_channel l)
    (_type l) (_modeStack l) (_mode l) (_text l).
Definition set_tokenStartCharIndex (v : Z) (l : Lexer) : Lexer :=
  mkLexer (_input l) (_tokenFactorySourcePair l) (_token l) v
    (_tokenStartLine l) (_tokenStartColumn l) (_hitEOF l) (_channel l)
    (_type l) (_modeStack l) (_mode l) (_text l).
Definition set_tokenStartLine (v : Z) (l : Lexer) : Lexer :=
  mkLexer (_input l) (_tokenFactorySourcePair l) (_token l)
    (_tokenStartCharIndex l) v (_tokenStartColumn l) (_hitEOF l) (_channel l)
    (_type l) (_modeStack l) (_mode l) (_text l).
Definition set_tokenStartColumn (v : Z) (l : Lexer) : Lexer :=
  mkLexer (_input l) (_tokenFactorySourcePair l) (_token l)
    (_tokenStartCharIndex l) (_tokenStartLine l) v (_hitEOF l) (_channel l)
    (_type l) (_modeStack l) (_mode l) (_text l).
Definition set_hitEOF (v : bool) (l : Lexer) : Lexer :=
  mkLexer (_input l) (_tokenFactorySourcePair l) (_token l)
    (_tokenStartCharIndex l) (_tokenStartLine l) (_tokenStartColumn l) v
    (_channel l) (_type l) (_modeStack l) (_mode l) (_text l).
Definition set_channel (v : Z) (l : Lexer) : Lexer :=
  mkLexer (_input l) (_tokenFactorySourcePair l) (_token l)
    (_tokenStartCharIndex l) (_tokenStartLine l) (_tokenStartColumn l)
    (_hitEOF l) v (_type l) (_modeStack l) (_mode l) (_text l).
Definition set_type (v : Z) (l : Lexer) : Lexer :=
  mkLexer (_input l) (_tokenFactorySourcePair l) (_token l)
    (_tokenStartCharIndex l) (_tokenStartLine l) (_tokenStartColumn l)
    (_hitEOF l) (_channel l) v (_modeStack l) (_mode l) (_text l).
Definition set_modeStack (v : list Z) (l : Lexer) : Lexer :=
  mkLexer (_input l) (_tokenFactorySourcePair l) (_token l)
    (_tokenStartCharIndex l) (_tokenStartLine l) (_tokenStartColumn l)
    (_hitEOF l) (_channel l) (_type l) v (_mode l) (_text l).
Definition set_mode (v : Z) (l : Lexer) : Lexer :=
  mkLexer (_input l) (_tokenFactorySourcePair l) (_token l)
    (_tokenStartCharIndex l) (_tokenStartLine l) (_tokenStartColumn l)
    (_hitEOF l) (_channel l) (_type l) (_modeStack l) v (_text l).
Definition set_text (v : option string) (l : Lexer) : Lexer :=
  mkLexer (_input l) (_tokenFactorySourcePair l) (_token l)
    (_tokenStartCharIndex l) (_tokenStartLine l) (_tokenStartColumn l)
    (_hitEOF l) (_channel l) (_type l) (_modeStack l) (_mode l) v.

(** ** Events: calls into the sinks *)

(** What the driver prints: each constructor stands for the line built by
    the string concatenation at that place. *)
Inductive ConsoleLine : Type :=
| LogPushMode (m : Z)                 (* "pushMode " + m *)
| LogPopMode (rest : list Z)          (* "popMode back to " + slice(0, -1) *)
| LogStack (e : Thrown).              (* e.stack *)

Inductive Event : Type :=
| EvCreate (t : Token)
| EvSyntaxError (line column : Z) (msg : string) (e : Thrown)
| EvConsole (c : ConsoleLine).

(** ** The world a call runs in *)

Record World (Stm Itp : Type) : Type := mkWorld {
  lexer : Lexer;
  streams : Ref -> Stm;
  interp : Itp;
  events : list Event          (* newest first *)
}.
Arguments mkWorld {Stm Itp}.
Arguments lexer {Stm Itp}.
Arguments streams {Stm Itp}.
Arguments interp {Stm Itp}.
Arguments events {Stm Itp}.

(** ** Results and the driver's monad *)

Inductive Res (A : Type) : Type :=
| Normal (a : A)
| Raise (e : Thrown)
| OutOfFuel.
Arguments Normal {A}.
Arguments Raise {A}.
Arguments OutOfFuel {A}.

Definition M (Stm Itp A : Type) : Type := World Stm Itp -> Res A * World Stm Itp.

(** ** Collaborator interfaces *)

(** The character stream: [index], [LA], [seek], [mark], [release],
    [consume] and [getText]. *)
Class CharStream (Stm : Type) : Type := {
  cs_index : Stm -> Z;
  cs_LA : Z -> Stm -> Z;
  cs_seek : Z -> Stm -> Stm;
  cs_mark : Stm -> Z * Stm;
  cs_release : Z -> Stm -> Stm;
  cs_consume : Stm -> Thrown + Stm;
  cs_getText : Z -> Z -> Stm -> string
}.

(** The interpreter: [line], [column], [debug], [reset], [consume(input)]
    and [match(input, mode)].  [match] runs the rule actions of the generated
    lexer, which reach every field of the driver, so it acts on the world. *)
Class Interpreter (Stm Itp : Type) : Type := {
  interp_line : Itp -> Z;
  interp_column : Itp -> Z;
  interp_debug : Itp -> bool;
  interp_reset : Itp -> Itp;
  interp_consume : Stm -> Itp -> Thrown + (Stm * Itp);
  interp_match : option Ref -> Z -> M Stm Itp Z
}.

(** ** Monad operations *)

Section Monad.
Context {Stm Itp : Type}.
Local Abbreviation M := (M Stm Itp).

Definition ret {A : Type} (a : A) : M A := fun w => (Normal a, w).

Definition bind {A B : Type} (m : M A) (k : A -> M B) : M B :=
  fun w =>
    match m w with
    | (Normal a, w') => k a w'
    | (Raise e, w') => (Raise e, w')
    | (OutOfFuel, w') => (OutOfFuel, w')
    end.

Definition throw {A : Type} (e : Thrown) : M A := fun w => (Raise e, w).

Definition out_of_fuel {A : Type} : M A := fun w => (OutOfFuel, w).

Definition gets {A : Type} (f : Lexer -> A) : M A :=
  fun w => (Normal (f (lexer w)), w).

Definition assign (f : Lexer -> Lexer) : M unit :=
  fun w => (Normal tt, mkWorld (f (lexer w)) (streams w) (interp w) (events w)).

Definition emit_event (ev : Event) : M unit :=
  fun w => (Normal tt, mkWorld (lexer w) (streams w) (interp w) (ev :: events w)).

Definition when (b : bool) (m : M unit) : M unit := if b then m else ret tt.

(** [try { body } catch (e) { handler e }] *)
Definition try_catch {A : Type} (body : M A) (handler : Thrown -> M A) : M A :=
  fun w =>
    match body w with
    | (Raise e, w') => handler e w'
    | r => r
    end.

(** [try { body } finally { fin }]: [fin] runs after a normal and after an
    abrupt completion of [body]; if [fin] itself throws, that replaces the
    completion of [body]. *)
Definition try_finally {A : Type} (body : M A) (fin : M unit) : M A :=
  fun w =>
    match body w with
    | (OutOfFuel, w') => (OutOfFuel, w')
    | (r, w') =>
        match fin w' with
        | (Normal _, w'') => (r, w'')
        | (Raise e, w'') => (Raise e, w'')
        | (OutOfFuel, w'') => (OutOfFuel, w'')
        end
    end.
End Monad.

Declare Scope lexer_scope.
Delimit Scope lexer_scope with lexer.
Notation "x <- m ;; k" := (bind m (fun x => k))
  (at level 100, m at next level, right associativity) : lexer_scope.
Notation "m ;; k" := (bind m (fun _ => k))
  (at level 100, right associativity) : lexer_scope.
Local Open Scope lexer_scope.

(** ** The driver *)

Section Driver.
Context {Stm Itp : Type} {TC : TokenConstants}
        {CS : CharStream Stm} {IN : Interpreter Stm Itp}.
Local Abbreviation M := (M Stm Itp).
Local Abbreviation World := (World Stm Itp).

Definition update_stream (r : Ref) (s : Stm) (w : World) : World :=
  mkWorld (lexer w) (fun r' => if Nat.eqb r' r then s else streams w r')
          (interp w) (events w).

(** Reading through [this._input]: a null reference is a TypeError. *)
Definition with_input {A : Type} (k : Ref -> M A) : M A :=
  inp <- gets _input ;;
  match inp with
  | Some r => k r
  | None => throw (ThrowObject TypeError 0)
  end.

(** [this._input.index] *)
Definition input_index : M Z :=
  with_input (fun r w => (Normal (cs_index (streams w r)), w)).

(** [this._input.LA(i)] *)
Definition input_LA (i : Z) : M Z :=
  with_input (fun r w => (Normal (cs_LA i (streams w r)), w)).

(** [this._input.getText(start, stop)] *)
Definition input_getText (start stop : Z) : M string :=
  with_input (fun r w => (Normal (cs_getText start stop (streams w r)), w)).

(** [this._input.consume()] *)
Definition input_consume : M unit :=
  with_input (fun r w =>
    match cs_consume (streams w r) with
    | inl e => (Raise e, w)
    | inr s => (Normal tt, update_stream r s w)
    end).

(** [this._input.release(marker)] *)
Definition input_release (marker : Z) : M unit :=
  with_input (fun r w =>
    (Normal tt, update_stream r (cs_release marker (streams w r)) w)).

(** [this._interp.consume(this._input)] *)
Definition interp_consume_input : M unit :=
  fun w =>
    match _input (lexer w) with
    | None => (Raise (ThrowObject TypeError 0), w)
    | Some r =>
        match interp_consume (streams w r) (interp w) with
        | inl e => (Raise e, w)
        | inr (s, i) =>
            (Normal tt,
             mkWorld (lexer w) (streams (update_stream r s w)) i (events w))
        end
    end.

(** [get line()] and [get column()] *)
Definition line : M Z := fun w => (Normal (interp_line (interp w)), w).
Definition column : M Z := fun w => (Normal (interp_column (interp w)), w).
Definition debug : M bool := fun w => (Normal (interp_debug (interp w)), w).

(** Modelled from the spec: [this._factory.create(...)] allocates the token
    from its arguments; the call is recorded. *)
Definition factory_create (source : SourcePair) (type : Z)
    (text : option string) (channel start stop line column : Z) : M Token :=
  let t := mkToken source type text channel start stop line column in
  emit_event (EvCreate t) ;; ret t.

Definition reset : M unit :=
  inp <- gets _input ;;
  match inp with
  | Some r => fun w => (Normal tt, update_stream r (cs_seek 0 (streams w r)) w)
  | None => ret tt
  end ;;
  assign (set_token None) ;;
  assign (set_type Token_INVALID_TYPE) ;;
  assign (set_channel Token_DEFAULT_CHANNEL) ;;
  assign (set_tokenStartCharIndex (-1)) ;;
  assign (set_tokenStartColumn (-1)) ;;
  assign (set_tokenStartLine (-1)) ;;
  assign (set_text None) ;;
  assign (set_hitEOF false) ;;
  assign (set_mode DEFAULT_MODE) ;;
  assign (set_modeStack []) ;;
  fun w => (Normal tt,
            mkWorld (lexer w) (streams w) (interp_reset (interp w)) (events w)).

Definition skip : M unit := assign (set_type SKIP).
Definition more : M unit := assign (set_type MORE).
Definition mode (m : Z) : M unit := assign (set_mode m).

Definition pushMode (m : Z) : M unit :=
  d <- debug ;;
  when d (emit_event (EvConsole (LogPushMode m))) ;;
  st <- gets _modeStack ;;
  cur <- gets _mode ;;
  assign (set_modeStack (st ++ [cur])) ;;
  mode m.

Definition popMode : M Z :=
  st <- gets _modeStack ;;
  if (Z.of_nat (List.length st) =? 0)%Z then throw (ThrowString "Empty Stack")
  else
    d <- debug ;;
    when d (emit_event (EvConsole (LogPopMode (removelast st)))) ;;
    assign (set_modeStack (removelast st)) ;;
    mode (last st 0) ;;
    gets _mode.

Definition emitToken (token : Token) : M unit := assign (set_token (Some token)).

Definition getCharIndex : M Z := input_index.

Definition emit : M Token :=
  l <- gets (fun l => l) ;;
  stop <- getCharIndex ;;
  t <- factory_create (_tokenFactorySourcePair l) (_type l) (_text l)
         (_channel l) (_tokenStartCharIndex l) (stop - 1)
         (_tokenStartLine l) (_tokenStartColumn l) ;;
  emitToken t ;;
  ret t.

Definition emitEOF : M Token :=
  cpos <- column ;;
  lpos <- line ;;
  pair <- gets _tokenFactorySourcePair ;;
  idx <- input_index ;;
  eof <- factory_create pair Token_EOF None Token_DEFAULT_CHANNEL
           idx (idx - 1) lpos cpos ;;
  emitToken eof ;;
  ret eof.

(** The loop of [getErrorDisplay]: push every character, then join. *)
Fixpoint getErrorDisplay_push (s : string) (d : list string) : list string :=
  match s with
  | EmptyString => d
  | String c rest => getErrorDisplay_push rest (d ++ [String c EmptyString])
  end.

Definition getErrorDisplay (s : string) : string :=
  String.concat "" (getErrorDisplay_push s []).

Definition notifyListeners (e : Thrown) : M unit :=
  start <- gets _tokenStartCharIndex ;;
  stop <- input_index ;;
  text <- input_getText start stop ;;
  let msg := ("token recognition error at: '" ++ getErrorDisplay text ++ "'")%string in
  ln <- gets _tokenStartLine ;;
  col <- gets _tokenStartColumn ;;
  emit_event (EvSyntaxError ln col msg e).

Definition recover (re : Thrown) : M unit :=
  la <- input_LA 1 ;;
  if negb (la =? Token_EOF)%Z then
    if instanceof re LexerNoViableAltException then interp_consume_input
    else input_consume
  else ret tt.

(** [e.stack], the argument of [console.log] on line 124: reading it from
    [null] or [undefined] is a TypeError, raised before anything is
    printed; every other value has the property or answers [undefined]. *)
Definition read_stack (e : Thrown) : M ConsoleLine :=
  if nullish e then throw (ThrowObject TypeError 0) else ret (LogStack e).

(** Lines 120-126 of [nextToken]: the [catch] block; its value is the
    [ttype] the round goes on with, which the failed assignment left at
    [Lexer.SKIP]. *)
Definition onMatchFailure (e : Thrown) : M Z :=
  if instanceof e RecognitionException then
    notifyListeners e ;;
    recover e ;;
    ret SKIP
  else
    stack <- read_stack e ;;
    emit_event (EvConsole stack) ;;
    throw e.

(** Lines 128-133 of [nextToken]: the end-of-input latch and the adoption
    of [ttype]. *)
Definition resolveType (ttype : Z) : M unit :=
  la <- input_LA 1 ;;
  when (la =? Token_EOF)%Z (assign (set_hitEOF true)) ;;
  ty <- gets _type ;;
  when (ty =? Token_INVALID_TYPE)%Z (assign (set_type ttype)).

(** Lines 115-133 of [nextToken]: one round of the inner loop, up to the
    point where [_type] is resolved. *)
Definition matchRound : M unit :=
  assign (set_type Token_INVALID_TYPE) ;;
  ttype <- try_catch
             (inp <- gets _input ;;
              m <- gets _mode ;;
              interp_match inp m)
             onMatchFailure ;;
  resolveType ttype.

(** The inner [for (;;)]; the result is [continueOuter]. *)
Fixpoint innerLoop (fuel : nat) : M bool :=
  match fuel with
  | O => out_of_fuel
  | S fuel' =>
      matchRound ;;
      ty <- gets _type ;;
      if (ty =? SKIP)%Z then ret true
      else if negb (ty =? MORE)%Z then ret false
      else innerLoop fuel'
  end.

(** Lines 107-112: a new token starts. *)
Definition startToken : M unit :=
  assign (set_token None) ;;
  assign (set_channel Token_DEFAULT_CHANNEL) ;;
  idx <- input_index ;;
  assign (set_tokenStartCharIndex idx) ;;
  col <- column ;;
  assign (set_tokenStartColumn col) ;;
  ln <- line ;;
  assign (set_tokenStartLine ln) ;;
  assign (set_text None).

(** Lines 145-148. *)
Definition finishToken : M (option Token) :=
  tk <- gets _token ;;
  match tk with
  | None => emit ;; ret tt
  | Some _ => ret tt
  end ;;
  gets _token.

(** The outer [for (;;)]. *)
Fixpoint outerLoop (fuel : nat) : M (option Token) :=
  match fuel with
  | O => out_of_fuel
  | S fuel' =>
      h <- gets _hitEOF ;;
      if h then emitEOF ;; gets _token
      else
        startToken ;;
        continueOuter <- innerLoop fuel' ;;
        if continueOuter then outerLoop fuel'
        else finishToken
  end.

Definition nextToken (fuel : nat) : M (option Token) :=
  inp <- gets _input ;;
  match inp with
  | None => throw (ThrowString "nextToken requires a non-null input stream.")
  | Some r =>
      tokenStartMarker <- (fun w =>
        let (m, s) := cs_mark (streams w r) in
        (Normal m, update_stream r s w)) ;;
      try_finally (outerLoop fuel) (input_release tokenStartMarker)
  end.

(** The [while] of [getAllTokens]; [t.type] on null is a TypeError. *)
Fixpoint getAllTokens_while (fuel : nat) (tokens : list Token)
    (t : option Token) : M (list Token) :=
  match fuel with
  | O => out_of_fuel
  | S fuel' =>
      match t with
      | None => throw (ThrowObject TypeError 0)
      | Some tk =>
          if negb (tok_type tk =? Token_EOF)%Z then
            t' <- nextToken fuel' ;;
            getAllTokens_while fuel' (tokens ++ [tk]) t'
          else ret tokens
      end
  end.

Definition getAllTokens (fuel : nat) : M (list Token) :=
  t <- nextToken fuel ;;
  getAllTokens_while fuel [] t.

(** [set inputStream(input)] *)
Definition set_inputStream (input : option Ref) : M unit :=
  assign (set_input None) ;;
  inp <- gets _input ;;
  assign (set_tokenFactorySourcePair (tt, inp)) ;;
  reset ;;
  assign (set_input input) ;;
  inp' <- gets _input ;;
  assign (set_tokenFactorySourcePair (tt, inp')).

(** [constructor(input)]: the world right after construction, given the
    heap and the interpreter the subclass installs. *)
Definition constructor (input : option Ref) (heap : Ref -> Stm) (i : Itp)
  : World :=
  mkWorld
    (mkLexer input (tt, input) None (-1) (-1) (-1) false
             Token_DEFAULT_CHANNEL Token_INVALID_TYPE [] DEFAULT_MODE None)
    heap i [].

End Driver.

(** ** A small instance: a list-backed stream and a one-character interpreter

    Used to run the driver on concrete inputs. *)

Module Sample.

#[export] Instance constants : TokenConstants :=
  {| Token_EOF := -1; Token_INVALID_TYPE := 0; Token_DEFAULT_CHANNEL := 0 |}.

(** A stream over a list of code points that counts its open markers. *)
Record ListStream : Type := mkListStream {
  chars : list Z;
  pos : nat;
  open_marks : nat
}.

Definition ls_LA (i : Z) (s : ListStream) : Z :=
  if (1 <=? i)%Z then nth (pos s + Z.to_nat (i - 1)) (chars s) (-1) else -1.

Definition ls_consume (s : ListStream) : Thrown + ListStream :=
  if (pos s <? List.length (chars s))%nat
  then inr (mkListStream (chars s) (Datatypes.S (pos s)) (open_marks s))
  else inl (ThrowString "cannot consume EOF").

Definition ls_getText (start stop : Z) (s : ListStream) : string :=
  string_of_list_ascii
    (map (fun c => Ascii.ascii_of_nat (Z.to_nat c))
         (firstn (Z.to_nat (stop - start + 1))
                 (skipn (Z.to_nat start) (chars s)))).

#[export] Instance list_stream : CharStream ListStream := {|
  cs_index s := Z.of_nat (pos s);
  cs_LA := ls_LA;
  cs_seek p s :=
    mkListStream (chars s) (Nat.min (Z.to_nat p) (List.length (chars s)))
                 (open_marks s);
  cs_mark s :=
    (Z.of_nat (open_marks s),
     mkListStream (chars s) (pos s) (Datatypes.S (open_marks s)));
  cs_release _ s := mkListStream (chars s) (pos s) (Nat.pred (open_marks s));
  cs_consume := ls_consume;
  cs_getText := ls_getText
|}.

Record Position : Type := mkPosition { at_line : Z; at_column : Z }.

(** [consume(input)] of the interpreter: one character, with newline
    tracking. *)
Definition pos_consume (s : ListStream) (p : Position)
  : Thrown + (ListStream * Position) :=
  match ls_consume s with
  | inl e => inl e
  | inr s' =>
      inr (s', if (ls_LA 1 s =? 10)%Z
               then mkPosition (at_line p + 1) 0
               else mkPosition (at_line p) (at_column p + 1))
  end.

Definition is_letter (c : Z) : bool := ((97 <=? c) && (c <=? 122))%Z.

Definition IDENT : Z := 1.
Definition WS : Z := 2.
Definition QUOTE : Z := 3.

(** One [match]: a rule consumes one character.
    - end of input: the end-of-input type;
    - a space: rule WS with action [skip()];
    - a letter: rule IDENT, with action [more()] while a letter follows;
    - a double quote: rule QUOTE with action [more()];
    - [<] and [>]: [pushMode(1)] and [popMode()], then [skip()];
    - [#]: one character is matched, then the rule fails;
    - [!]: an action fails with a plain Error;
    - anything else: no viable alternative. *)
Definition sample_match (inp : option Ref) (m : Z)
  : M ListStream Position Z :=
  match inp with
  | None => throw (ThrowObject TypeError 0)
  | Some r => fun w =>
      let c := ls_LA 1 (streams w r) in
      let eat (k : M ListStream Position Z) : Res Z * World ListStream Position :=
        match pos_consume (streams w r) (interp w) with
        | inl e => (Raise e, w)
        | inr (s, p) =>
            k (mkWorld (lexer w)
                 (fun r' => if Nat.eqb r' r then s else streams w r')
                 p (events w))
        end in
      if (c =? -1)%Z then (Normal (-1), w)
      else if (c =? 32)%Z then
        eat (assign (set_type SKIP) ;; ret WS)
      else if is_letter c then
        eat (fun w' =>
               if is_letter (ls_LA 1 (streams w' r))
               then (assign (set_type MORE) ;; ret IDENT) w'
               else (Normal IDENT, w'))
      else if (c =? 34)%Z then
        eat (assign (set_type MORE) ;; ret QUOTE)
      else if (c =? 60)%Z then
        eat (fun w' =>
               (assign (set_modeStack (_modeStack (lexer w') ++ [_mode (lexer w')])) ;;
                assign (set_mode 1) ;; assign (set_type SKIP) ;; ret WS) w')
      else if (c =? 62)%Z then
        eat (fun w' =>
               match _modeStack (lexer w') with
               | [] => (Raise (ThrowString "Empty Stack"), w')
               | st =>
                   (assign (set_modeStack (removelast st)) ;;
                    assign (set_mode (last st 0)) ;;
                    assign (set_type SKIP) ;; ret WS) w'
               end)
      else if (c =? 35)%Z then
        eat (throw (ThrowObject RecognitionException c))
      else if (c =? 33)%Z then (Raise (ThrowObject Error c), w)
      else (Raise (ThrowObject LexerNoViableAltException c), w)
  end.

#[export] Instance sample_interpreter : Interpreter ListStream Position := {|
  interp_line := at_line;
  interp_column := at_column;
  interp_debug _ := false;
  interp_reset _ := mkPosition 1 0;
  interp_consume := pos_consume;
  interp_match := sample_match
|}.

(** An interpreter whose only rule matches the empty string. *)
Definition empty_rule_interpreter : Interpreter ListStream Position := {|
  interp_line := at_line;
  interp_column := at_column;
  interp_debug _ := false;
  interp_reset _ := mkPosition 1 0;
  interp_consume := pos_consume;
  interp_match _ _ := ret IDENT
|}.

Definition codes (s : string) : list Z :=
  map (fun a => Z.of_nat (Ascii.nat_of_ascii a)) (list_ascii_of_string s).

(** The characters the stream has not consumed yet. *)
Definition chars_left (s : ListStream) : nat :=
  (List.length (chars s) - pos s)%nat.

(** A freshly constructed driver on one stream holding [s]. *)
Definition fresh (s : string) : World ListStream Position :=
  constructor (Some O) (fun _ => mkListStream (codes s) 0 0) (mkPosition 1 0).

End Sample.

(** ** Vocabulary for the statements *)

Section Vocabulary.
Context {Stm Itp : Type} {TC : TokenConstants}
        {CS : CharStream Stm} {IN : Interpreter Stm Itp}.
Local Abbreviation M := (M Stm Itp).
Local Abbreviation World := (World Stm Itp).

(** What follows the inner loop inside one outer iteration. *)
Definition afterInner (fuel : nat) (r : Res bool * World)
  : Res (option Token) * World :=
  match r with
  | (Normal true, w1) => outerLoop fuel w1
  | (Normal false, w1) => finishToken w1
  | (Raise e, w1) => (Raise e, w1)
  | (OutOfFuel, w1) => (OutOfFuel, w1)
  end.

(** The world after [this._input.mark()] on stream [r], after
    [emitToken(t)] of a token the factory has just built, and after
    [this._input.release(m)] on stream [r]. *)
Definition marked (r : Ref) (w : World) : World :=
  update_stream r (snd (cs_mark (streams w r))) w.

Definition emitted (t : Token) (w : World) : World :=
  mkWorld (set_token (Some t) (lexer w)) (streams w) (interp w)
          (EvCreate t :: events w).

Definition released (r : Ref) (m : Z) (w : World) : World :=
  update_stream r (cs_release m (streams w r)) w.

(** The tokens the factory has built so far, newest first. *)
Definition created (w : World) : list Token :=
  flat_map (fun ev => match ev with EvCreate t => [t] | _ => [] end)
           (events w).

(** The listener notifications so far, newest first. *)
Definition notified (w : World) : list Event :=
  filter (fun ev => match ev with EvSyntaxError _ _ _ _ => true | _ => false end)
         (events w).

(** The captured start of the token in progress. *)
Definition tokenStart (w : World) : Z * Z * Z :=
  (_tokenStartCharIndex (lexer w), _tokenStartLine (lexer w),
   _tokenStartColumn (lexer w)).

(** [m] leaves the observation [obs] of the world as it found it. *)
Definition preserves {A B : Type} (obs : World -> A) (m : M B) : Prop :=
  forall w, obs (snd (m w)) = obs w.

(** An observation that only reads driver fields which the rounds of the
    inner loop never assign, and that ignores listener and console
    events and the contents of streams and interpreter. *)
Definition round_stable {A : Type} (obs : World -> A) : Prop :=
  (forall w v, obs (snd (assign (set_type v) w)) = obs w) /\
  (forall w v, obs (snd (assign (set_hitEOF v) w)) = obs w) /\
  (forall w l c msg e,
      obs (snd (emit_event (EvSyntaxError l c msg e) w)) = obs w) /\
  (forall w c, obs (snd (emit_event (EvConsole c) w)) = obs w) /\
  (forall (w : World) st i,
      obs (mkWorld (lexer w) st i (events w)) = obs w).

(** The token [emit()] builds in world [w], reading stream [r]. *)
Definition defaultToken (r : Ref) (w : World) : Token :=
  mkToken (_tokenFactorySourcePair (lexer w)) (_type (lexer w))
          (_text (lexer w)) (_channel (lexer w))
          (_tokenStartCharIndex (lexer w)) (cs_index (streams w r) - 1)
          (_tokenStartLine (lexer w)) (_tokenStartColumn (lexer w)).

(** The token [emitEOF()] builds in world [w], reading stream [r]. *)
Definition eofToken (r : Ref) (w : World) : Token :=
  mkToken (_tokenFactorySourcePair (lexer w)) Token_EOF None
          Token_DEFAULT_CHANNEL (cs_index (streams w r))
          (cs_index (streams w r) - 1)
          (interp_line (interp w)) (interp_column (interp w)).

(** [m] completes, normally or by a throw, in every world. *)
Definition returns {B : Type} (m : M B) : Prop :=
  forall w, fst (m w) <> OutOfFuel.

(** *** Positions inside the loops of [nextToken] *)

(** Zero or more rounds of the inner loop that each end in "more". *)
Inductive MoreRounds : World -> World -> Prop :=
| more_none (w : World) : MoreRounds w w
| more_step (w w1 w2 : World) :
    matchRound w = (Normal tt, w1) ->
    _type (lexer w1) = MORE ->
    MoreRounds w1 w2 ->
    MoreRounds w w2.

(** One outer iteration that starts a token at [wi] and whose inner loop
    leaves with a type other than "more" in world [w1]. *)
Definition Attempt (wi w1 : World) : Prop :=
  _hitEOF (lexer wi) = false /\
  exists ws wr,
    startToken wi = (Normal tt, ws) /\
    MoreRounds ws wr /\
    matchRound wr = (Normal tt, w1) /\
    _type (lexer w1) <> MORE.

(** Zero or more outer iterations that each resolve to "skip". *)
Inductive Skipped : World -> World -> Prop :=
| skipped_none (w : World) : Skipped w w
| skipped_step (w w1 w2 : World) :
    Attempt w w1 ->
    _type (lexer w1) = SKIP ->
    Skipped w1 w2 ->
    Skipped w w2.

(** *** Contracts of the collaborators *)

(** Rule actions leave the captured token start alone. *)
Definition match_keeps_start : Prop :=
  forall inp m, preserves tokenStart (interp_match inp m).

(** Rule actions do not replace the driver's stream. *)
Definition match_keeps_input : Prop :=
  forall inp m, preserves (fun w => _input (lexer w)) (interp_match inp m).

(** Rule actions do not call the token factory. *)
Definition match_keeps_created : Prop :=
  forall inp m, preserves created (interp_match inp m).

(** Marking and releasing do not move the stream. *)
Definition marks_keep_index : Prop :=
  forall s : Stm,
    cs_index (snd (cs_mark s)) = cs_index s /\
    forall m, cs_index (cs_release m s) = cs_index s.

(** Away from the end of input, both ways of consuming succeed and
    advance the stream by one character. *)
Definition consume_advances : Prop :=
  forall s : Stm, cs_LA 1 s <> Token_EOF ->
    (exists s', cs_consume s = inr s' /\ cs_index s' = cs_index s + 1) /\
    (forall i : Itp, exists s' i',
        interp_consume s i = inr (s', i') /\ cs_index s' = cs_index s + 1).

(** [n] calls of [nextToken] in a row, with their results. *)
Fixpoint nextTokens (n fuel : nat) (w : World)
  : list (Res (option Token)) * World :=
  match n with
  | O => ([], w)
  | S n' =>
      let (r, w1) := nextToken fuel w in
      let (rs, w2) := nextTokens n' fuel w1 in
      (r :: rs, w2)
  end.

(** *** Bulk extraction *)

(** Following the spec's words for [getAllTokens]: the tokens produced by
    repeated [nextToken()] calls, up to and excluding the first
    end-of-input token. *)
Inductive CollectedUntilEOF : World -> list Token -> World -> Prop :=
| collected_eof (w w' : World) (t : Token) :
    (exists fuel, nextToken fuel w = (Normal (Some t), w')) ->
    tok_type t = Token_EOF ->
    CollectedUntilEOF w [] w'
| collected_token (w w1 w' : World) (t : Token) (ts : list Token) :
    (exists fuel, nextToken fuel w = (Normal (Some t), w1)) ->
    tok_type t <> Token_EOF ->
    CollectedUntilEOF w1 ts w' ->
    CollectedUntilEOF w (t :: ts) w'.

(** The input that is left, measured by [size] on the driver's stream. *)
Definition remaining (size : Stm -> nat) (w : World) : nat :=
  match _input (lexer w) with
  | Some r => size (streams w r)
  | None => O
  end.

(** The driver's stream stands at the end of its input. *)
Definition at_end (w : World) : Prop :=
  exists r, _input (lexer w) = Some r /\ cs_LA 1 (streams w r) = Token_EOF.

(** The type a round resolves to when [match] has answered [ttype] and left
    world [w] (lines 131-133): the one a rule action set, else [ttype]. *)
Definition resolved (ttype : Z) (w : World) : Z :=
  if (_type (lexer w) =? Token_INVALID_TYPE)%Z then ttype
  else _type (lexer w).

(** The collaborators make progress, [size] measuring what is left of a
    stream.
    - The stream is finite: marking and releasing do not grow what is
      left, and away from the end of input both ways of consuming, when
      they succeed, shrink it.
    - [match] always returns.
    - Called by the driver (the type unset), a [match] that returns
      normally has shrunk what is left, or has not grown it and leaves the
      stream at the end of input with a round type other than "more".
    - Called by the driver, a [match] that raises a recognition failure
      has not grown what is left and, if it leaves the stream at the end
      of input, has not left the type "more" behind. *)
Definition makes_progress (size : Stm -> nat) : Prop :=
  (forall s : Stm,
      (size (snd (cs_mark s)) <= size s)%nat /\
      forall m, (size (cs_release m s) <= size s)%nat) /\
  (forall s : Stm, cs_LA 1 s <> Token_EOF ->
      (forall s', cs_consume s = inr s' -> (size s' < size s)%nat) /\
      (forall (i : Itp) s' i',
          interp_consume s i = inr (s', i') -> (size s' < size s)%nat)) /\
  (forall inp m, returns (interp_match inp m)) /\
  (forall w ttype w1,
      _type (lexer w) = Token_INVALID_TYPE ->
      interp_match (_input (lexer w)) (_mode (lexer w)) w
        = (Normal ttype, w1) ->
      (remaining size w1 < remaining size w)%nat \/
      ((remaining size w1 <= remaining size w)%nat /\
       at_end w1 /\ resolved ttype w1 <> MORE)) /\
  (forall w e w1,
      _type (lexer w) = Token_INVALID_TYPE ->
      interp_match (_input (lexer w)) (_mode (lexer w)) w = (Raise e, w1) ->
      instanceof e RecognitionException = true ->
      (remaining size w1 <= remaining size w)%nat /\
      (at_end w1 -> _type (lexer w1) <> MORE)).

(** What the termination argument looks at. *)
Definition progress_state (size : Stm -> nat) (w : World) : nat * bool :=
  (remaining size w, _hitEOF (lexer w)).

(** What is left to do before the end-of-input token: twice the remaining
    input, plus one while the latch is not set. *)
Definition potential (size : Stm -> nat) (w : World) : nat :=
  (2 * remaining size w + (if _hitEOF (lexer w) then 0 else 1))%nat.

End Vocabulary.

(** ** Worlds along sample runs *)

Module SampleRuns.
Import Sample.

Definition after {A : Type} (m : M ListStream Position A)
    (w : World ListStream Position) : World ListStream Position :=
  snd (m w).

(** [" a"]: a space that is skipped, then an identifier. *)
Definition space_a := fresh " a".
Definition space_a_marked := marked O space_a.
Definition space_a_started := after startToken space_a_marked.
Definition space_a_skipped := after matchRound space_a_started.
Definition space_a_restarted := after startToken space_a_skipped.
Definition space_a_resolved := after matchRound space_a_restarted.

(** ["ab"]: a round that ends in "more", then the identifier. *)
Definition ab := fresh "ab".
Definition ab_started := after startToken ab.
Definition ab_more := after matchRound ab_started.
Definition ab_resolved := after matchRound ab_more.

(** ["a"] after its only token has been read: the latch is set. *)
Definition exhausted := after (nextToken 3) (fresh "a").

(** What every call of [nextToken()] finds, and leaves, when the only rule
    matches the empty string in front of a letter [a]: the stream attached,
    the latch unset, the letter still ahead. *)
Definition stuck_at_a (w : World ListStream Position) : Prop :=
  _input (lexer w) = Some O /\
  _hitEOF (lexer w) = false /\
  ls_LA 1 (streams w O) = 97.

(** ["$"]: no rule matches; [dollar_failed] is the world in which the
    interpreter raises. *)
Definition dollar := fresh "$".
Definition dollar_started := after startToken (marked O dollar).
Definition dollar_failed :=
  after (assign (set_type Token_INVALID_TYPE)) dollar_started.
Definition no_viable_alt : Thrown := ThrowObject LexerNoViableAltException 36.

(** A driver attached to stream 0, next to a stream 1 that already stands
    at index 3 of ["abc de"]. *)
Definition two_streams : World ListStream Position :=
  constructor (Some O)
    (fun r => if Nat.eqb r 1 then mkListStream (codes "abc de") 3 0
              else mkListStream (codes "x") 0 0)
    (mkPosition 1 0).

(** ["!"]: a rule action fails with a plain Error. *)
Definition bang := fresh "!".
Definition action_error : Thrown := ThrowObject Error 33.

End SampleRuns.

(** ** The display helpers, and sequences of driver calls *)

Section Display.
Context {TC : TokenConstants}.

(** [c.charCodeAt(0)]: the code of the first character of [c]; on the empty
    string JavaScript answers [NaN], which is strictly equal to nothing. *)
Definition charCodeAt0 (c : string) : option Z :=
  match c with
  | EmptyString => None
  | String a _ => Some (Z.of_nat (Ascii.nat_of_ascii a))
  end.

(** The one-character strings ['\n'], ['\t'] and ['\r'] of the source. *)
Definition char_LF : string := String (Ascii.ascii_of_nat 10) EmptyString.
Definition char_TAB : string := String (Ascii.ascii_of_nat 9) EmptyString.
Definition char_CR : string := String (Ascii.ascii_of_nat 13) EmptyString.

(** In the results, a backslash followed by a letter: two characters. *)
Definition getErrorDisplayForChar (c : string) : string :=
  if match charCodeAt0 c with
     | Some k => (k =? Token_EOF)%Z
     | None => false
     end
  then "<EOF>"
  else if String.eqb c char_LF then "\n"
  else if String.eqb c char_TAB then "\t"
  else if String.eqb c char_CR then "\r"
  else c.

Definition getCharErrorDisplay (c : string) : string :=
  ("'" ++ getErrorDisplayForChar c ++ "'")%string.

(** Does [s] hold a raw line feed, tab or carriage return? *)
Fixpoint has_control (s : string) : bool :=
  match s with
  | EmptyString => false
  | String a rest =>
      (Nat.eqb (Ascii.nat_of_ascii a) 10 || Nat.eqb (Ascii.nat_of_ascii a) 9
       || Nat.eqb (Ascii.nat_of_ascii a) 13 || has_control rest)%bool
  end.

End Display.

Section Sequences.
Context {Stm Itp : Type} {TC : TokenConstants}
        {CS : CharStream Stm} {IN : Interpreter Stm Itp}.
Local Abbreviation M := (M Stm Itp).
Local Abbreviation World := (World Stm Itp).

(** [pushMode(m1); ...; pushMode(mn)] *)
Fixpoint pushModes (ms : list Z) : M unit :=
  match ms with
  | [] => ret tt
  | m :: rest => pushMode m ;; pushModes rest
  end.

(** [n] calls of [popMode()] in a row, with the modes they return. *)
Fixpoint popModes (n : nat) : M (list Z) :=
  match n with
  | O => ret []
  | S n' => m <- popMode ;; rest <- popModes n' ;; ret (m :: rest)
  end.

(** Releasing a marker does not change the next character. *)
Definition release_keeps_LA : Prop :=
  forall (m : Z) (s : Stm), cs_LA 1 (cs_release m s) = cs_LA 1 s.

(** Rule actions set neither the channel nor the text override. *)
Definition match_keeps_channel_text : Prop :=
  forall inp m,
    preserves (fun w : World => (_channel (lexer w), _text (lexer w)))
              (interp_match inp m).

(** The interpreter never moves a stream backwards. *)
Definition match_never_rewinds : Prop :=
  forall inp m (w : World) (r : Ref),
    cs_index (streams w r) <= cs_index (streams (snd (interp_match inp m w)) r).

End Sequences.

(** ** More sample worlds *)

Module MoreRuns.
Import Sample SampleRuns.

(** A driver constructed without a stream. *)
Definition detached : World ListStream Position :=
  constructor None (fun _ => mkListStream [] 0 0) (mkPosition 1 0).

(** ["a"] with the call's marker taken, and at the end of the attempt that
    resolves the identifier. *)
Definition a_marked := marked O (fresh "a").
Definition a_started := after startToken a_marked.
Definition a_resolved := after matchRound a_started.

(** ["#"]: the rule matches one character and then fails, at the end of
    input; [hash_failed] is the world in which the interpreter raises. *)
Definition hash := fresh "#".
Definition hash_marked := marked O hash.
Definition hash_started := after startToken hash_marked.
Definition hash_failed :=
  snd (interp_match (_input (lexer hash_started)) (_mode (lexer hash_started))
         (snd (assign (set_type Token_INVALID_TYPE) hash_started))).
Definition rule_failure : Thrown := ThrowObject RecognitionException 35.

(** ["a"] read by a driver that holds channel 5 and a text override when
    the call begins. *)
Definition tagged :=
  after (assign (set_text (Some "x"))) (after (assign (set_channel 5)) a_marked).
Definition tagged_started := after startToken tagged.
Definition tagged_resolved := after matchRound tagged_started.

(** A driver in mode 7 with modes 3 and 5 on its stack. *)
Definition nested : World ListStream Position :=
  after (pushModes [3; 5; 7]) (fresh "a").

End MoreRuns.

(** ** Rule actions that throw [null] or replace the driver's stream *)

Module Actions.
Import Sample.

(** The sample interpreter with another [match]. *)
Definition with_match (f : option Ref -> Z -> M ListStream Position Z)
  : Interpreter ListStream Position := {|
  interp_line := at_line;
  interp_column := at_column;
  interp_debug _ := false;
  interp_reset _ := mkPosition 1 0;
  interp_consume := pos_consume;
  interp_match := f
|}.




(** A rule whose action calls [more()] and which then fails. *)
Definition more_then_fail : Interpreter ListStream Position :=
  with_match (fun _ _ =>
    assign (set_type MORE) ;; throw (ThrowObject RecognitionException 0)).

End Actions.

(** * Properties *)

Section Loops.
Context {Stm Itp : Type} {TC : TokenConstants}
        {CS : CharStream Stm} {IN : Interpreter Stm Itp}.
Local Abbreviation M := (M Stm Itp).
Local Abbreviation World := (World Stm Itp).

(** ** The loops, one step at a time *)

Lemma innerLoop_S (fuel : nat) (w : World) :
  innerLoop (S fuel) w =
  match matchRound w with
  | (Normal _, w1) =>
      if (_type (lexer w1) =? SKIP)%Z then (Normal true, w1)
      else if negb (_type (lexer w1) =? MORE)%Z then (Normal false, w1)
      else innerLoop fuel w1
  | (Raise e, w1) => (Raise e, w1)
  | (OutOfFuel, w1) => (OutOfFuel, w1)
  end.
Proof.
  cbn [innerLoop]. unfold bind at 1.
  destruct (matchRound w) as [[[]|e|] w1]; try reflexivity.
  unfold bind, gets. cbv beta iota.
  destruct (_type (lexer w1) =? SKIP)%Z; [reflexivity|].
  destruct (_type (lexer w1) =? MORE)%Z; reflexivity.
Qed.

Lemma outerLoop_S (fuel : nat) (w : World) :
  outerLoop (S fuel) w =
  if _hitEOF (lexer w) then (emitEOF ;; gets _token) w
  else
    match startToken w with
    | (Normal _, w0) => afterInner fuel (innerLoop fuel w0)
    | (Raise e, w0) => (Raise e, w0)
    | (OutOfFuel, w0) => (OutOfFuel, w0)
    end.
Proof.
  cbn [outerLoop]. unfold bind at 1. unfold gets at 1. cbv beta iota.
  destruct (_hitEOF (lexer w)); [reflexivity|].
  unfold bind at 1.
  destruct (startToken w) as [[[]|e|] w0]; try reflexivity.
  unfold bind at 1. unfold afterInner.
  destruct (innerLoop fuel w0) as [[[]|e|] w1]; reflexivity.
Qed.

(** ** More fuel never changes a completed run *)

Lemma innerLoop_fuel (f : nat) :
  forall (w : World) r w',
    innerLoop f w = (r, w') -> r <> OutOfFuel ->
    forall f', (f <= f')%nat -> innerLoop f' w = (r, w').
Proof.
  induction f as [|f IH]; intros w r w' H Hr f' Hle.
  - cbn in H. unfold out_of_fuel in H. inversion H; subst. congruence.
  - destruct f' as [|f']; [lia|].
    rewrite innerLoop_S in H |- *.
    destruct (matchRound w) as [[[]|e|] w1]; try assumption.
    destruct (_type (lexer w1) =? SKIP)%Z; [assumption|].
    destruct (negb (_type (lexer w1) =? MORE)%Z); [assumption|].
    apply (IH _ _ _ H Hr). lia.
Qed.

Lemma outerLoop_fuel (f : nat) :
  forall (w : World) r w',
    outerLoop f w = (r, w') -> r <> OutOfFuel ->
    forall f', (f <= f')%nat -> outerLoop f' w = (r, w').
Proof.
  induction f as [|f IH]; intros w r w' H Hr f' Hle.
  - cbn in H. unfold out_of_fuel in H. inversion H; subst. congruence.
  - destruct f' as [|f']; [lia|].
    rewrite outerLoop_S in H |- *.
    destruct (_hitEOF (lexer w)); [assumption|].
    destruct (startToken w) as [[[]|e|] w0]; try assumption.
    destruct (innerLoop f w0) as [ri wi] eqn:Hi.
    assert (Hri : ri <> OutOfFuel).
    { intro; subst ri. unfold afterInner in H. inversion H; subst. congruence. }
    rewrite (innerLoop_fuel f w0 ri wi Hi Hri f') by lia.
    destruct ri as [[]|e|]; unfold afterInner in H |- *; try assumption.
    apply (IH _ _ _ H Hr). lia.
Qed.

Lemma nextToken_eq (fuel : nat) (w : World) :
  nextToken fuel w =
  match _input (lexer w) with
  | None =>
      (Raise (ThrowString "nextToken requires a non-null input stream."), w)
  | Some r =>
      let (m, s) := cs_mark (streams w r) in
      try_finally (outerLoop fuel) (input_release m) (update_stream r s w)
  end.
Proof.
  unfold nextToken, bind at 1, gets at 1. cbv beta iota.
  destruct (_input (lexer w)) as [r|]; [|reflexivity].
  unfold bind at 1. destruct (cs_mark (streams w r)); reflexivity.
Qed.

Lemma nextToken_fuel (f : nat) (w : World) r w' :
  nextToken f w = (r, w') -> r <> OutOfFuel ->
  forall f', (f <= f')%nat -> nextToken f' w = (r, w').
Proof.
  intros H Hr f' Hle. rewrite nextToken_eq in H |- *.
  destruct (_input (lexer w)) as [ref|]; [|exact H].
  destruct (cs_mark (streams w ref)) as [m s].
  unfold try_finally in H |- *.
  destruct (outerLoop f (update_stream ref s w)) as [ro wo] eqn:Ho.
  assert (Hro : ro <> OutOfFuel).
  { intro; subst ro. inversion H; subst. congruence. }
  rewrite (outerLoop_fuel f _ ro wo Ho Hro f' Hle). exact H.
Qed.

(** ** Frames: what the driver's own steps leave alone *)

Section Frames.
Context {A : Type} (obs : World -> A).

Lemma preserves_ret {B : Type} (b : B) : preserves obs (ret b).
Proof. intros w; reflexivity. Qed.

Lemma preserves_throw {B : Type} (e : Thrown) : preserves obs (@throw _ _ B e).
Proof. intros w; reflexivity. Qed.

Lemma preserves_out_of_fuel {B : Type} : preserves obs (@out_of_fuel _ _ B).
Proof. intros w; reflexivity. Qed.

Lemma preserves_gets {B : Type} (f : Lexer -> B) : preserves obs (gets f).
Proof. intros w; reflexivity. Qed.

Lemma preserves_bind {B C : Type} (m : M B) (k : B -> M C) :
  preserves obs m -> (forall b, preserves obs (k b)) ->
  preserves obs (bind m k).
Proof.
  intros Hm Hk w. unfold bind. specialize (Hm w).
  destruct (m w) as [[b|e|] w1]; cbn [snd] in *; try assumption.
  rewrite Hk. assumption.
Qed.

Lemma preserves_try_catch {B : Type} (m : M B) (h : Thrown -> M B) :
  preserves obs m -> (forall e, preserves obs (h e)) ->
  preserves obs (try_catch m h).
Proof.
  intros Hm Hh w. unfold try_catch. specialize (Hm w).
  destruct (m w) as [[b|e|] w1]; cbn [snd] in *; try assumption.
  rewrite Hh. assumption.
Qed.

Lemma preserves_try_finally {B : Type} (m : M B) (fin : M unit) :
  preserves obs m -> preserves obs fin ->
  preserves obs (try_finally m fin).
Proof.
  intros Hm Hf w. unfold try_finally. specialize (Hm w).
  destruct (m w) as [[b|e|] w1]; cbn [snd] in *; try assumption;
    specialize (Hf w1); destruct (fin w1) as [[u|e'|] w2];
    cbn [snd] in *; congruence.
Qed.

Lemma preserves_when (b : bool) (m : M unit) :
  preserves obs m -> preserves obs (when b m).
Proof. destruct b; cbn; [auto|]. intros _ w; reflexivity. Qed.

Lemma preserves_with_input {B : Type} (k : Ref -> M B) :
  (forall r, preserves obs (k r)) -> preserves obs (with_input k).
Proof.
  intros Hk. unfold with_input. apply preserves_bind.
  - apply preserves_gets.
  - intros [r|]; [apply Hk | apply preserves_throw].
Qed.

Hypothesis stable : round_stable obs.

Lemma preserves_input_index : preserves obs input_index.
Proof. apply preserves_with_input; intros r w; reflexivity. Qed.

Lemma preserves_input_LA (i : Z) : preserves obs (input_LA i).
Proof. apply preserves_with_input; intros r w; reflexivity. Qed.

Lemma preserves_input_getText (a b : Z) : preserves obs (input_getText a b).
Proof. apply preserves_with_input; intros r w; reflexivity. Qed.

Lemma preserves_input_consume : preserves obs input_consume.
Proof.
  apply preserves_with_input; intros r w.
  destruct (cs_consume (streams w r)); [reflexivity|].
  destruct stable as (_ & _ & _ & _ & Hst). apply Hst.
Qed.

Lemma preserves_input_release (m : Z) : preserves obs (input_release m).
Proof.
  apply preserves_with_input; intros r w.
  destruct stable as (_ & _ & _ & _ & Hst). apply Hst.
Qed.

Lemma preserves_interp_consume_input : preserves obs interp_consume_input.
Proof.
  intros w. unfold interp_consume_input.
  destruct (_input (lexer w)) as [r|]; [|reflexivity].
  destruct (interp_consume (streams w r) (interp w)) as [e|[s i]];
    [reflexivity|].
  destruct stable as (_ & _ & _ & _ & Hst). apply Hst.
Qed.

Lemma preserves_notifyListeners (e : Thrown) :
  preserves obs (notifyListeners e).
Proof.
  unfold notifyListeners.
  apply preserves_bind; [apply preserves_gets|intros start].
  apply preserves_bind; [apply preserves_input_index|intros stop].
  apply preserves_bind; [apply preserves_input_getText|intros text].
  apply preserves_bind; [apply preserves_gets|intros ln].
  apply preserves_bind; [apply preserves_gets|intros col].
  intros w. destruct stable as (_ & _ & Hev & _). apply Hev.
Qed.

Lemma preserves_recover (e : Thrown) : preserves obs (recover e).
Proof.
  unfold recover.
  apply preserves_bind; [apply preserves_input_LA|intros la].
  destruct (negb (la =? Token_EOF)%Z); [|apply preserves_ret].
  destruct (instanceof e LexerNoViableAltException).
  - apply preserves_interp_consume_input.
  - apply preserves_input_consume.
Qed.

Lemma preserves_onMatchFailure (e : Thrown) :
  preserves obs (onMatchFailure e).
Proof.
  unfold onMatchFailure. destruct (instanceof e RecognitionException).
  - apply preserves_bind; [apply preserves_notifyListeners|intros _].
    apply preserves_bind; [apply preserves_recover|intros _].
    apply preserves_ret.
  - destruct stable as (_ & _ & _ & Hcon & _).
    apply preserves_bind.
    { unfold read_stack. destruct (nullish e);
        [apply preserves_throw|apply preserves_ret]. }
    intros stack. apply preserves_bind; [intros w; apply Hcon|intros _].
    apply preserves_throw.
Qed.

Lemma preserves_resolveType (ttype : Z) : preserves obs (resolveType ttype).
Proof.
  unfold resolveType. destruct stable as (Hty & Hhit & _).
  apply preserves_bind; [apply preserves_input_LA|intros la].
  apply preserves_bind.
  { apply preserves_when. intros w; apply Hhit. }
  intros _.
  apply preserves_bind; [apply preserves_gets|intros ty].
  apply preserves_when. intros w; apply Hty.
Qed.

Lemma preserves_matchRound :
  (forall inp m, preserves obs (interp_match inp m)) ->
  preserves obs matchRound.
Proof.
  intros Hmatch. unfold matchRound.
  destruct stable as (Hty & _).
  apply preserves_bind; [intros w; apply Hty|intros _].
  apply preserves_bind.
  - apply preserves_try_catch.
    + apply preserves_bind; [apply preserves_gets|intros inp].
      apply preserves_bind; [apply preserves_gets|intros m].
      apply Hmatch.
    + apply preserves_onMatchFailure.
  - apply preserves_resolveType.
Qed.

Lemma MoreRounds_preserves (w w' : World) :
  (forall inp m, preserves obs (interp_match inp m)) ->
  MoreRounds w w' -> obs w' = obs w.
Proof.
  intros Hmatch H. induction H as [w|w w1 w2 Hr Hty _ IH]; [reflexivity|].
  rewrite IH. pose proof (preserves_matchRound Hmatch w) as Hp.
  rewrite Hr in Hp. exact Hp.
Qed.

End Frames.

(** ** Steps that always complete *)

Lemma returns_ret {B : Type} (b : B) : returns (@ret Stm Itp B b).
Proof. intros w; discriminate. Qed.

Lemma returns_throw {B : Type} (e : Thrown) : returns (@throw Stm Itp B e).
Proof. intros w; discriminate. Qed.

Lemma returns_gets {B : Type} (f : Lexer -> B) : returns (@gets Stm Itp B f).
Proof. intros w; discriminate. Qed.

Lemma returns_assign (f : Lexer -> Lexer) : returns (@assign Stm Itp f).
Proof. intros w; discriminate. Qed.

Lemma returns_emit_event (ev : Event) : returns (@emit_event Stm Itp ev).
Proof. intros w; discriminate. Qed.

Lemma returns_bind {B C : Type} (m : M B) (k : B -> M C) :
  returns m -> (forall b, returns (k b)) -> returns (bind m k).
Proof.
  intros Hm Hk w. unfold bind. specialize (Hm w).
  destruct (m w) as [[b|e|] w1]; cbn [fst] in *;
    [apply Hk|discriminate|congruence].
Qed.

Lemma returns_try_catch {B : Type} (m : M B) (h : Thrown -> M B) :
  returns m -> (forall e, returns (h e)) -> returns (try_catch m h).
Proof.
  intros Hm Hh w. unfold try_catch. specialize (Hm w).
  destruct (m w) as [[b|e|] w1]; cbn [fst] in *;
    [discriminate|apply Hh|congruence].
Qed.

Lemma returns_when (b : bool) (m : M unit) : returns m -> returns (when b m).
Proof. destruct b; cbn; [auto|]. intros _ w; discriminate. Qed.

Lemma returns_with_input {B : Type} (k : Ref -> M B) :
  (forall r, returns (k r)) -> returns (with_input k).
Proof.
  intros Hk. unfold with_input. apply returns_bind; [apply returns_gets|].
  intros [r|]; [apply Hk|apply returns_throw].
Qed.

Lemma returns_input_LA (i : Z) : returns (input_LA (Itp:=Itp) i).
Proof. apply returns_with_input; intros r w; discriminate. Qed.

Lemma returns_notifyListeners (e : Thrown) :
  returns (notifyListeners (Itp:=Itp) e).
Proof.
  unfold notifyListeners, input_index, input_getText.
  apply returns_bind; [apply returns_gets|intros start].
  apply returns_bind;
    [apply returns_with_input; intros r w; discriminate|intros stop].
  apply returns_bind;
    [apply returns_with_input; intros r w; discriminate|intros text].
  apply returns_bind; [apply returns_gets|intros ln].
  apply returns_bind; [apply returns_gets|intros col].
  apply returns_emit_event.
Qed.

Lemma returns_recover (e : Thrown) : returns (recover e).
Proof.
  unfold recover. apply returns_bind; [apply returns_input_LA|intros la].
  destruct (negb (la =? Token_EOF)%Z); [|apply returns_ret].
  destruct (instanceof e LexerNoViableAltException).
  - intros w. unfold interp_consume_input.
    destruct (_input (lexer w)) as [r|]; [|discriminate].
    destruct (interp_consume (streams w r) (interp w)) as [e'|[s i]];
      discriminate.
  - apply returns_with_input; intros r w.
    destruct (cs_consume (streams w r)); discriminate.
Qed.

Lemma returns_onMatchFailure (e : Thrown) : returns (onMatchFailure e).
Proof.
  unfold onMatchFailure. destruct (instanceof e RecognitionException).
  - apply returns_bind; [apply returns_notifyListeners|intros _].
    apply returns_bind; [apply returns_recover|intros _]. apply returns_ret.
  - apply returns_bind.
    { unfold read_stack. destruct (nullish e);
        [apply returns_throw|apply returns_ret]. }
    intros stack. apply returns_bind; [apply returns_emit_event|intros _].
    apply returns_throw.
Qed.

Lemma returns_resolveType (ttype : Z) :
  returns (resolveType (Itp:=Itp) ttype).
Proof.
  unfold resolveType.
  apply returns_bind; [apply returns_input_LA|intros la].
  apply returns_bind; [apply returns_when, returns_assign|intros _].
  apply returns_bind; [apply returns_gets|intros ty].
  apply returns_when, returns_assign.
Qed.

Lemma returns_matchRound :
  (forall inp m, returns (interp_match inp m)) -> returns matchRound.
Proof.
  intros Hm. unfold matchRound.
  apply returns_bind; [apply returns_assign|intros _].
  apply returns_bind; [|apply returns_resolveType].
  apply returns_try_catch; [|apply returns_onMatchFailure].
  apply returns_bind; [apply returns_gets|intros inp].
  apply returns_bind; [apply returns_gets|intros m]. apply Hm.
Qed.

Lemma tokenStart_stable : round_stable (@tokenStart Stm Itp).
Proof. repeat split. Qed.

Lemma input_stable : round_stable (fun w : World => _input (lexer w)).
Proof. repeat split. Qed.

Lemma created_stable : round_stable (@created Stm Itp).
Proof. repeat split. Qed.

(** ** Emission *)

Lemma emit_eq (w : World) (r : Ref) :
  _input (lexer w) = Some r ->
  emit w = (Normal (defaultToken r w), emitted (defaultToken r w) w).
Proof.
  intros Hin.
  unfold emit, getCharIndex, input_index, with_input, factory_create,
    emitToken, bind, gets, emit_event, assign, ret.
  cbv beta iota. rewrite Hin. reflexivity.
Qed.

Lemma finishToken_default (w : World) (r : Ref) :
  _token (lexer w) = None -> _input (lexer w) = Some r ->
  finishToken w =
    (Normal (Some (defaultToken r w)), emitted (defaultToken r w) w).
Proof.
  intros Htok Hin. unfold finishToken, bind at 1, gets at 1.
  cbv beta iota. rewrite Htok. unfold bind at 1, bind at 1.
  rewrite (emit_eq w r Hin). reflexivity.
Qed.

Lemma finishToken_custom (w : World) (t : Token) :
  _token (lexer w) = Some t -> finishToken w = (Normal (Some t), w).
Proof.
  intros Htok. unfold finishToken, bind, gets, ret.
  cbv beta iota. rewrite Htok. cbv beta iota. rewrite Htok. reflexivity.
Qed.

Lemma emitEOF_eq (w : World) (r : Ref) :
  _input (lexer w) = Some r ->
  (emitEOF ;; gets _token) w =
    (Normal (Some (eofToken r w)), emitted (eofToken r w) w).
Proof.
  intros Hin.
  unfold emitEOF, column, line, input_index, with_input, factory_create,
    emitToken, bind, gets, emit_event, assign, ret.
  cbv beta iota. rewrite Hin. reflexivity.
Qed.

Lemma outerLoop_hitEOF (fuel : nat) (w : World) (r : Ref) :
  _hitEOF (lexer w) = true -> _input (lexer w) = Some r ->
  outerLoop (S fuel) w =
    (Normal (Some (eofToken r w)), emitted (eofToken r w) w).
Proof.
  intros Hhit Hin. rewrite outerLoop_S, Hhit. apply emitEOF_eq, Hin.
Qed.

Lemma startToken_eq (w : World) (r : Ref) :
  _input (lexer w) = Some r ->
  startToken w =
    (Normal tt,
     mkWorld
       (set_text None
          (set_tokenStartLine (interp_line (interp w))
             (set_tokenStartColumn (interp_column (interp w))
                (set_tokenStartCharIndex (cs_index (streams w r))
                   (set_channel Token_DEFAULT_CHANNEL
                      (set_token None (lexer w)))))))
       (streams w) (interp w) (events w)).
Proof.
  intros Hin.
  unfold startToken, column, line, input_index, with_input, bind, gets,
    assign, ret.
  cbv beta iota. cbn [lexer set_token set_channel _input].
  rewrite Hin. reflexivity.
Qed.

Lemma startToken_Normal (w ws : World) :
  startToken w = (Normal tt, ws) ->
  exists r, _input (lexer w) = Some r.
Proof.
  destruct (_input (lexer w)) as [r|] eqn:Hin; [eauto|].
  unfold startToken, input_index, with_input, bind, gets, assign, throw.
  cbv beta iota. cbn [lexer set_token set_channel _input].
  rewrite Hin. discriminate.
Qed.

(** ** From positions inside the loops to runs of the loops *)

Lemma MoreRounds_innerLoop (ws wr : World) :
  MoreRounds ws wr ->
  forall f r w', innerLoop f wr = (r, w') -> r <> OutOfFuel ->
    exists f', innerLoop f' ws = (r, w').
Proof.
  induction 1 as [w|w w1 w2 Hr Hty _ IH]; intros f r w' H Hne; [eauto|].
  destruct (IH f r w' H Hne) as [f' Hf']. exists (S f').
  rewrite innerLoop_S, Hr, Hty. exact Hf'.
Qed.

Lemma last_round_innerLoop (f : nat) (wr w1 : World) :
  matchRound wr = (Normal tt, w1) -> _type (lexer w1) <> MORE ->
  innerLoop (S f) wr = (Normal (_type (lexer w1) =? SKIP)%Z, w1).
Proof.
  intros Hr Hty. rewrite innerLoop_S, Hr.
  destruct (_type (lexer w1) =? SKIP)%Z; [reflexivity|].
  destruct (Z.eqb_spec (_type (lexer w1)) MORE); [contradiction|reflexivity].
Qed.

Lemma Attempt_innerLoop (wi w1 : World) :
  Attempt wi w1 ->
  exists ws f,
    startToken wi = (Normal tt, ws) /\
    innerLoop f ws = (Normal (_type (lexer w1) =? SKIP)%Z, w1).
Proof.
  intros (_ & ws & wr & Hs & Hm & Hr & Hty).
  destruct (MoreRounds_innerLoop ws wr Hm 1 _ _
              (last_round_innerLoop 0 wr w1 Hr Hty)) as [f Hf];
    [discriminate|].
  eauto.
Qed.

Lemma Attempt_skip_outerLoop (wi w1 : World) :
  Attempt wi w1 -> _type (lexer w1) = SKIP ->
  forall f r w', outerLoop f w1 = (r, w') -> r <> OutOfFuel ->
    exists f', outerLoop f' wi = (r, w').
Proof.
  intros Ha Hty f r w' H Hne.
  destruct (Attempt_innerLoop wi w1 Ha) as (ws & f0 & Hs & Hi).
  destruct Ha as (Hhit & _).
  rewrite Hty in Hi. change (SKIP =? SKIP)%Z with true in Hi.
  exists (S (Nat.max f0 f)).
  rewrite outerLoop_S, Hhit, Hs.
  rewrite (innerLoop_fuel f0 ws _ _ Hi) by (discriminate || lia).
  cbn [afterInner]. apply (outerLoop_fuel f w1 r w' H Hne). lia.
Qed.

Lemma Skipped_outerLoop (w wi : World) :
  Skipped w wi ->
  forall f r w', outerLoop f wi = (r, w') -> r <> OutOfFuel ->
    exists f', outerLoop f' w = (r, w').
Proof.
  induction 1 as [w|w w1 w2 Ha Hty _ IH]; intros f r w' H Hne; [eauto|].
  destruct (IH f r w' H Hne) as [f1 Hf1].
  apply (Attempt_skip_outerLoop w w1 Ha Hty f1 r w' Hf1 Hne).
Qed.

Lemma Attempt_resolve_outerLoop (wi w1 : World) :
  Attempt wi w1 -> _type (lexer w1) <> SKIP ->
  exists f, outerLoop f wi = finishToken w1.
Proof.
  intros Ha Hty.
  destruct (Attempt_innerLoop wi w1 Ha) as (ws & f0 & Hs & Hi).
  destruct Ha as (Hhit & _).
  destruct (Z.eqb_spec (_type (lexer w1)) SKIP) as [|_]; [contradiction|].
  exists (S f0). rewrite outerLoop_S, Hhit, Hs, Hi. reflexivity.
Qed.

Lemma nextToken_of_outerLoop (f : nat) (w w1 : World) (r r1 : Ref) res :
  _input (lexer w) = Some r ->
  outerLoop f (marked r w) = (res, w1) -> res <> OutOfFuel ->
  _input (lexer w1) = Some r1 ->
  nextToken f w = (res, released r1 (fst (cs_mark (streams w r))) w1).
Proof.
  intros Hin Ho Hne Hin1. rewrite nextToken_eq, Hin.
  unfold marked in Ho.
  destruct (cs_mark (streams w r)) as [m s]. cbn [fst snd] in *.
  unfold try_finally. rewrite Ho.
  unfold input_release, with_input, bind, gets. cbv beta iota.
  rewrite Hin1. destruct res; try reflexivity. congruence.
Qed.

(** ** What one attempt keeps *)

Lemma Attempt_tokenStart (wi w1 : World) (ri : Ref) :
  match_keeps_start ->
  Attempt wi w1 -> _input (lexer wi) = Some ri ->
  tokenStart w1 =
    (cs_index (streams wi ri), interp_line (interp wi),
     interp_column (interp wi)).
Proof.
  intros Hk (_ & ws & wr & Hs & Hm & Hr & _) Hin.
  rewrite (startToken_eq wi ri Hin) in Hs. inversion Hs as [Hws]. clear Hs.
  pose proof (preserves_matchRound tokenStart tokenStart_stable Hk wr) as Hp.
  rewrite Hr in Hp. cbn [snd] in Hp. rewrite Hp.
  rewrite (MoreRounds_preserves tokenStart tokenStart_stable ws wr Hk Hm).
  rewrite <- Hws. reflexivity.
Qed.

Lemma Attempt_created (wi w1 : World) :
  match_keeps_created -> Attempt wi w1 -> created w1 = created wi.
Proof.
  intros Hk (_ & ws & wr & Hs & Hm & Hr & _).
  destruct (startToken_Normal wi ws Hs) as [ri Hin].
  rewrite (startToken_eq wi ri Hin) in Hs. inversion Hs as [Hws]. clear Hs.
  pose proof (preserves_matchRound created created_stable Hk wr) as Hp.
  rewrite Hr in Hp. cbn [snd] in Hp. rewrite Hp.
  rewrite (MoreRounds_preserves created created_stable ws wr Hk Hm).
  rewrite <- Hws. reflexivity.
Qed.

Lemma Attempt_default_emission (wi w1 : World) (ri r1 : Ref) :
  match_keeps_start ->
  Attempt wi w1 -> _type (lexer w1) <> SKIP ->
  _token (lexer w1) = None ->
  _input (lexer wi) = Some ri -> _input (lexer w1) = Some r1 ->
  exists f,
    outerLoop f wi =
      (Normal (Some (defaultToken r1 w1)), emitted (defaultToken r1 w1) w1) /\
    tok_start (defaultToken r1 w1) = cs_index (streams wi ri) /\
    tok_line (defaultToken r1 w1) = interp_line (interp wi) /\
    tok_column (defaultToken r1 w1) = interp_column (interp wi).
Proof.
  intros Hk Ha Hty Htok Hin Hin1.
  destruct (Attempt_resolve_outerLoop wi w1 Ha Hty) as [f Hf].
  rewrite (finishToken_default w1 r1 Htok Hin1) in Hf.
  pose proof (Attempt_tokenStart wi w1 ri Hk Ha Hin) as Hst.
  unfold tokenStart in Hst. inversion Hst as [[H1 H2 H3]].
  exists f. cbn [defaultToken tok_start tok_line tok_column].
  rewrite H1, H2, H3. repeat split. exact Hf.
Qed.

(** ** The resolution loop *)

(** C1.  Take any call of [nextToken()] that, after zero or more skipped
    attempts, reaches an attempt starting in world [wi] whose inner loop
    resolves a concrete type in world [w1] with [_token] still unset.  Then
    the call returns the token the factory builds from: the source pair,
    the resolved [_type], the text override [_text], the current
    [_channel], the stream index, line and column captured in [wi] as
    start, and the current stream index minus one as stop; that token is
    recorded in [_token], its construction is the newest factory event,
    and the marker of the call is released. *)
Theorem nextToken_default_emission (w wi w1 : World) (r ri r1 : Ref) :
  match_keeps_start ->
  _input (lexer w) = Some r ->
  Skipped (marked r w) wi ->
  Attempt wi w1 -> _type (lexer w1) <> SKIP ->
  _token (lexer w1) = None ->
  _input (lexer wi) = Some ri -> _input (lexer w1) = Some r1 ->
  let t :=
    mkToken (_tokenFactorySourcePair (lexer w1)) (_type (lexer w1))
            (_text (lexer w1)) (_channel (lexer w1))
            (cs_index (streams wi ri)) (cs_index (streams w1 r1) - 1)
            (interp_line (interp wi)) (interp_column (interp wi)) in
  exists fuel w',
    nextToken fuel w = (Normal (Some t), w') /\
    _token (lexer w') = Some t /\
    events w' = EvCreate t :: events w1 /\
    w' = released r1 (fst (cs_mark (streams w r))) (emitted t w1).
Proof.
  intros Hk Hin Hsk Ha Hty Htok Hini Hin1 t.
  destruct (Attempt_default_emission wi w1 ri r1 Hk Ha Hty Htok Hini Hin1)
    as (f & Hf & H1 & H2 & H3).
  assert (Ht : defaultToken r1 w1 = t).
  { unfold t. rewrite <- H1, <- H2, <- H3. reflexivity. }
  rewrite Ht in Hf.
  destruct (Skipped_outerLoop _ _ Hsk f _ _ Hf) as [f' Hf']; [discriminate|].
  exists f', (released r1 (fst (cs_mark (streams w r))) (emitted t w1)).
  repeat split.
  apply (nextToken_of_outerLoop f' w (emitted t w1) r r1); auto.
  discriminate.
Qed.

(** C2.  Take any attempt of the outer loop, starting in world [wi], whose
    inner loop resolves to "skip" in world [w2].  The attempt builds no
    token, and the outer loop goes on from [w2]: whatever it yields from
    [w2] is what it yields from [wi].  The next iteration either finds
    [_hitEOF] set and emits the end-of-input token at the stream index of
    [w2], or discards the token in progress and captures the start fields
    from the stream index, line and column of [w2]; so the next token that
    default emission builds starts at the stream index of [w2], the
    position right after the skipped span. *)
Theorem skip_restarts_after_skipped_span (wi w2 : World) (r2 : Ref) :
  match_keeps_start -> match_keeps_created ->
  Attempt wi w2 -> _type (lexer w2) = SKIP ->
  _input (lexer w2) = Some r2 ->
  created w2 = created wi /\
  (forall f res w', outerLoop f w2 = (res, w') -> res <> OutOfFuel ->
     exists f', outerLoop f' wi = (res, w')) /\
  (_hitEOF (lexer w2) = true ->
     exists f t w',
       outerLoop f wi = (Normal (Some t), w') /\
       tok_type t = Token_EOF /\
       tok_start t = cs_index (streams w2 r2) /\
       created w' = t :: created wi) /\
  (_hitEOF (lexer w2) = false ->
     exists ws,
       startToken w2 = (Normal tt, ws) /\
       _token (lexer ws) = None /\
       tokenStart ws =
         (cs_index (streams w2 r2), interp_line (interp w2),
          interp_column (interp w2))) /\
  (forall w3 r3,
     Attempt w2 w3 -> _type (lexer w3) <> SKIP ->
     _token (lexer w3) = None -> _input (lexer w3) = Some r3 ->
     exists f t w',
       outerLoop f wi = (Normal (Some t), w') /\
       tok_start t = cs_index (streams w2 r2) /\
       tok_stop t = cs_index (streams w3 r3) - 1 /\
       created w' = t :: created wi).
Proof.
  intros Hk Hc Ha Hty Hin.
  pose proof (Attempt_created wi w2 Hc Ha) as Hcr.
  split; [exact Hcr|].
  split; [apply (Attempt_skip_outerLoop wi w2 Ha Hty)|].
  split; [|split].
  - intros Hhit.
    destruct (Attempt_skip_outerLoop wi w2 Ha Hty 1 _ _
                (outerLoop_hitEOF 0 w2 r2 Hhit Hin)) as [f Hf];
      [discriminate|].
    exists f, (eofToken r2 w2), (emitted (eofToken r2 w2) w2).
    repeat split; [exact Hf|].
    unfold created, emitted. cbn [events flat_map app].
    fold (created w2). rewrite Hcr. reflexivity.
  - intros _. eexists. split; [apply (startToken_eq w2 r2 Hin)|].
    split; reflexivity.
  - intros w3 r3 Ha3 Hty3 Htok3 Hin3.
    destruct (Attempt_default_emission w2 w3 r2 r3 Hk Ha3 Hty3 Htok3 Hin Hin3)
      as (f & Hf & H1 & _).
    destruct (Attempt_skip_outerLoop wi w2 Ha Hty f _ _ Hf) as [f' Hf'];
      [discriminate|].
    exists f', (defaultToken r3 w3), (emitted (defaultToken r3 w3) w3).
    repeat split; [exact Hf'|exact H1|].
    unfold created, emitted. cbn [events flat_map app].
    fold (created w3). rewrite (Attempt_created w2 w3 Hc Ha3), Hcr.
    reflexivity.
Qed.

(** C3.  Take any outer iteration, starting in world [wi], whose inner
    loop runs one or more rounds that end in "more" and then a round that
    resolves a concrete type in world [w2] (with [_token] unset).  The
    iteration emits exactly one token: the factory is called once, the
    token starts at the stream index of [wi], captured before the first
    "more" round, and stops at the stream index of [w2] minus one. *)
Theorem more_rounds_extend_one_token
    (wi ws w1 wr w2 : World) (ri r2 : Ref) :
  match_keeps_start -> match_keeps_created ->
  _hitEOF (lexer wi) = false -> _input (lexer wi) = Some ri ->
  startToken wi = (Normal tt, ws) ->
  matchRound ws = (Normal tt, w1) -> _type (lexer w1) = MORE ->
  MoreRounds w1 wr ->
  matchRound wr = (Normal tt, w2) ->
  _type (lexer w2) <> MORE -> _type (lexer w2) <> SKIP ->
  _token (lexer w2) = None -> _input (lexer w2) = Some r2 ->
  tokenStart w1 = tokenStart ws /\ tokenStart wr = tokenStart ws /\
  exists fuel t w',
    outerLoop fuel wi = (Normal (Some t), w') /\
    tok_start t = cs_index (streams wi ri) /\
    tok_stop t = cs_index (streams w2 r2) - 1 /\
    tok_type t = _type (lexer w2) /\
    created w' = t :: created wi.
Proof.
  intros Hk Hc Hhit Hin Hs Hr1 Hty1 Hm Hr2 Hty2 Hskip Htok Hin2.
  assert (Hm' : MoreRounds ws wr) by (eapply more_step; eauto).
  assert (Ha : Attempt wi w2).
  { split; [exact Hhit|]. exists ws, wr. auto. }
  split; [|split].
  - pose proof (preserves_matchRound tokenStart tokenStart_stable Hk ws) as Hp.
    rewrite Hr1 in Hp. exact Hp.
  - apply (MoreRounds_preserves tokenStart tokenStart_stable ws wr Hk Hm').
  - destruct (Attempt_default_emission wi w2 ri r2 Hk Ha Hskip Htok Hin Hin2)
      as (f & Hf & H1 & _).
    exists f, (defaultToken r2 w2), (emitted (defaultToken r2 w2) w2).
    repeat split; [exact Hf|exact H1|].
    unfold created, emitted. cbn [events flat_map app].
    fold (created w2). rewrite (Attempt_created wi w2 Hc Ha). reflexivity.
Qed.

(** ** End of input *)

Lemma update_stream_same (r : Ref) (s : Stm) (w : World) :
  streams (update_stream r s w) r = s.
Proof. cbn. rewrite Nat.eqb_refl. reflexivity. Qed.

Lemma update_stream_other (r r' : Ref) (s : Stm) (w : World) :
  r' <> r -> streams (update_stream r s w) r' = streams w r'.
Proof.
  intros Hne. cbn. destruct (Nat.eqb_spec r' r); [contradiction|reflexivity].
Qed.

Lemma nextToken_hitEOF (f : nat) (w : World) (r : Ref) :
  _hitEOF (lexer w) = true -> _input (lexer w) = Some r ->
  nextToken (S f) w =
    (Normal (Some (eofToken r (marked r w))),
     released r (fst (cs_mark (streams w r)))
              (emitted (eofToken r (marked r w)) (marked r w))).
Proof.
  intros Hhit Hin.
  apply (nextToken_of_outerLoop (S f) w _ r r); auto; [|discriminate].
  apply outerLoop_hitEOF; assumption.
Qed.

(** C4.  For every driver whose [_hitEOF] latch is set (and whose stream
    is attached), over a stream whose [mark] and [release] do not move it:
    each of [n] calls of [nextToken()] in a row returns normally the
    end-of-input token of type [Token.EOF] on the default channel, with no
    text, spanning [[index, index - 1]] at the stream's index and carrying
    the interpreter's line and column; each call has the factory build its
    own token ([n] constructions for [n] calls), and the latch and the
    stream index are afterwards what they were. *)
Theorem nextToken_after_EOF (n fuel : nat) :
  marks_keep_index ->
  forall (w : World) (r : Ref),
  _hitEOF (lexer w) = true -> _input (lexer w) = Some r ->
  let t :=
    mkToken (_tokenFactorySourcePair (lexer w)) Token_EOF None
            Token_DEFAULT_CHANNEL (cs_index (streams w r))
            (cs_index (streams w r) - 1)
            (interp_line (interp w)) (interp_column (interp w)) in
  let w' := snd (nextTokens n (S fuel) w) in
  fst (nextTokens n (S fuel) w) = repeat (Normal (Some t)) n /\
  created w' = repeat t n ++ created w /\
  _hitEOF (lexer w') = true /\
  _input (lexer w') = Some r /\
  cs_index (streams w' r) = cs_index (streams w r) /\
  interp w' = interp w.
Proof.
  intros Hmk. induction n as [|n IH]; intros w r Hhit Hin t w'.
  - cbn in *. repeat split; assumption.
  - subst w'. cbn [nextTokens].
    rewrite (nextToken_hitEOF fuel w r Hhit Hin).
    set (t0 := eofToken r (marked r w)).
    set (w1 := released r (fst (cs_mark (streams w r)))
                        (emitted t0 (marked r w))).
    assert (Ht0 : t0 = t).
    { unfold t0, t, eofToken, marked. rewrite update_stream_same.
      destruct (Hmk (streams w r)) as [Hm _]. rewrite Hm. reflexivity. }
    assert (Hidx : cs_index (streams w1 r) = cs_index (streams w r)).
    { unfold w1, released. rewrite update_stream_same.
      destruct (Hmk (streams (emitted t0 (marked r w)) r)) as [_ Hr].
      rewrite Hr. unfold emitted, marked. cbn [streams].
      change (cs_index (streams (update_stream r
                (snd (cs_mark (streams w r))) w) r) =
              cs_index (streams w r)).
      rewrite update_stream_same.
      destruct (Hmk (streams w r)) as [Hm _]. exact Hm. }
    assert (Hhit1 : _hitEOF (lexer w1) = true) by exact Hhit.
    assert (Hin1 : _input (lexer w1) = Some r) by exact Hin.
    destruct (IH w1 r Hhit1 Hin1) as (Hres & Hcr & Hh & Hi & Hix & Hint).
    destruct (nextTokens n (S fuel) w1) as [rs w2] eqn:Hn.
    cbn [fst snd] in *.
    assert (Ht1 :
      mkToken (_tokenFactorySourcePair (lexer w1)) Token_EOF None
              Token_DEFAULT_CHANNEL (cs_index (streams w1 r))
              (cs_index (streams w1 r) - 1)
              (interp_line (interp w1)) (interp_column (interp w1)) = t).
    { rewrite Hidx. reflexivity. }
    rewrite Ht1 in Hres, Hcr.
    repeat split.
    + rewrite Hres, Ht0. reflexivity.
    + rewrite Hcr. unfold w1, created, released, emitted.
      cbn [events update_stream flat_map app]. rewrite Ht0.
      fold (created w). change (events (marked r w)) with (events w).
      fold (created w). cbn [repeat]. rewrite repeat_cons, <- app_assoc.
      reflexivity.
    + exact Hh.
    + exact Hi.
    + rewrite Hix. exact Hidx.
    + rewrite Hint. reflexivity.
Qed.

(** ** Recognition failures *)

Lemma notifyListeners_eq (e : Thrown) (w : World) (r : Ref) :
  _input (lexer w) = Some r ->
  notifyListeners e w =
    (Normal tt,
     mkWorld (lexer w) (streams w) (interp w)
       (EvSyntaxError (_tokenStartLine (lexer w)) (_tokenStartColumn (lexer w))
          ("token recognition error at: '" ++
           getErrorDisplay
             (cs_getText (_tokenStartCharIndex (lexer w))
                (cs_index (streams w r)) (streams w r)) ++ "'")%string e
        :: events w)).
Proof.
  intros Hin.
  unfold notifyListeners, input_index, input_getText, with_input, bind,
    gets, emit_event.
  cbv beta iota. rewrite Hin. cbv beta iota. rewrite Hin. reflexivity.
Qed.

Lemma recover_at_EOF (e : Thrown) (w : World) (r : Ref) :
  _input (lexer w) = Some r -> cs_LA 1 (streams w r) = Token_EOF ->
  recover e w = (Normal tt, w).
Proof.
  intros Hin Hla. unfold recover, input_LA, with_input, bind, gets.
  cbv beta iota. rewrite Hin, Hla, Z.eqb_refl. reflexivity.
Qed.

Lemma recover_no_viable_alt (e : Thrown) (w : World) (r : Ref) :
  _input (lexer w) = Some r -> cs_LA 1 (streams w r) <> Token_EOF ->
  instanceof e LexerNoViableAltException = true ->
  recover e w = interp_consume_input w.
Proof.
  intros Hin Hla Hnv. unfold recover, input_LA, with_input, bind, gets.
  cbv beta iota. rewrite Hin.
  destruct (Z.eqb_spec (cs_LA 1 (streams w r)) Token_EOF); [contradiction|].
  cbn [negb]. rewrite Hnv. reflexivity.
Qed.

Lemma recover_other (e : Thrown) (w : World) (r : Ref) :
  _input (lexer w) = Some r -> cs_LA 1 (streams w r) <> Token_EOF ->
  instanceof e LexerNoViableAltException = false ->
  recover e w = input_consume w.
Proof.
  intros Hin Hla Hnv. unfold recover, input_LA, with_input, bind, gets.
  cbv beta iota. rewrite Hin.
  destruct (Z.eqb_spec (cs_LA 1 (streams w r)) Token_EOF); [contradiction|].
  cbn [negb]. rewrite Hnv. reflexivity.
Qed.

Lemma resolveType_spec (ttype : Z) (w : World) (r : Ref) :
  _input (lexer w) = Some r ->
  exists w',
    resolveType ttype w = (Normal tt, w') /\
    streams w' = streams w /\ interp w' = interp w /\
    events w' = events w /\
    lexer w' =
      set_type
        (if (_type (lexer w) =? Token_INVALID_TYPE)%Z
         then ttype else _type (lexer w))
        (set_hitEOF
           (_hitEOF (lexer w) || (cs_LA 1 (streams w r) =? Token_EOF)%Z)
           (lexer w)).
Proof.
  intros Hin.
  unfold resolveType, input_LA, with_input, bind, gets, when, assign, ret.
  cbv beta iota. rewrite Hin. cbv beta iota.
  destruct (cs_LA 1 (streams w r) =? Token_EOF)%Z; cbv beta iota;
    cbn [lexer set_hitEOF _type];
    destruct (_type (lexer w) =? Token_INVALID_TYPE)%Z; cbv beta iota;
    eexists; (split; [reflexivity|]); cbn [streams interp events lexer];
    repeat split; destruct (lexer w); cbn;
    rewrite ?orb_true_r, ?orb_false_r; reflexivity.
Qed.

Lemma matchRound_eq (w : World) :
  matchRound w =
  let w0 := snd (assign (set_type Token_INVALID_TYPE) w) in
  match interp_match (_input (lexer w)) (_mode (lexer w)) w0 with
  | (Normal ttype, w1) => resolveType ttype w1
  | (Raise e, w1) =>
      match onMatchFailure e w1 with
      | (Normal ttype, w2) => resolveType ttype w2
      | (Raise e', w2) => (Raise e', w2)
      | (OutOfFuel, w2) => (OutOfFuel, w2)
      end
  | (OutOfFuel, w1) => (OutOfFuel, w1)
  end.
Proof.
  unfold matchRound, bind at 1, assign at 1. cbv beta iota zeta.
  unfold bind at 1, try_catch, bind at 1, gets at 1. cbv beta iota.
  unfold bind at 1, gets at 1. cbv beta iota.
  cbn [lexer snd assign set_type _input _mode].
  destruct (interp_match _ _ _) as [[ttype|e|] w1]; reflexivity.
Qed.

(** C5.  For every recognition failure [e] that the interpreter raises in
    a round of [nextToken()] (leaving world [w1], stream attached), over
    collaborators whose two ways of consuming succeed and advance by one
    character away from the end of input: the handler notifies the
    listener dispatch exactly once (one new event, with the captured start
    line and column, the message built from the text between the token
    start and the stream index, and [e]), leaves the driver's fields
    alone, and never raises; the round then goes on with "skip" as the
    interpreter's answer.  If the next character is the end-of-input
    sentinel nothing is consumed; otherwise for a no-viable-alternative
    failure exactly one character is consumed through the interpreter's
    [consume], and for any other recognition failure exactly one character
    is consumed directly from the stream, the interpreter being left as it
    was. *)
Theorem recognition_failure_notified_once_and_recovered
    (e : Thrown) (w1 : World) (r : Ref) :
  consume_advances ->
  instanceof e RecognitionException = true ->
  _input (lexer w1) = Some r ->
  let s := streams w1 r in
  exists w2,
    onMatchFailure e w1 = (Normal SKIP, w2) /\
    (forall w,
        interp_match (_input (lexer w)) (_mode (lexer w))
          (snd (assign (set_type Token_INVALID_TYPE) w)) = (Raise e, w1) ->
        matchRound w = resolveType SKIP w2) /\
    events w2 =
      EvSyntaxError (_tokenStartLine (lexer w1)) (_tokenStartColumn (lexer w1))
        ("token recognition error at: '" ++
         getErrorDisplay
           (cs_getText (_tokenStartCharIndex (lexer w1)) (cs_index s) s) ++
         "'")%string e
      :: events w1 /\
    lexer w2 = lexer w1 /\
    (forall r', r' <> r -> streams w2 r' = streams w1 r') /\
    (cs_LA 1 s = Token_EOF -> streams w2 r = s /\ interp w2 = interp w1) /\
    (cs_LA 1 s <> Token_EOF ->
     instanceof e LexerNoViableAltException = true ->
       interp_consume s (interp w1) = inr (streams w2 r, interp w2) /\
       cs_index (streams w2 r) = cs_index s + 1) /\
    (cs_LA 1 s <> Token_EOF ->
     instanceof e LexerNoViableAltException = false ->
       cs_consume s = inr (streams w2 r) /\
       interp w2 = interp w1 /\
       cs_index (streams w2 r) = cs_index s + 1).
Proof.
  intros Hadv Hrec Hin s.
  set (ev := EvSyntaxError (_tokenStartLine (lexer w1))
               (_tokenStartColumn (lexer w1))
               ("token recognition error at: '" ++
                getErrorDisplay
                  (cs_getText (_tokenStartCharIndex (lexer w1))
                     (cs_index s) s) ++ "'")%string e).
  set (wn := mkWorld (lexer w1) (streams w1) (interp w1) (ev :: events w1)).
  assert (Hn : notifyListeners e w1 = (Normal tt, wn))
    by apply (notifyListeners_eq e w1 r Hin).
  assert (Hfail : forall w2,
             recover e wn = (Normal tt, w2) ->
             onMatchFailure e w1 = (Normal SKIP, w2)).
  { intros w2 Hr. unfold onMatchFailure. rewrite Hrec.
    unfold bind at 1. rewrite Hn. unfold bind at 1. rewrite Hr.
    reflexivity. }
  assert (Hround : forall w2,
             onMatchFailure e w1 = (Normal SKIP, w2) ->
             forall w,
               interp_match (_input (lexer w)) (_mode (lexer w))
                 (snd (assign (set_type Token_INVALID_TYPE) w)) =
                 (Raise e, w1) ->
               matchRound w = resolveType SKIP w2).
  { intros w2 Hf w Hm. rewrite matchRound_eq. cbv zeta. rewrite Hm, Hf.
    reflexivity. }
  destruct (Z.eq_dec (cs_LA 1 s) Token_EOF) as [Heof|Hne].
  - assert (Hr : recover e wn = (Normal tt, wn))
      by (apply (recover_at_EOF e wn r); assumption).
    exists wn. repeat split; auto; contradiction.
  - destruct (Hadv s Hne) as [(s' & Hcs & Hidx) Hic].
    destruct (instanceof e LexerNoViableAltException) eqn:Hnv.
    + destruct (Hic (interp w1)) as (s2 & i2 & Hi & Hidx2).
      set (w2 := mkWorld (lexer wn) (streams (update_stream r s2 wn)) i2
                         (events wn)).
      assert (Hr : recover e wn = (Normal tt, w2)).
      { rewrite (recover_no_viable_alt e wn r Hin Hne Hnv).
        unfold interp_consume_input. cbn [lexer wn]. rewrite Hin.
        change (streams wn r) with s. change (interp wn) with (interp w1).
        rewrite Hi. reflexivity. }
      assert (Hs2 : streams w2 r = s2) by apply (update_stream_same r s2 wn).
      exists w2. repeat split; auto; try contradiction; try discriminate.
      * intros r' Hr'. apply (update_stream_other r r' s2 wn Hr').
      * rewrite Hs2. exact Hi.
      * rewrite Hs2. exact Hidx2.
    + set (w2 := update_stream r s' wn).
      assert (Hr : recover e wn = (Normal tt, w2)).
      { rewrite (recover_other e wn r Hin Hne Hnv).
        unfold input_consume, with_input, bind, gets. cbv beta iota.
        cbn [lexer wn]. rewrite Hin. change (streams wn r) with s.
        rewrite Hcs. reflexivity. }
      assert (Hs2 : streams w2 r = s') by apply (update_stream_same r s' wn).
      exists w2. repeat split; auto; try contradiction; try discriminate.
      * intros r' Hr'. apply (update_stream_other r r' s' wn Hr').
      * rewrite Hs2. exact Hcs.
      * rewrite Hs2. exact Hidx.
Qed.

(** ** Failures that are not recognition failures, and the marker *)

Ltac frame_step :=
  first
    [ apply preserves_gets | apply preserves_ret | apply preserves_throw
    | apply preserves_out_of_fuel
    | apply preserves_bind; [|intro]
    | apply preserves_with_input; intro
    | match goal with
      | |- preserves _ (match ?x with _ => _ end) => destruct x
      | |- preserves _ (if ?x then _ else _) => destruct x
      end
    | (intros ?; reflexivity) ].







(** A thrown [null] or [undefined] does not get as far as the console:
    reading its [stack] raises a TypeError, which is what the round then
    throws. *)
Lemma matchRound_nullish (w w1 : World) (e : Thrown) :
  interp_match (_input (lexer w)) (_mode (lexer w))
    (snd (assign (set_type Token_INVALID_TYPE) w)) = (Raise e, w1) ->
  nullish e = true ->
  matchRound w = (Raise (ThrowObject TypeError 0), w1).
Proof.
  intros Hm Hnull. rewrite matchRound_eq. cbv zeta. rewrite Hm.
  unfold onMatchFailure.
  assert (Hrec : instanceof e RecognitionException = false)
    by (destruct e; (discriminate || reflexivity)).
  rewrite Hrec. unfold bind at 1, read_stack. rewrite Hnull. reflexivity.
Qed.



End Loops.

(** ** The mode stack *)

Section Modes.
Context {Stm Itp : Type} {TC : TokenConstants}
        {CS : CharStream Stm} {IN : Interpreter Stm Itp}.
Local Abbreviation World := (World Stm Itp).

Lemma pushMode_lexer (m : Z) (w : World) :
  fst (pushMode m w) = Normal tt /\
  lexer (snd (pushMode m w)) =
    set_mode m (set_modeStack (_modeStack (lexer w) ++ [_mode (lexer w)])
                              (lexer w)) /\
  streams (snd (pushMode m w)) = streams w /\
  interp (snd (pushMode m w)) = interp w.
Proof.
  unfold pushMode, bind, debug, when, gets, assign, mode, emit_event, ret.
  destruct (interp_debug (interp w)); cbn; repeat split; reflexivity.
Qed.

Lemma popMode_nonempty (w : World) :
  _modeStack (lexer w) <> [] ->
  fst (popMode w) = Normal (last (_modeStack (lexer w)) 0) /\
  lexer (snd (popMode w)) =
    set_mode (last (_modeStack (lexer w)) 0)
             (set_modeStack (removelast (_modeStack (lexer w))) (lexer w)) /\
  streams (snd (popMode w)) = streams w /\
  interp (snd (popMode w)) = interp w.
Proof.
  intros Hne.
  unfold popMode, bind, debug, when, gets, assign, mode, emit_event, ret.
  cbv beta iota.
  destruct (_modeStack (lexer w)) as [|x st] eqn:E; [congruence|].
  change (Z.of_nat (List.length (x :: st)) =? 0)%Z with false.
  cbv beta iota.
  destruct (interp_debug (interp w)); cbn; repeat split; reflexivity.
Qed.

(** C7.  For every mode [m] and every driver state, whatever the depth of
    the mode stack, [pushMode(m)] completes, and the [popMode()] that
    follows it returns the mode that was current before the push and leaves
    the driver's fields (current mode and mode stack included), the streams
    and the interpreter exactly as they were before the push. *)
Theorem pushMode_then_popMode_restores (m : Z) (w : World) :
  let w1 := snd (pushMode m w) in
  let w2 := snd (popMode w1) in
  fst (pushMode m w) = Normal tt /\
  _mode (lexer w1) = m /\
  _modeStack (lexer w1) = _modeStack (lexer w) ++ [_mode (lexer w)] /\
  fst (popMode w1) = Normal (_mode (lexer w)) /\
  _mode (lexer w2) = _mode (lexer w) /\
  _modeStack (lexer w2) = _modeStack (lexer w) /\
  lexer w2 = lexer w /\ streams w2 = streams w /\ interp w2 = interp w.
Proof.
  intros w1 w2.
  destruct (pushMode_lexer m w) as (Hr & Hl & Hs & Hi).
  fold w1 in Hl, Hs, Hi.
  assert (Hne : _modeStack (lexer w1) <> []).
  { rewrite Hl. cbn. intro H. apply app_eq_nil in H. destruct H; discriminate. }
  destruct (popMode_nonempty w1 Hne) as (Hr2 & Hl2 & Hs2 & Hi2).
  fold w2 in Hl2, Hs2, Hi2.
  assert (Hlast : last (_modeStack (lexer w1)) 0 = _mode (lexer w)).
  { rewrite Hl. cbn. apply last_last. }
  assert (Hrem : removelast (_modeStack (lexer w1)) = _modeStack (lexer w)).
  { rewrite Hl. cbn. apply removelast_last. }
  assert (Hlex : lexer w2 = lexer w).
  { rewrite Hl2, Hlast, Hrem, Hl. destruct (lexer w); reflexivity. }
  repeat split.
  - exact Hr.
  - rewrite Hl; reflexivity.
  - rewrite Hl; reflexivity.
  - rewrite Hr2, Hlast; reflexivity.
  - rewrite Hlex; reflexivity.
  - rewrite Hlex; reflexivity.
  - exact Hlex.
  - rewrite Hs2; exact Hs.
  - rewrite Hi2; exact Hi.
Qed.

(** C8.  For every driver whose mode stack is empty, [popMode()] throws
    the string "Empty Stack" (the fatal empty-mode-stack error): it returns
    no mode, and the world (current mode and mode stack included) is the
    one it was called in. *)
Theorem popMode_empty_stack_is_fatal (w : World) :
  _modeStack (lexer w) = [] ->
  popMode w = (Raise (ThrowString "Empty Stack"), w).
Proof.
  intros H. unfold popMode, bind, gets. cbv beta iota. rewrite H.
  reflexivity.
Qed.

End Modes.

(** ** Attaching a stream *)

Section InputStream.
Context {Stm Itp : Type} {TC : TokenConstants}
        {CS : CharStream Stm} {IN : Interpreter Stm Itp}.
Local Abbreviation World := (World Stm Itp).

Lemma reset_eq (w : World) :
  reset w =
    (Normal tt,
     mkWorld
       (mkLexer (_input (lexer w)) (_tokenFactorySourcePair (lexer w)) None
                (-1) (-1) (-1) false Token_DEFAULT_CHANNEL Token_INVALID_TYPE
                [] DEFAULT_MODE None)
       (match _input (lexer w) with
        | Some r => streams (update_stream r (cs_seek 0 (streams w r)) w)
        | None => streams w
        end)
       (interp_reset (interp w)) (events w)).
Proof.
  unfold reset. unfold bind at 1, gets at 1. cbv beta iota.
  destruct (_input (lexer w)) as [r|] eqn:Hin; cbn; rewrite <- Hin; reflexivity.
Qed.

(** C10.  For every driver and every stream reference (or null) assigned
    through the [inputStream] setter: the setter completes; afterwards all
    scan state, the mode, the mode stack and the [_hitEOF] latch have the
    values [reset()] gives them, the interpreter has been reset, [_input]
    and the second component of the token-factory source pair are the new
    reference, and every stream on the heap, the new one included, is
    exactly as it was, whereas [reset()] on a driver with a stream attached
    seeks that stream to 0.  A token started right after the setter
    therefore captures, as its start index, the index the new stream
    already had. *)
Theorem set_inputStream_resets_without_rewind
    (input : option Ref) (w : World) :
  let w' := snd (set_inputStream input w) in
  fst (set_inputStream input w) = Normal tt /\
  lexer w' =
    mkLexer input (tt, input) None (-1) (-1) (-1) false
            Token_DEFAULT_CHANNEL Token_INVALID_TYPE [] DEFAULT_MODE None /\
  lexer w' =
    set_tokenFactorySourcePair (tt, input)
      (set_input input (lexer (snd (reset w)))) /\
  interp w' = interp_reset (interp w) /\
  interp w' = interp (snd (reset w)) /\
  events w' = events w /\
  streams w' = streams w /\
  match _input (lexer w) with
  | Some r => streams (snd (reset w)) r = cs_seek 0 (streams w r)
  | None => streams (snd (reset w)) = streams w
  end /\
  match input with
  | Some r =>
      startToken (marked r w') =
        (Normal tt, snd (startToken (marked r w'))) /\
      _tokenStartCharIndex (lexer (snd (startToken (marked r w')))) =
        cs_index (snd (cs_mark (streams w r)))
  | None =>
      forall fuel,
        fst (nextToken fuel w') =
          Raise (ThrowString "nextToken requires a non-null input stream.")
  end.
Proof.
  intros w'.
  assert (Hset : set_inputStream input w =
    (Normal tt,
     mkWorld
       (mkLexer input (tt, input) None (-1) (-1) (-1) false
                Token_DEFAULT_CHANNEL Token_INVALID_TYPE [] DEFAULT_MODE None)
       (streams w) (interp_reset (interp w)) (events w))).
  { unfold set_inputStream, bind at 1, assign at 1. cbv beta iota.
    unfold bind at 1, gets at 1. cbv beta iota.
    unfold bind at 1, assign at 1. cbv beta iota.
    unfold bind at 1. rewrite reset_eq. cbn. reflexivity. }
  subst w'. rewrite Hset, reset_eq. cbn [fst snd lexer interp events streams].
  repeat split.
  - destruct (_input (lexer w)) as [r|]; [|reflexivity].
    apply update_stream_same.
  - destruct input as [r|].
    + match goal with |- context [startToken ?x] => set (wm := x) end.
      assert (Hin : _input (lexer wm) = Some r) by reflexivity.
      rewrite (startToken_eq wm r Hin). cbn [snd fst lexer]. split.
      * reflexivity.
      * unfold wm, marked. cbn [_tokenStartCharIndex set_text
          set_tokenStartLine set_tokenStartColumn set_tokenStartCharIndex].
        rewrite update_stream_same. reflexivity.
    + intros fuel. rewrite nextToken_eq. reflexivity.
Qed.

End InputStream.

(** ** Bulk extraction *)

Section Bulk.
Context {Stm Itp : Type} {TC : TokenConstants}
        {CS : CharStream Stm} {IN : Interpreter Stm Itp}.
Local Abbreviation World := (World Stm Itp).

Lemma getAllTokens_while_S (fuel : nat) (acc : list Token) (t : Token)
    (w : World) :
  getAllTokens_while (S fuel) acc (Some t) w =
  if (tok_type t =? Token_EOF)%Z then (Normal acc, w)
  else
    match nextToken fuel w with
    | (Normal t', w1) => getAllTokens_while fuel (acc ++ [t]) t' w1
    | (Raise e, w1) => (Raise e, w1)
    | (OutOfFuel, w1) => (OutOfFuel, w1)
    end.
Proof.
  cbn [getAllTokens_while].
  destruct (tok_type t =? Token_EOF)%Z; cbn [negb]; [reflexivity|].
  unfold bind. destruct (nextToken fuel w) as [[t'|e|] w1]; reflexivity.
Qed.

Lemma getAllTokens_while_fuel (f : nat) :
  forall acc t (w : World) r w',
    getAllTokens_while f acc t w = (r, w') -> r <> OutOfFuel ->
    forall f', (f <= f')%nat -> getAllTokens_while f' acc t w = (r, w').
Proof.
  induction f as [|f IH]; intros acc t w r w' H Hr f' Hle.
  - cbn in H. unfold out_of_fuel in H. inversion H; subst. congruence.
  - destruct f' as [|f']; [lia|].
    destruct t as [t|]; [|exact H].
    rewrite getAllTokens_while_S in H |- *.
    destruct (tok_type t =? Token_EOF)%Z; [exact H|].
    destruct (nextToken f w) as [rn wn] eqn:Hn.
    assert (Hrn : rn <> OutOfFuel).
    { intro; subst rn. inversion H; subst. congruence. }
    rewrite (nextToken_fuel f w rn wn Hn Hrn f') by lia.
    destruct rn as [t'|e|]; try exact H.
    apply (IH _ _ _ _ _ H Hr). lia.
Qed.

(** The tokens gathered by the [while] loop once [t] has been read. *)
Lemma getAllTokens_while_sound (f : nat) :
  forall acc t (w : World) ts w',
    getAllTokens_while f acc (Some t) w = (Normal ts, w') ->
    exists rest,
      ts = acc ++ rest /\
      Forall (fun t' => tok_type t' <> Token_EOF) rest /\
      ((tok_type t = Token_EOF /\ rest = [] /\ w' = w) \/
       (tok_type t <> Token_EOF /\
        exists rest', rest = t :: rest' /\ CollectedUntilEOF w rest' w')).
Proof.
  induction f as [|f IH]; intros acc t w ts w' H; [discriminate|].
  rewrite getAllTokens_while_S in H.
  destruct (Z.eqb_spec (tok_type t) Token_EOF) as [Heof|Hne].
  - inversion H; subst. exists []. rewrite app_nil_r.
    split; [reflexivity|]. split; [constructor|]. left. auto.
  - destruct (nextToken f w) as [[[t1|]|e|] w1] eqn:Hn; try discriminate.
    + destruct (IH _ _ _ _ _ H) as (rest & Hts & Hall & Hcase).
      exists (t :: rest). split; [|split].
      * rewrite Hts, <- app_assoc. reflexivity.
      * constructor; assumption.
      * right. split; [exact Hne|]. exists rest. split; [reflexivity|].
        destruct Hcase as [(Ht1 & Hrest & Hw)|(Ht1 & rest' & Hrest & Hc)].
        -- subst. eapply collected_eof; eauto.
        -- subst. eapply collected_token; eauto.
    + destruct f; discriminate.
Qed.

Lemma getAllTokens_sound (f : nat) (w : World) ts w' :
  getAllTokens f w = (Normal ts, w') ->
  CollectedUntilEOF w ts w' /\
  Forall (fun t => tok_type t <> Token_EOF) ts.
Proof.
  unfold getAllTokens, bind.
  destruct (nextToken f w) as [[[t|]|e|] w1] eqn:Hn; try discriminate.
  - intros H.
    destruct (getAllTokens_while_sound f _ _ _ _ _ H)
      as (rest & Hts & Hall & Hcase).
    cbn [app] in Hts. subst ts. split; [|exact Hall].
    destruct Hcase as [(Ht1 & Hrest & Hw)|(Ht1 & rest' & Hrest & Hc)].
    + subst. eapply collected_eof; eauto.
    + subst. eapply collected_token; eauto.
  - destruct f; discriminate.
Qed.

Lemma getAllTokens_while_complete (w : World) ts w' :
  CollectedUntilEOF w ts w' ->
  forall acc t, tok_type t <> Token_EOF ->
    exists f, getAllTokens_while f acc (Some t) w =
                (Normal ((acc ++ [t]) ++ ts), w').
Proof.
  induction 1 as [w w' t0 [f0 Hn] Heof|w w1 w' t0 ts [f0 Hn] Hne _ IH];
    intros acc t Ht.
  - exists (S (S f0)). rewrite getAllTokens_while_S.
    destruct (Z.eqb_spec (tok_type t) Token_EOF) as [|_]; [contradiction|].
    rewrite (nextToken_fuel f0 w _ _ Hn) by (discriminate || lia).
    rewrite getAllTokens_while_S, Heof, Z.eqb_refl, app_nil_r. reflexivity.
  - destruct (IH (acc ++ [t]) t0 Hne) as [f1 Hf1].
    exists (S (Nat.max f0 f1)). rewrite getAllTokens_while_S.
    destruct (Z.eqb_spec (tok_type t) Token_EOF) as [|_]; [contradiction|].
    rewrite (nextToken_fuel f0 w _ _ Hn) by (discriminate || lia).
    rewrite (getAllTokens_while_fuel f1 _ _ _ _ _ Hf1)
      by (discriminate || lia).
    rewrite <- !app_assoc. reflexivity.
Qed.

Lemma getAllTokens_complete (w : World) ts w' :
  CollectedUntilEOF w ts w' ->
  exists f, getAllTokens f w = (Normal ts, w').
Proof.
  intros Hc. inversion Hc as [w0 w0' t0 [f0 Hn] Heof|
                             w0 w1 w0' t0 ts0 [f0 Hn] Hne Hrest]; subst.
  - exists (S f0). unfold getAllTokens, bind.
    rewrite (nextToken_fuel f0 w _ _ Hn) by (discriminate || lia).
    rewrite getAllTokens_while_S, Heof, Z.eqb_refl. reflexivity.
  - destruct (getAllTokens_while_complete w1 ts0 w' Hrest [] t0 Hne)
      as [f1 Hf1].
    exists (Nat.max f0 f1). unfold getAllTokens, bind.
    rewrite (nextToken_fuel f0 w _ _ Hn) by (discriminate || lia).
    rewrite (getAllTokens_while_fuel f1 _ _ _ _ _ Hf1)
      by (discriminate || lia).
    reflexivity.
Qed.

(** ** Termination under progress *)

Section Termination.
Variable size : Stm -> nat.
Hypothesis progress : makes_progress size.

Ltac frame_step :=
  first
    [ apply preserves_gets | apply preserves_ret | apply preserves_throw
    | apply preserves_bind; [|intro]
    | apply preserves_with_input; intro
    | match goal with
      | |- preserves _ (match ?x with _ => _ end) => destruct x
      end
    | (intros ?; reflexivity) ].

Lemma startToken_keeps_potential :
  preserves (@progress_state Stm Itp size) startToken.
Proof. unfold startToken, input_index, column, line. repeat frame_step. Qed.

Lemma finishToken_keeps_potential :
  preserves (@progress_state Stm Itp size) finishToken.
Proof.
  unfold finishToken, emit, getCharIndex, input_index, factory_create,
    emitToken.
  repeat frame_step.
Qed.

Lemma startToken_returns (w : World) : fst (startToken w) <> OutOfFuel.
Proof.
  destruct (_input (lexer w)) as [r|] eqn:Hin.
  - rewrite (startToken_eq w r Hin). discriminate.
  - unfold startToken, input_index, with_input, bind, gets, assign, throw.
    cbv beta iota. cbn [lexer set_token set_channel _input].
    rewrite Hin. discriminate.
Qed.

Lemma finishToken_returns (w : World) : fst (finishToken w) <> OutOfFuel.
Proof.
  destruct (_token (lexer w)) as [t|] eqn:Htok.
  - rewrite (finishToken_custom w t Htok). discriminate.
  - destruct (_input (lexer w)) as [r|] eqn:Hin.
    + rewrite (finishToken_default w r Htok Hin). discriminate.
    + unfold finishToken, emit, getCharIndex, input_index, with_input,
        bind, gets, throw.
      cbv beta iota. rewrite Htok. cbv beta iota. rewrite Hin.
      discriminate.
Qed.

Lemma resolveType_detached (ttype : Z) (w : World) :
  _input (lexer w) = None ->
  resolveType ttype w = (Raise (ThrowObject TypeError 0), w).
Proof.
  intros Hin. unfold resolveType, input_LA, with_input, bind, gets, throw.
  cbv beta iota. rewrite Hin. reflexivity.
Qed.

(** [recover], when it returns, has consumed nothing at the end of input
    and has shrunk what is left anywhere else. *)
Lemma recover_progress (e : Thrown) (w w2 : World) (r : Ref) :
  _input (lexer w) = Some r ->
  recover e w = (Normal tt, w2) ->
  lexer w2 = lexer w /\
  ((cs_LA 1 (streams w r) = Token_EOF /\ streams w2 = streams w) \/
   (size (streams w2 r) < size (streams w r))%nat).
Proof.
  intros Hin H. destruct progress as (_ & Hcons & _).
  destruct (Z.eq_dec (cs_LA 1 (streams w r)) Token_EOF) as [Heof|Hne].
  - rewrite (recover_at_EOF e w r Hin Heof) in H. inversion H; subst w2.
    split; [reflexivity|]. left. split; [exact Heof|reflexivity].
  - destruct (Hcons _ Hne) as (Hc1 & Hc2).
    destruct (instanceof e LexerNoViableAltException) eqn:Hnv.
    + rewrite (recover_no_viable_alt e w r Hin Hne Hnv) in H.
      unfold interp_consume_input in H. rewrite Hin in H.
      destruct (interp_consume (streams w r) (interp w)) as [e'|[s' i']]
        eqn:Hc; [discriminate|].
      inversion H; subst w2. cbn [lexer streams update_stream].
      split; [reflexivity|]. right.
      rewrite Nat.eqb_refl. apply (Hc2 _ _ _ Hc).
    + rewrite (recover_other e w r Hin Hne Hnv) in H.
      unfold input_consume, with_input, bind, gets in H.
      cbv beta iota in H. rewrite Hin in H.
      destruct (cs_consume (streams w r)) as [e'|s'] eqn:Hc; [discriminate|].
      inversion H; subst w2. cbn [lexer streams update_stream].
      split; [reflexivity|]. right.
      rewrite Nat.eqb_refl. apply Hc1. reflexivity.
Qed.

(** The [catch] block, when it lets the round go on, has answered "skip",
    left the driver's fields alone, and consumed nothing at the end of
    input or shrunk what is left. *)
Lemma onMatchFailure_progress (e : Thrown) (w1 w2 : World) (t : Z) :
  instanceof e RecognitionException = true ->
  onMatchFailure e w1 = (Normal t, w2) ->
  t = SKIP /\ lexer w2 = lexer w1 /\
  exists r, _input (lexer w1) = Some r /\
    ((cs_LA 1 (streams w1 r) = Token_EOF /\ streams w2 = streams w1) \/
     (size (streams w2 r) < size (streams w1 r))%nat).
Proof.
  intros Hrec H. unfold onMatchFailure in H. rewrite Hrec in H.
  destruct (_input (lexer w1)) as [r|] eqn:Hin.
  2:{ unfold notifyListeners, input_index, with_input, bind, gets, throw in H.
      cbv beta iota in H. rewrite Hin in H. discriminate. }
  unfold bind at 1 in H. rewrite (notifyListeners_eq e w1 r Hin) in H.
  cbv beta iota in H. unfold bind at 1 in H.
  match type of H with context [recover e ?x] => set (wn := x) in H end.
  assert (Hinn : _input (lexer wn) = Some r) by exact Hin.
  destruct (recover e wn) as [[[]|e'|] w3] eqn:Hr; try discriminate.
  unfold ret in H. inversion H; subst t w3. clear H.
  destruct (recover_progress e wn w2 r Hinn Hr) as (Hl & Hcase).
  split; [reflexivity|]. split; [exact Hl|]. exists r.
  split; [reflexivity|exact Hcase].
Qed.

(** One round of the inner loop, when it completes: what is left of the
    input has shrunk, or it has not grown and the round leaves the end of
    input latched with a type other than "more". *)
Lemma matchRound_progress (w w' : World) :
  matchRound w = (Normal tt, w') ->
  (remaining size w' < remaining size w)%nat \/
  ((remaining size w' <= remaining size w)%nat /\
   _hitEOF (lexer w') = true /\ _type (lexer w') <> MORE).
Proof.
  destruct progress as (_ & _ & _ & Hnorm & Hraise).
  intros H. rewrite matchRound_eq in H. cbv zeta in H.
  set (w0 := snd (assign (set_type Token_INVALID_TYPE) w)) in H.
  assert (Hty0 : _type (lexer w0) = Token_INVALID_TYPE) by reflexivity.
  assert (Hrem0 : remaining size w0 = remaining size w) by reflexivity.
  change (_input (lexer w)) with (_input (lexer w0)) in H.
  change (_mode (lexer w)) with (_mode (lexer w0)) in H.
  destruct (interp_match (_input (lexer w0)) (_mode (lexer w0)) w0)
    as [[t|e|] w1] eqn:Hm; [| |discriminate].
  - specialize (Hnorm w0 t w1 Hty0 Hm). rewrite Hrem0 in Hnorm.
    destruct (_input (lexer w1)) as [r1|] eqn:Hin1.
    2:{ rewrite (resolveType_detached t w1 Hin1) in H. discriminate. }
    destruct (resolveType_spec t w1 r1 Hin1) as (w2 & Hr & Hs & _ & _ & Hl).
    rewrite Hr in H. inversion H; subst w2. clear H.
    assert (Hrem : remaining size w' = remaining size w1).
    { unfold remaining. rewrite Hl, Hs. reflexivity. }
    rewrite Hrem.
    destruct Hnorm as [Hlt|(Hle & (r & Hr1 & Hla) & Hres)];
      [left; exact Hlt|].
    right. split; [exact Hle|]. rewrite Hl.
    rewrite Hin1 in Hr1. inversion Hr1; subst r.
    cbn [_hitEOF _type set_type set_hitEOF].
    rewrite Hla, Z.eqb_refl, orb_true_r. split; [reflexivity|exact Hres].
  - destruct (instanceof e RecognitionException) eqn:Hrec.
    2:{ unfold onMatchFailure in H. rewrite Hrec in H.
        unfold bind at 1, read_stack in H.
        destruct (nullish e); discriminate. }
    destruct (Hraise w0 e w1 Hty0 Hm Hrec) as (Hle & Hend).
    rewrite Hrem0 in Hle.
    destruct (onMatchFailure e w1) as [[t|e'|] w2] eqn:Hf;
      [|discriminate|discriminate].
    destruct (onMatchFailure_progress e w1 w2 t Hrec Hf)
      as (-> & Hl2 & r & Hin1 & Hcase).
    assert (Hin2 : _input (lexer w2) = Some r) by (rewrite Hl2; exact Hin1).
    destruct (resolveType_spec SKIP w2 r Hin2)
      as (w3 & Hr & Hs & _ & _ & Hl).
    rewrite Hr in H. inversion H; subst w3. clear H.
    assert (Hrem : remaining size w' = size (streams w2 r)).
    { unfold remaining. rewrite Hl, Hs. cbn [_input set_type set_hitEOF].
      rewrite Hin2. reflexivity. }
    assert (Hrem1 : remaining size w1 = size (streams w1 r)).
    { unfold remaining. rewrite Hin1. reflexivity. }
    rewrite Hrem.
    destruct Hcase as [(Hla & Hst)|Hlt]; [|left; lia].
    right. rewrite Hst. split; [lia|]. rewrite Hl, Hl2.
    cbn [_hitEOF _type set_type set_hitEOF].
    rewrite Hst, Hla, Z.eqb_refl, orb_true_r. split; [reflexivity|].
    assert (Hmo : _type (lexer w1) <> MORE) by (apply Hend; exists r; auto).
    destruct (_type (lexer w1) =? Token_INVALID_TYPE)%Z;
      [discriminate|exact Hmo].
Qed.

Lemma innerLoop_terminates (n : nat) :
  forall w : World, (remaining size w <= n)%nat ->
    exists f r w',
      innerLoop f w = (r, w') /\ r <> OutOfFuel /\
      (forall b, r = Normal b ->
         (remaining size w' <= remaining size w)%nat /\
         ((remaining size w' < remaining size w)%nat \/
          _hitEOF (lexer w') = true)).
Proof.
  destruct progress as (_ & _ & Hret & _).
  pose proof matchRound_progress as Hround.
  induction n as [|n IH]; intros w Hle.
  all: destruct (matchRound w) as [r1 w1] eqn:Hr;
    pose proof (returns_matchRound Hret w) as Hne; rewrite Hr in Hne;
    cbn [fst] in Hne;
    destruct r1 as [[]|e|]; [|exists 1%nat, (Raise e), w1;
      rewrite innerLoop_S, Hr; repeat split; discriminate|congruence].
  all: pose proof (Hround w w1 Hr) as Hp.
  all: destruct (Z.eqb_spec (_type (lexer w1)) SKIP) as [Hsk|Hsk].
  all: try (exists 1%nat, (Normal true), w1; rewrite innerLoop_S, Hr;
            destruct (Z.eqb_spec (_type (lexer w1)) SKIP);
            [|contradiction];
            repeat split; [discriminate|lia|];
            destruct Hp as [Hp|(Hp1 & Hp2 & _)]; auto).
  all: destruct (Z.eqb_spec (_type (lexer w1)) MORE) as [Hmo|Hmo].
  all: try (exists 1%nat, (Normal false), w1; rewrite innerLoop_S, Hr;
            destruct (Z.eqb_spec (_type (lexer w1)) SKIP);
            [contradiction|];
            destruct (Z.eqb_spec (_type (lexer w1)) MORE);
            [contradiction|];
            repeat split; [discriminate|lia|];
            destruct Hp as [Hp|(Hp1 & Hp2 & _)]; auto).
  - destruct Hp as [Hp|(_ & _ & Hp)]; [lia|contradiction].
  - destruct Hp as [Hp|(_ & _ & Hp)]; [|contradiction].
    destruct (IH w1) as (f & r & w' & Hf & Hrne & Hpost); [lia|].
    exists (S f), r, w'. rewrite innerLoop_S, Hr.
    destruct (Z.eqb_spec (_type (lexer w1)) SKIP); [contradiction|].
    destruct (Z.eqb_spec (_type (lexer w1)) MORE); [|contradiction].
    cbn [negb]. repeat split; auto.
    + destruct (Hpost b H); lia.
    + left. destruct (Hpost b H); lia.
Qed.

Lemma remaining_update_stream (w : World) (r : Ref) (s : Stm) :
  _input (lexer w) = Some r ->
  remaining size (update_stream r s w) = size s.
Proof.
  intros Hin. unfold remaining.
  change (lexer (update_stream r s w)) with (lexer w).
  rewrite Hin, update_stream_same. reflexivity.
Qed.

Lemma emitEOF_returns (w : World) :
  (exists r, _input (lexer w) = Some r /\
     (emitEOF ;; gets _token) w =
       (Normal (Some (eofToken r w)), emitted (eofToken r w) w)) \/
  (exists e, (emitEOF ;; gets _token) w = (Raise e, w)).
Proof.
  destruct (_input (lexer w)) as [r|] eqn:Hin.
  - left. exists r. split; [reflexivity|]. apply emitEOF_eq, Hin.
  - right. eexists.
    unfold emitEOF, column, line, input_index, with_input, bind, gets, throw.
    cbv beta iota. rewrite Hin. reflexivity.
Qed.

Lemma outerLoop_terminates (n : nat) :
  forall w : World, (potential size w <= n)%nat ->
    exists f r w',
      outerLoop f w = (r, w') /\ r <> OutOfFuel /\
      (forall tk, r = Normal tk ->
         if _hitEOF (lexer w)
         then progress_state size w' = progress_state size w /\
              exists t, tk = Some t /\ tok_type t = Token_EOF
         else (potential size w' < potential size w)%nat).
Proof.
  induction n as [|n IH]; intros w Hle.
  all: destruct (_hitEOF (lexer w)) eqn:Hhit.
  1,3: exists 1%nat; rewrite outerLoop_S, Hhit;
    destruct (emitEOF_returns w) as [(r & Hin & He)|(e & He)]; rewrite He;
    do 2 eexists; (split; [reflexivity|]); (split; [discriminate|]);
    intros tk Htk; [|discriminate];
    inversion Htk; subst; split; [reflexivity|eauto].
  - unfold potential in Hle. rewrite Hhit in Hle. lia.
  - destruct (startToken w) as [rs ws] eqn:Hs.
    pose proof (startToken_returns w) as Hsr. rewrite Hs in Hsr.
    pose proof (startToken_keeps_potential w) as Hsp. rewrite Hs in Hsp.
    cbn [fst snd] in *.
    destruct rs as [[]|e|]; [| |congruence].
    2:{ exists 1%nat, (Raise e), ws. rewrite outerLoop_S, Hhit, Hs.
        repeat split; discriminate. }
    unfold progress_state in Hsp. inversion Hsp as [[Hrem Hh]].
    destruct (innerLoop_terminates (remaining size ws) ws (le_n _))
      as (f & ri & w1 & Hi & Hri & Hpost).
    destruct ri as [[|]|e|]; [| | |congruence].
    + destruct (Hpost true eq_refl) as (Hle1 & Hdec).
      assert (Hpot : (potential size w1 < potential size w)%nat).
      { unfold potential. rewrite Hhit.
        destruct Hdec as [Hd|Hd]; [destruct (_hitEOF (lexer w1)); lia|].
        rewrite Hd. lia. }
      destruct (IH w1) as (f2 & r2 & w' & Ho & Hr2 & Hpost2); [lia|].
      exists (S (Nat.max f f2)), r2, w'.
      rewrite outerLoop_S, Hhit, Hs.
      rewrite (innerLoop_fuel f ws _ _ Hi) by (discriminate || lia).
      cbn [afterInner].
      rewrite (outerLoop_fuel f2 w1 _ _ Ho Hr2) by lia.
      repeat split; [exact Hr2|]. intros tk Htk.
      specialize (Hpost2 tk Htk).
      destruct (_hitEOF (lexer w1)) eqn:Hh1; [|lia].
      destruct Hpost2 as (Hps & _). unfold progress_state in Hps.
      inversion Hps as [[Hr' Hh']].
      unfold potential in Hpot |- *. rewrite Hhit, Hh1 in Hpot.
      rewrite Hhit, Hh', Hr', Hh1. lia.
    + destruct (Hpost false eq_refl) as (Hle1 & Hdec).
      destruct (finishToken w1) as [rf w'] eqn:Hf.
      pose proof (finishToken_returns w1) as Hfr. rewrite Hf in Hfr.
      pose proof (finishToken_keeps_potential w1) as Hfp. rewrite Hf in Hfp.
      cbn [fst snd] in *. unfold progress_state in Hfp.
      inversion Hfp as [[Hr' Hh']].
      exists (S f), rf, w'. rewrite outerLoop_S, Hhit, Hs, Hi.
      cbn [afterInner]. split; [exact Hf|]. split; [exact Hfr|]. intros tk _.
      unfold potential. rewrite Hhit, Hr', Hh'.
      destruct Hdec as [Hd|Hd]; [destruct (_hitEOF (lexer w1)); lia|].
      rewrite Hd. lia.
    + exists (S f), (Raise e), w1. rewrite outerLoop_S, Hhit, Hs, Hi.
      repeat split; discriminate.
Qed.

Lemma nextToken_terminates (w : World) :
  exists f r w',
    nextToken f w = (r, w') /\ r <> OutOfFuel /\
    (forall tk, r = Normal tk ->
       if _hitEOF (lexer w)
       then exists t, tk = Some t /\ tok_type t = Token_EOF
       else (potential size w' < potential size w)%nat).
Proof.
  destruct progress as (Hmark & _).
  destruct (_input (lexer w)) as [r|] eqn:Hin.
  2:{ exists 0%nat. rewrite nextToken_eq, Hin. do 2 eexists.
      repeat split; discriminate. }
  assert (Hrem : (remaining size (marked r w) <= remaining size w)%nat).
  { assert (Hw : remaining size w = size (streams w r))
      by (unfold remaining; rewrite Hin; reflexivity).
    unfold marked. rewrite Hw, (remaining_update_stream w r _ Hin).
    apply (Hmark (streams w r)). }
  assert (Hpot : (potential size (marked r w) <= potential size w)%nat).
  { unfold potential.
    change (_hitEOF (lexer (marked r w))) with (_hitEOF (lexer w)). lia. }
  destruct (outerLoop_terminates _ (marked r w) (le_n _))
    as (f & ro & w1 & Ho & Hro & Hpost).
  change (_hitEOF (lexer (marked r w))) with (_hitEOF (lexer w)) in Hpost.
  destruct (_input (lexer w1)) as [r1|] eqn:Hin1.
  - exists f, ro, (released r1 (fst (cs_mark (streams w r))) w1).
    split; [apply (nextToken_of_outerLoop f w w1 r r1); assumption|].
    split; [exact Hro|]. intros tk Htk. specialize (Hpost tk Htk).
    destruct (_hitEOF (lexer w)); [apply Hpost|].
    assert (Hrel : (potential size
                      (released r1 (fst (cs_mark (streams w r))) w1) <=
                    potential size w1)%nat).
    { assert (Hw1 : remaining size w1 = size (streams w1 r1))
        by (unfold remaining; rewrite Hin1; reflexivity).
      unfold potential, released.
      change (_hitEOF (lexer (update_stream r1
                (cs_release (fst (cs_mark (streams w r))) (streams w1 r1))
                w1))) with (_hitEOF (lexer w1)).
      rewrite (remaining_update_stream w1 r1 _ Hin1), Hw1.
      destruct (Hmark (streams w1 r1)) as [_ H2].
      specialize (H2 (fst (cs_mark (streams w r)))). lia. }
    lia.
  - exists f. rewrite nextToken_eq, Hin. unfold marked in Ho.
    destruct (cs_mark (streams w r)) as [m s]. cbn [snd] in Ho.
    unfold try_finally. rewrite Ho.
    unfold input_release, with_input, bind, gets, throw. cbv beta iota.
    rewrite Hin1.
    destruct ro as [tk|e|]; [| |congruence];
      do 2 eexists; repeat split; discriminate.
Qed.

Lemma getAllTokens_while_terminates (n : nat) :
  forall acc t (w : World), (potential size w <= n)%nat ->
    exists f r w',
      getAllTokens_while f acc t w = (r, w') /\ r <> OutOfFuel.
Proof.
  induction n as [|n IH]; intros acc t w Hle.
  all: destruct t as [t|];
    [|exists 1%nat; do 2 eexists; split; [reflexivity|discriminate]].
  all: destruct (Z.eqb_spec (tok_type t) Token_EOF) as [Heof|Hne];
    [exists 1%nat; rewrite getAllTokens_while_S, Heof, Z.eqb_refl;
     do 2 eexists; split; [reflexivity|discriminate]|].
  all: destruct (nextToken_terminates w) as (f1 & r1 & w1 & Hn & Hr1 & Hpost).
  all: destruct r1 as [tk|e|]; [| |congruence];
    [|exists (S f1); rewrite getAllTokens_while_S;
      destruct (Z.eqb_spec (tok_type t) Token_EOF); [contradiction|];
      rewrite Hn; do 2 eexists; split; [reflexivity|discriminate]].
  all: specialize (Hpost tk eq_refl).
  all: destruct (_hitEOF (lexer w)) eqn:Hhit.
  1,3: destruct Hpost as (t1 & -> & Ht1); exists (S (S f1));
    rewrite getAllTokens_while_S;
    destruct (Z.eqb_spec (tok_type t) Token_EOF); [contradiction|];
    rewrite (nextToken_fuel f1 w _ _ Hn) by (discriminate || lia);
    rewrite getAllTokens_while_S, Ht1, Z.eqb_refl;
    do 2 eexists; split; [reflexivity|discriminate].
  - lia.
  - destruct (IH (acc ++ [t]) tk w1) as (f2 & r2 & w' & Hw & Hr2); [lia|].
    exists (S (Nat.max f1 f2)), r2, w'. rewrite getAllTokens_while_S.
    destruct (Z.eqb_spec (tok_type t) Token_EOF); [contradiction|].
    rewrite (nextToken_fuel f1 w _ _ Hn) by (discriminate || lia).
    split; [|exact Hr2].
    apply (getAllTokens_while_fuel f2 _ _ _ _ _ Hw Hr2). lia.
Qed.

Lemma getAllTokens_terminates (w : World) :
  exists f r w', getAllTokens f w = (r, w') /\ r <> OutOfFuel.
Proof.
  destruct (nextToken_terminates w) as (f1 & r1 & w1 & Hn & Hr1 & _).
  destruct r1 as [tk|e|]; [| |congruence].
  - destruct (getAllTokens_while_terminates _ [] tk w1 (le_n _))
      as (f2 & r2 & w' & Hw & Hr2).
    exists (Nat.max f1 f2), r2, w'. unfold getAllTokens, bind.
    rewrite (nextToken_fuel f1 w _ _ Hn) by (discriminate || lia).
    split; [|exact Hr2].
    apply (getAllTokens_while_fuel f2 _ _ _ _ _ Hw Hr2). lia.
  - exists f1. unfold getAllTokens, bind. rewrite Hn.
    do 2 eexists; split; [reflexivity|discriminate].
Qed.

End Termination.

(** C9 (amended).  Over collaborators that make progress, for a measure
    of what is left of a stream: marking and releasing do not grow it, and
    away from the end of input both ways of consuming, when they succeed,
    shrink it (the stream is finite); the interpreter's [match] always
    returns; called by the driver, a [match] that returns normally has
    shrunk what is left, or has not grown it and leaves the stream at the
    end of input with a round type other than "more"; and a [match] that
    raises a recognition failure has not grown what is left and, at the
    end of input, has not left the type "more" behind.  Then
    [getAllTokens()] completes in every world; that recovery consumes a
    character is not assumed but follows from the driver's [recover].
    Whenever it returns, with or without that assumption, the sequence it
    returns is exactly the tokens of the repeated [nextToken()] calls up to
    and excluding the first end-of-input token, so no token in it has the
    end-of-input type; and every such collection is what [getAllTokens()]
    returns. *)
Theorem getAllTokens_collects_until_EOF (size : Stm -> nat) :
  makes_progress size ->
  (forall w : World,
      exists fuel res w', getAllTokens fuel w = (res, w') /\ res <> OutOfFuel) /\
  (forall fuel (w : World) ts w',
      getAllTokens fuel w = (Normal ts, w') ->
      CollectedUntilEOF w ts w' /\
      Forall (fun t => tok_type t <> Token_EOF) ts) /\
  (forall (w : World) ts w',
      CollectedUntilEOF w ts w' ->
      exists fuel, getAllTokens fuel w = (Normal ts, w')).
Proof.
  intros Hp. split; [|split].
  - intros w. apply (getAllTokens_terminates size Hp w).
  - intros fuel w ts w'. apply getAllTokens_sound.
  - intros w ts w'. apply getAllTokens_complete.
Qed.

End Bulk.

(** * The sample instance meets the contracts *)

Module SampleFacts.
Import Sample.
Local Abbreviation W := (World ListStream Position).

Lemma run_eq {A : Type} (m : M ListStream Position A) (w : W) (a : Res A) :
  fst (m w) = a -> m w = (a, snd (m w)).
Proof. intros <-. apply surjective_pairing. Qed.

Lemma ls_LA_in_range (s : ListStream) :
  ls_LA 1 s <> -1 -> (pos s < List.length (chars s))%nat.
Proof.
  unfold ls_LA. cbn. rewrite Nat.add_0_r. intros H.
  destruct (Nat.lt_ge_cases (pos s) (List.length (chars s))) as [Hlt|Hge];
    [exact Hlt|].
  rewrite nth_overflow in H by exact Hge. contradiction.
Qed.

Lemma ls_consume_in_range (s : ListStream) :
  (pos s < List.length (chars s))%nat ->
  ls_consume s = inr (mkListStream (chars s) (S (pos s)) (open_marks s)).
Proof.
  intros Hlt. unfold ls_consume.
  destruct (Nat.ltb_spec (pos s) (List.length (chars s))); [reflexivity|lia].
Qed.

Lemma sample_marks_keep_index : marks_keep_index (Stm:=ListStream).
Proof. intros s. split; reflexivity. Qed.

Lemma sample_consume_advances :
  consume_advances (Stm:=ListStream) (Itp:=Position).
Proof.
  intros s Hla. pose proof (ls_LA_in_range s Hla) as Hlt.
  cbn [cs_consume list_stream interp_consume sample_interpreter].
  unfold pos_consume. rewrite (ls_consume_in_range s Hlt). split.
  - eexists. split; [reflexivity|]. cbn. lia.
  - intros i. do 2 eexists. split; [reflexivity|]. cbn. lia.
Qed.

Ltac sample_match_cases :=
  repeat match goal with
         | |- context [if ?b then _ else _] => destruct b
         | |- context [match ?x with _ => _ end] => destruct x
         end.

Lemma sample_match_keeps_start :
  match_keeps_start (Stm:=ListStream) (Itp:=Position).
Proof.
  intros inp m w. cbn [interp_match sample_interpreter].
  unfold sample_match. destruct inp as [r|]; [|reflexivity].
  cbv zeta. sample_match_cases; reflexivity.
Qed.

Lemma sample_match_keeps_input :
  match_keeps_input (Stm:=ListStream) (Itp:=Position).
Proof.
  intros inp m w. cbn [interp_match sample_interpreter].
  unfold sample_match. destruct inp as [r|]; [|reflexivity].
  cbv zeta. sample_match_cases; reflexivity.
Qed.

Lemma sample_match_keeps_created :
  match_keeps_created (Stm:=ListStream) (Itp:=Position).
Proof.
  intros inp m w. cbn [interp_match sample_interpreter].
  unfold sample_match. destruct inp as [r|]; [|reflexivity].
  cbv zeta. sample_match_cases; reflexivity.
Qed.

(** ** The theorems at work on the sample runs *)

Import SampleRuns.

Lemma space_a_first_attempt : Attempt space_a_marked space_a_skipped.
Proof.
  split; [vm_compute; reflexivity|]. exists space_a_started, space_a_started.
  split; [unfold space_a_started, after; apply run_eq;
          vm_compute; reflexivity|].
  split; [apply more_none|].
  split; [unfold space_a_skipped, after; apply run_eq;
          vm_compute; reflexivity|].
  vm_compute. discriminate.
Defined.

Lemma space_a_second_attempt : Attempt space_a_skipped space_a_resolved.
Proof.
  split; [vm_compute; reflexivity|]. exists space_a_restarted, space_a_restarted.
  split; [unfold space_a_restarted, after; apply run_eq;
          vm_compute; reflexivity|].
  split; [apply more_none|].
  split; [unfold space_a_resolved, after; apply run_eq;
          vm_compute; reflexivity|].
  vm_compute. discriminate.
Defined.

Lemma nextToken_default_emission_witness :
  exists fuel w',
    nextToken fuel space_a =
      (Normal (Some (mkToken (tt, Some O) IDENT None 0 1 1 1 1)), w') /\
    _token (lexer w') = Some (mkToken (tt, Some O) IDENT None 0 1 1 1 1) /\
    events w' =
      EvCreate (mkToken (tt, Some O) IDENT None 0 1 1 1 1)
      :: events space_a_resolved /\
    w' = released O (fst (cs_mark (streams space_a O)))
                  (emitted (mkToken (tt, Some O) IDENT None 0 1 1 1 1)
                           space_a_resolved).
Proof.
  assert (Ht :
    mkToken (_tokenFactorySourcePair (lexer space_a_resolved))
            (_type (lexer space_a_resolved)) (_text (lexer space_a_resolved))
            (_channel (lexer space_a_resolved))
            (cs_index (streams space_a_skipped O))
            (cs_index (streams space_a_resolved O) - 1)
            (interp_line (interp space_a_skipped))
            (interp_column (interp space_a_skipped)) =
    mkToken (tt, Some O) IDENT None 0 1 1 1 1) by (vm_compute; reflexivity).
  rewrite <- Ht.
  apply (nextToken_default_emission space_a space_a_skipped space_a_resolved
           O O O sample_match_keeps_start).
  - reflexivity.
  - eapply skipped_step;
      [apply space_a_first_attempt|vm_compute; reflexivity|apply skipped_none].
  - apply space_a_second_attempt.
  - vm_compute. discriminate.
  - vm_compute. reflexivity.
  - vm_compute. reflexivity.
  - vm_compute. reflexivity.
Defined.

Lemma skip_restarts_after_skipped_span_witness :
  Attempt space_a_marked space_a_skipped /\
  _type (lexer space_a_skipped) = SKIP /\
  created space_a_skipped = created space_a_marked /\
  exists f t w',
    outerLoop f space_a_marked = (Normal (Some t), w') /\
    tok_start t = cs_index (streams space_a_skipped O) /\
    tok_stop t = cs_index (streams space_a_resolved O) - 1 /\
    created w' = t :: created space_a_marked.
Proof.
  assert (Hty : _type (lexer space_a_skipped) = SKIP)
    by (vm_compute; reflexivity).
  assert (Hin : _input (lexer space_a_skipped) = Some O)
    by (vm_compute; reflexivity).
  destruct (skip_restarts_after_skipped_span space_a_marked space_a_skipped O
              sample_match_keeps_start sample_match_keeps_created
              space_a_first_attempt Hty Hin) as (H1 & _ & _ & _ & H5).
  split; [exact space_a_first_attempt|]. split; [exact Hty|].
  split; [exact H1|].
  apply (H5 space_a_resolved O space_a_second_attempt).
  - vm_compute. discriminate.
  - vm_compute. reflexivity.
  - vm_compute. reflexivity.
Defined.

Lemma more_rounds_extend_one_token_witness :
  _type (lexer ab_more) = MORE /\
  exists fuel t w',
    outerLoop fuel ab = (Normal (Some t), w') /\
    tok_start t = cs_index (streams ab O) /\
    tok_stop t = cs_index (streams ab_resolved O) - 1 /\
    tok_type t = _type (lexer ab_resolved) /\
    created w' = t :: created ab.
Proof.
  assert (Hty : _type (lexer ab_more) = MORE) by (vm_compute; reflexivity).
  split; [exact Hty|].
  apply (more_rounds_extend_one_token ab ab_started ab_more ab_more
           ab_resolved O O sample_match_keeps_start sample_match_keeps_created).
  - vm_compute. reflexivity.
  - vm_compute. reflexivity.
  - unfold ab_started, after. apply run_eq. vm_compute. reflexivity.
  - unfold ab_more, after. apply run_eq. vm_compute. reflexivity.
  - exact Hty.
  - apply more_none.
  - unfold ab_resolved, after. apply run_eq. vm_compute. reflexivity.
  - vm_compute. discriminate.
  - vm_compute. discriminate.
  - vm_compute. reflexivity.
  - vm_compute. reflexivity.
Defined.

Lemma nextToken_after_EOF_witness :
  _hitEOF (lexer exhausted) = true /\
  fst (nextTokens 2 1 exhausted) =
    [Normal (Some (mkToken (tt, Some O) (-1) None 0 1 0 1 1));
     Normal (Some (mkToken (tt, Some O) (-1) None 0 1 0 1 1))] /\
  created (snd (nextTokens 2 1 exhausted)) =
    [mkToken (tt, Some O) (-1) None 0 1 0 1 1;
     mkToken (tt, Some O) (-1) None 0 1 0 1 1] ++ created exhausted.
Proof.
  assert (Hhit : _hitEOF (lexer exhausted) = true)
    by (vm_compute; reflexivity).
  assert (Hin : _input (lexer exhausted) = Some O)
    by (vm_compute; reflexivity).
  pose proof (nextToken_after_EOF 2 0 sample_marks_keep_index exhausted O
                Hhit Hin) as H.
  cbv zeta in H. destruct H as (H1 & H2 & _).
  split; [exact Hhit|]. split.
  - rewrite H1. vm_compute. reflexivity.
  - rewrite H2. vm_compute. reflexivity.
Defined.

Lemma recognition_failure_notified_once_and_recovered_witness :
  interp_match (Some O) 0 dollar_failed = (Raise no_viable_alt, dollar_failed) /\
  exists w2,
    onMatchFailure no_viable_alt dollar_failed = (Normal SKIP, w2) /\
    matchRound dollar_started = resolveType SKIP w2 /\
    events w2 =
      [EvSyntaxError 1 0 "token recognition error at: '$'" no_viable_alt] /\
    cs_index (streams w2 O) = 1 /\
    interp w2 = mkPosition 1 1.
Proof.
  assert (Hm : interp_match (Some O) 0 dollar_failed =
               (Raise no_viable_alt, dollar_failed))
    by (vm_compute; reflexivity).
  split; [exact Hm|].
  destruct (recognition_failure_notified_once_and_recovered no_viable_alt
              dollar_failed O sample_consume_advances eq_refl eq_refl)
    as (w2 & H1 & H2 & H3 & _ & _ & _ & H7 & _).
  exists w2. split; [exact H1|]. split; [apply (H2 dollar_started Hm)|].
  split; [rewrite H3; vm_compute; reflexivity|].
  assert (Hla : cs_LA 1 (streams dollar_failed O) <> Token_EOF)
    by (vm_compute; discriminate).
  destruct (H7 Hla eq_refl) as (Hc & Hidx).
  split; [rewrite Hidx; vm_compute; reflexivity|].
  assert (Hc' : interp_consume (streams dollar_failed O) (interp dollar_failed) =
                inr (mkListStream [36] 1 1, mkPosition 1 1))
    by (vm_compute; reflexivity).
  rewrite Hc' in Hc. congruence.
Defined.



Lemma popMode_empty_stack_is_fatal_witness :
  _modeStack (lexer (fresh "a")) = [] /\
  popMode (fresh "a") = (Raise (ThrowString "Empty Stack"), fresh "a").
Proof.
  split; [reflexivity|].
  apply (popMode_empty_stack_is_fatal (fresh "a")). reflexivity.
Defined.

(** ** A rule that matches the empty string *)

Lemma stuck_matchRound (w : W) :
  stuck_at_a w ->
  exists w1,
    matchRound (IN:=empty_rule_interpreter) w = (Normal tt, w1) /\
    _type (lexer w1) = IDENT /\ _token (lexer w1) = _token (lexer w) /\
    streams w1 = streams w /\ stuck_at_a w1.
Proof.
  intros (Hin & Hhit & Hla).
  rewrite matchRound_eq. cbv zeta.
  cbn [interp_match empty_rule_interpreter]. unfold ret.
  set (w0 := snd (assign (set_type Token_INVALID_TYPE) w)).
  assert (Hin0 : _input (lexer w0) = Some O) by exact Hin.
  destruct (resolveType_spec IDENT w0 O Hin0) as (w1 & Hr & Hs & _ & _ & Hl).
  exists w1. split; [exact Hr|].
  change (streams w0) with (streams w) in Hs, Hl.
  change (cs_LA 1 (streams w O)) with (ls_LA 1 (streams w O)) in Hl.
  rewrite Hla in Hl.
  change (_hitEOF (lexer w0)) with (_hitEOF (lexer w)) in Hl.
  rewrite Hhit in Hl. cbn in Hl.
  split; [rewrite Hl; reflexivity|].
  split; [rewrite Hl; reflexivity|].
  split; [exact Hs|].
  split; [rewrite Hl; exact Hin|].
  split; [rewrite Hl; reflexivity|rewrite Hs; exact Hla].
Qed.

Lemma stuck_nextToken (f : nat) (w : W) :
  stuck_at_a w ->
  fst (nextToken (IN:=empty_rule_interpreter) f w) = OutOfFuel \/
  exists t w',
    nextToken (IN:=empty_rule_interpreter) f w = (Normal (Some t), w') /\
    tok_type t = IDENT /\ stuck_at_a w'.
Proof.
  intros (Hin & Hhit & Hla).
  destruct f as [|[|f]].
  - left. rewrite nextToken_eq, Hin. reflexivity.
  - left. rewrite nextToken_eq, Hin. cbn [cs_mark list_stream].
    unfold try_finally. rewrite outerLoop_S.
    cbn [update_stream lexer]. rewrite Hhit.
    rewrite (startToken_eq _ O) by exact Hin. reflexivity.
  - right.
    set (wm := marked O w).
    assert (Hm : stuck_at_a wm).
    { repeat split; [exact Hin|exact Hhit|]. exact Hla. }
    destruct Hm as (Hinm & Hhitm & Hlam).
    pose proof (startToken_eq (IN:=empty_rule_interpreter) wm O Hinm) as Hs.
    match type of Hs with _ = (_, ?x) => set (ws := x) in Hs end.
    assert (Hws : stuck_at_a ws) by (repeat split; assumption).
    destruct (stuck_matchRound ws Hws) as (w1 & Hr & Hty & Htok & Hst & Hw1).
    destruct Hw1 as (Hin1 & Hhit1 & Hla1).
    assert (Hi : innerLoop (IN:=empty_rule_interpreter) (S f) ws =
                 (Normal false, w1)).
    { rewrite innerLoop_S, Hr, Hty. reflexivity. }
    assert (Ho : outerLoop (IN:=empty_rule_interpreter) (S (S f)) wm =
                 (Normal (Some (defaultToken O w1)),
                  emitted (defaultToken O w1) w1)).
    { rewrite outerLoop_S, Hhitm, Hs, Hi. cbn [afterInner].
      apply finishToken_default; [rewrite Htok; reflexivity|exact Hin1]. }
    exists (defaultToken O w1).
    eexists. split.
    + apply (nextToken_of_outerLoop (S (S f)) w _ O O _ Hin Ho);
        [discriminate|exact Hin1].
    + split; [exact Hty|]. repeat split; [exact Hin1|exact Hhit1|].
      unfold released, emitted. cbn [update_stream streams Nat.eqb].
      exact Hla1.
Qed.

Lemma stuck_getAllTokens_while (f : nat) :
  forall acc t (w : W),
    stuck_at_a w -> tok_type t = IDENT ->
    fst (getAllTokens_while (IN:=empty_rule_interpreter) f acc (Some t) w) =
      OutOfFuel.
Proof.
  induction f as [|f IH]; intros acc t w Hw Ht; [reflexivity|].
  rewrite getAllTokens_while_S, Ht. change (IDENT =? Token_EOF)%Z with false.
  cbv beta iota.
  destruct (stuck_nextToken f w Hw) as [Hn|(t' & w' & Hn & Ht' & Hw')].
  - destruct (nextToken f w) as [[tk|e|] w1]; cbn [fst] in Hn;
      try discriminate. reflexivity.
  - rewrite Hn. apply IH; assumption.
Qed.

Lemma getAllTokens_empty_rule_never_returns :
  ~ exists fuel res w',
      getAllTokens (IN:=empty_rule_interpreter) fuel (fresh "a") = (res, w') /\
      res <> OutOfFuel.
Proof.
  intros (fuel & res & w' & H & Hne).
  assert (Hw : stuck_at_a (fresh "a")) by (repeat split).
  unfold getAllTokens, bind in H.
  destruct (stuck_nextToken fuel (fresh "a") Hw)
    as [Hn|(t & w1 & Hn & Ht & Hw1)].
  - destruct (nextToken fuel (fresh "a")) as [[tk|e|] w1]; cbn [fst] in Hn;
      try discriminate. inversion H. congruence.
  - rewrite Hn in H.
    pose proof (stuck_getAllTokens_while fuel [] t w1 Hw1 Ht) as Hs.
    rewrite H in Hs. cbn [fst] in Hs. contradiction.
Qed.

(** ** A rule that asks for more and fails at the end of input

    The recognition failure is recovered without consuming, the type stays
    "more", and the inner loop goes round for ever. *)

Lemma more_then_fail_matchRound (w : W) :
  _input (lexer w) = Some O -> ls_LA 1 (streams w O) = -1 ->
  exists w1,
    matchRound (IN:=Actions.more_then_fail) w = (Normal tt, w1) /\
    _type (lexer w1) = MORE /\ _input (lexer w1) = Some O /\
    streams w1 = streams w.
Proof.
  intros Hin Hla. rewrite matchRound_eq. cbv zeta.
  set (wm := snd (assign (set_type MORE)
                    (snd (assign (set_type Token_INVALID_TYPE) w)))).
  assert (Hm : interp_match (Interpreter:=Actions.more_then_fail)
                 (_input (lexer w)) (_mode (lexer w))
                 (snd (assign (set_type Token_INVALID_TYPE) w)) =
               (Raise (ThrowObject RecognitionException 0), wm))
    by reflexivity.
  rewrite Hm. clear Hm.
  assert (Hinm : _input (lexer wm) = Some O) by exact Hin.
  unfold onMatchFailure. cbn [instanceof subclass].
  unfold bind at 1. rewrite (notifyListeners_eq _ wm O Hinm).
  cbv beta iota. unfold bind at 1.
  match goal with |- context [recover _ ?x] => set (wn := x) end.
  assert (Hinn : _input (lexer wn) = Some O) by exact Hin.
  assert (Hlan : cs_LA 1 (streams wn O) = Token_EOF) by exact Hla.
  rewrite (recover_at_EOF (IN:=Actions.more_then_fail) _ wn O Hinn Hlan).
  cbv beta iota. unfold ret.
  destruct (resolveType_spec SKIP wn O Hinn) as (w1 & Hr & Hs & _ & _ & Hl).
  exists w1. split; [exact Hr|]. rewrite Hl, Hs.
  split; [reflexivity|]. split; [exact Hin|reflexivity].
Qed.

Lemma more_then_fail_innerLoop (f : nat) :
  forall w : W,
    _input (lexer w) = Some O -> ls_LA 1 (streams w O) = -1 ->
    fst (innerLoop (IN:=Actions.more_then_fail) f w) = OutOfFuel.
Proof.
  induction f as [|f IH]; intros w Hin Hla; [reflexivity|].
  destruct (more_then_fail_matchRound w Hin Hla)
    as (w1 & Hr & Hty & Hin1 & Hs).
  rewrite innerLoop_S, Hr, Hty. cbn [Z.eqb MORE SKIP Pos.eqb negb].
  apply IH; [exact Hin1|rewrite Hs; exact Hla].
Qed.

Example getAllTokens_more_then_fail_never_returns :
  forall fuel,
    fst (getAllTokens (IN:=Actions.more_then_fail) fuel (fresh "")) =
      OutOfFuel.
Proof.
  intros fuel. unfold getAllTokens, bind.
  rewrite nextToken_eq. cbn [_input lexer fresh constructor].
  cbn [cs_mark list_stream streams fresh constructor].
  unfold try_finally.
  match goal with |- context [outerLoop fuel ?x] => set (wm := x) end.
  assert (Ho : fst (outerLoop (IN:=Actions.more_then_fail) fuel wm) =
               OutOfFuel).
  { destruct fuel as [|f]; [reflexivity|].
    rewrite outerLoop_S. change (_hitEOF (lexer wm)) with false.
    cbv beta iota. rewrite (startToken_eq wm O eq_refl).
    match goal with |- context [innerLoop f ?x] => set (ws := x) end.
    pose proof (more_then_fail_innerLoop f ws eq_refl eq_refl) as Hi.
    destruct (innerLoop f ws) as [[b|e|] w1]; cbn [fst] in Hi;
      try discriminate.
    reflexivity. }
  destruct (outerLoop fuel wm) as [[tk|e|] w1]; cbn [fst] in Ho;
    try discriminate.
  reflexivity.
Qed.

(** ** The sample interpreter makes progress *)

Lemma chars_left_consumed (s : ListStream) :
  (pos s < List.length (chars s))%nat ->
  S (chars_left (mkListStream (chars s) (S (pos s)) (open_marks s))) =
    chars_left s.
Proof. unfold chars_left. cbn. lia. Qed.

Lemma sample_match_outcome (r : Ref) (m : Z) (w : W) :
  exists res w1,
    sample_match (Some r) m w = (res, w1) /\
    _input (lexer w1) = _input (lexer w) /\
    match res with
    | Normal t =>
        (ls_LA 1 (streams w r) = -1 /\ w1 = w /\ t = -1) \/
        S (chars_left (streams w1 r)) = chars_left (streams w r)
    | Raise e =>
        instanceof e RecognitionException = false \/
        (instanceof e LexerNoViableAltException = true /\
         ls_LA 1 (streams w r) <> -1 /\ w1 = w) \/
        (instanceof e RecognitionException = true /\
         instanceof e LexerNoViableAltException = false /\
         _type (lexer w1) = _type (lexer w) /\
         S (chars_left (streams w1 r)) = chars_left (streams w r))
    | OutOfFuel => False
    end.
Proof.
  unfold sample_match. cbv zeta.
  destruct (Z.eqb_spec (ls_LA 1 (streams w r)) (-1)) as [Heof|Hne].
  { do 2 eexists. split; [reflexivity|]. split; [reflexivity|]. left. auto. }
  pose proof (ls_LA_in_range _ Hne) as Hlt.
  pose proof (chars_left_consumed _ Hlt) as Hleft.
  unfold pos_consume. rewrite (ls_consume_in_range _ Hlt).
  repeat match goal with
         | |- context [if ?b then _ else _] => destruct b
         | |- context [match _modeStack ?x with _ => _ end] =>
             destruct (_modeStack x)
         end.
  all: do 2 eexists; (split; [reflexivity|]); (split; [reflexivity|]).
  all: cbn [streams]; rewrite ?Nat.eqb_refl.
  all: try (right; exact Hleft).
  all: try (left; reflexivity).
  all: try (right; right; repeat split; exact Hleft).
  all: right; left; repeat split; assumption.
Qed.

Lemma no_viable_alt_is_recognition (e : Thrown) :
  instanceof e LexerNoViableAltException = true ->
  instanceof e RecognitionException = true.
Proof. destruct e as [| |s|[] d]; cbn; congruence. Qed.

Lemma sample_makes_progress :
  makes_progress (Stm:=ListStream) (Itp:=Position) chars_left.
Proof.
  assert (Hrem : forall (w2 : W) r,
             _input (lexer w2) = Some r ->
             remaining chars_left w2 = chars_left (streams w2 r)).
  { intros w2 r H2. unfold remaining. rewrite H2. reflexivity. }
  split; [|split; [|split; [|split]]].
  - intros s. split; [|intros m]; unfold chars_left; cbn; lia.
  - intros s Hla.
    assert (Hlt : (pos s < List.length (chars s))%nat)
      by (apply ls_LA_in_range; exact Hla).
    pose proof (chars_left_consumed _ Hlt) as Hleft.
    split.
    + intros s' Hc. cbn [cs_consume list_stream] in Hc.
      rewrite (ls_consume_in_range _ Hlt) in Hc.
      inversion Hc; subst s'. lia.
    + intros i s' i' Hc. cbn [interp_consume sample_interpreter] in Hc.
      unfold pos_consume in Hc. rewrite (ls_consume_in_range _ Hlt) in Hc.
      inversion Hc; subst s'. lia.
  - intros inp m w. cbn [interp_match sample_interpreter].
    destruct inp as [r|]; [|discriminate].
    destruct (sample_match_outcome r m w) as (res & w1 & Hm & _ & Hcase).
    rewrite Hm. destruct res; [discriminate|discriminate|contradiction].
  - intros w ttype w1 Hty H. cbn [interp_match sample_interpreter] in H.
    destruct (_input (lexer w)) as [r|] eqn:Hin; [|discriminate].
    destruct (sample_match_outcome r (_mode (lexer w)) w)
      as (res & w1' & Hm & Hin1 & Hcase).
    rewrite Hm in H. inversion H; subst res w1'. clear H.
    rewrite Hin in Hin1. rewrite (Hrem w r Hin), (Hrem w1 r Hin1).
    destruct Hcase as [(Heof & Hw1 & Ht)|Hdec]; [|left; lia].
    right. subst w1 ttype. split; [lia|]. split.
    + exists r. split; [exact Hin|exact Heof].
    + unfold resolved. rewrite Hty, Z.eqb_refl. discriminate.
  - intros w e w1 Hty H Hrec. cbn [interp_match sample_interpreter] in H.
    destruct (_input (lexer w)) as [r|] eqn:Hin.
    2:{ inversion H; subst e. discriminate. }
    destruct (sample_match_outcome r (_mode (lexer w)) w)
      as (res & w1' & Hm & Hin1 & Hcase).
    rewrite Hm in H. inversion H; subst res w1'. clear H.
    rewrite Hin in Hin1. rewrite (Hrem w r Hin), (Hrem w1 r Hin1).
    destruct Hcase as [Hnr|[(_ & _ & Hw1)|(_ & _ & Hty1 & Hdec)]].
    + congruence.
    + subst w1. split; [lia|]. intros _. rewrite Hty. discriminate.
    + split; [lia|]. intros _. rewrite Hty1, Hty. discriminate.
Qed.

Lemma getAllTokens_collects_until_EOF_witness :
  (exists fuel res w',
      getAllTokens fuel (fresh "  ab cd") = (res, w') /\ res <> OutOfFuel) /\
  (CollectedUntilEOF (fresh "  ab cd")
     [mkToken (tt, Some O) IDENT None 0 2 3 1 2;
      mkToken (tt, Some O) IDENT None 0 5 6 1 5]
     (snd (getAllTokens 9 (fresh "  ab cd"))) /\
   Forall (fun t => tok_type t <> Token_EOF)
     [mkToken (tt, Some O) IDENT None 0 2 3 1 2;
      mkToken (tt, Some O) IDENT None 0 5 6 1 5]).
Proof.
  destruct (getAllTokens_collects_until_EOF chars_left sample_makes_progress)
    as (H1 & H2 & _).
  split; [apply H1|].
  apply (H2 9%nat). apply run_eq. vm_compute. reflexivity.
Defined.

(** ** Sample runs *)

(** Whitespace is skipped and identifiers are tokenized: ["  ab cd"] gives
    the identifiers at [2..3] and [5..6], and the end-of-input token is left
    out. *)
Example getAllTokens_ab_cd :
  fst (getAllTokens 9 (fresh "  ab cd")) =
    Normal [mkToken (tt, Some O) IDENT None 0 2 3 1 2;
            mkToken (tt, Some O) IDENT None 0 5 6 1 5].
Proof. vm_compute. reflexivity. Qed.

(** An unmatched character is reported once and dropped. *)
Example getAllTokens_recovers :
  fst (getAllTokens 9 (fresh "a$b")) =
    Normal [mkToken (tt, Some O) IDENT None 0 0 0 1 0;
            mkToken (tt, Some O) IDENT None 0 2 2 1 2] /\
  notified (snd (getAllTokens 9 (fresh "a$b"))) =
    [EvSyntaxError 1 1 "token recognition error at: '$'"
       (ThrowObject LexerNoViableAltException 36)].
Proof. split; vm_compute; reflexivity. Qed.

(** A plain Error thrown by a rule action leaves [nextToken()] unchanged,
    and no marker stays open. *)
Example nextToken_propagates_error :
  fst (nextToken 3 bang) = Raise action_error /\
  open_marks (streams (snd (nextToken 3 bang)) O) = O.
Proof. split; vm_compute; reflexivity. Qed.

(** [popMode()] inside a rule action on an empty stack: the thrown string
    reaches the caller of [nextToken()]. *)
Example nextToken_propagates_empty_stack :
  fst (nextToken 3 (fresh ">")) = Raise (ThrowString "Empty Stack").
Proof. vm_compute. reflexivity. Qed.

(** The setter leaves stream 1 at index 3, and the first token read from it
    starts after the space found there; [reset()] on a driver that has the
    stream attached rewinds it. *)
Example set_inputStream_keeps_position :
  cs_index (streams (after (set_inputStream (Some 1%nat)) two_streams) 1%nat)
    = 3 /\
  fst (nextToken 5 (after (set_inputStream (Some 1%nat)) two_streams)) =
    Normal (Some (mkToken (tt, Some 1%nat) IDENT None 0 4 5 1 1)) /\
  cs_index
    (streams
       (after reset (after (set_inputStream (Some 1%nat)) two_streams)) 1%nat)
    = 0.
Proof. repeat split; vm_compute; reflexivity. Qed.

(** With a rule that matches the empty string, [nextToken()] keeps
    returning empty tokens at index 0. *)
Example empty_rule_tokens :
  fst (nextTokens (IN:=empty_rule_interpreter) 3 2 (fresh "a")) =
    [Normal (Some (mkToken (tt, Some O) IDENT None 0 0 (-1) 1 0));
     Normal (Some (mkToken (tt, Some O) IDENT None 0 0 (-1) 1 0));
     Normal (Some (mkToken (tt, Some O) IDENT None 0 0 (-1) 1 0))].
Proof. vm_compute. reflexivity. Qed.

End SampleFacts.

(** * Further properties of the driver *)

(** ** Display helpers *)

Section DisplayFacts.
Context {TC : TokenConstants}.

Lemma append_nil_r (s : string) : (s ++ "")%string = s.
Proof. induction s as [|c s IH]; cbn; [|rewrite IH]; reflexivity. Qed.

Lemma append_assoc (s t u : string) :
  ((s ++ t) ++ u)%string = (s ++ t ++ u)%string.
Proof. induction s as [|c s IH]; cbn; [|rewrite IH]; reflexivity. Qed.

Lemma concat_empty_app (l1 l2 : list string) :
  String.concat "" (l1 ++ l2) =
    (String.concat "" l1 ++ String.concat "" l2)%string.
Proof.
  induction l1 as [|x [|y l1] IH].
  - reflexivity.
  - cbn [app]. destruct l2 as [|z l2].
    + cbn. rewrite append_nil_r. reflexivity.
    + reflexivity.
  - change ((x :: y :: l1) ++ l2) with (x :: (y :: l1) ++ l2).
    change (String.concat "" (x :: (y :: l1) ++ l2))
      with (x ++ "" ++ String.concat "" ((y :: l1) ++ l2))%string.
    rewrite IH.
    change (String.concat "" (x :: y :: l1))
      with (x ++ "" ++ String.concat "" (y :: l1))%string.
    cbn [String.append]. rewrite <- append_assoc. reflexivity.
Qed.

Lemma getErrorDisplay_push_concat (s : string) :
  forall d,
    String.concat "" (getErrorDisplay_push s d) =
      (String.concat "" d ++ s)%string.
Proof.
  induction s as [|c rest IH]; intros d.
  - cbn. rewrite append_nil_r. reflexivity.
  - cbn [getErrorDisplay_push]. rewrite IH, concat_empty_app.
    rewrite append_assoc. reflexivity.
Qed.

(** X1.  [getErrorDisplay] hands its argument back unchanged: the loop pushes
    every character as it is and the join has no separator, so nothing in
    the text of a diagnostic is escaped. *)
Theorem getErrorDisplay_is_identity (s : string) : getErrorDisplay s = s.
Proof.
  unfold getErrorDisplay. rewrite getErrorDisplay_push_concat. reflexivity.
Qed.

Lemma eqb_single (a : Ascii.ascii) (n : nat) :
  (n < 256)%nat ->
  String.eqb (String a EmptyString) (String (Ascii.ascii_of_nat n) EmptyString)
    = Nat.eqb (Ascii.nat_of_ascii a) n.
Proof.
  intros Hn. cbn [String.eqb].
  destruct (Ascii.eqb_spec a (Ascii.ascii_of_nat n)) as [->|Hne].
  - rewrite Ascii.nat_ascii_embedding by exact Hn.
    rewrite Nat.eqb_refl. reflexivity.
  - destruct (Nat.eqb_spec (Ascii.nat_of_ascii a) n) as [He|_];
      [|reflexivity].
    exfalso. apply Hne. rewrite <- He, Ascii.ascii_nat_embedding.
    reflexivity.
Qed.

Lemma has_control_append (s t : string) :
  has_control (s ++ t) = (has_control s || has_control t)%bool.
Proof.
  induction s as [|c s IH]; cbn [has_control String.append]; [reflexivity|].
  rewrite IH, !orb_assoc. reflexivity.
Qed.

(** X2.  Whatever single character [getErrorDisplayForChar] and
    [getCharErrorDisplay] are given, their result holds no raw line feed,
    tab or carriage return: those three come out as a backslash and a
    letter. *)
Theorem char_display_has_no_control_character (a : Ascii.ascii) :
  has_control (getErrorDisplayForChar (String a EmptyString)) = false /\
  has_control (getCharErrorDisplay (String a EmptyString)) = false.
Proof.
  assert (H : has_control (getErrorDisplayForChar (String a EmptyString))
              = false).
  { unfold getErrorDisplayForChar, char_LF, char_TAB, char_CR.
    cbn [charCodeAt0].
    destruct (Z.of_nat (Ascii.nat_of_ascii a) =? Token_EOF)%Z;
      [reflexivity|].
    rewrite !eqb_single by lia.
    destruct (Nat.eqb (Ascii.nat_of_ascii a) 10) eqn:H10; [reflexivity|].
    destruct (Nat.eqb (Ascii.nat_of_ascii a) 9) eqn:H9; [reflexivity|].
    destruct (Nat.eqb (Ascii.nat_of_ascii a) 13) eqn:H13; [reflexivity|].
    cbn [has_control]. rewrite H10, H9, H13. reflexivity. }
  split; [exact H|].
  unfold getCharErrorDisplay. rewrite !has_control_append, H. reflexivity.
Qed.

(** X3.  Two different characters never get the same display. *)
Theorem getErrorDisplayForChar_injective (a b : Ascii.ascii) :
  getErrorDisplayForChar (String a EmptyString) =
    getErrorDisplayForChar (String b EmptyString) ->
  a = b.
Proof.
  assert (Hinj : forall x y,
             Ascii.nat_of_ascii x = Ascii.nat_of_ascii y -> x = y).
  { intros x y H. rewrite <- (Ascii.ascii_nat_embedding x),
      <- (Ascii.ascii_nat_embedding y), H. reflexivity. }
  unfold getErrorDisplayForChar, char_LF, char_TAB, char_CR.
  cbn [charCodeAt0]. rewrite !eqb_single by lia.
  destruct (Z.eqb_spec (Z.of_nat (Ascii.nat_of_ascii a)) Token_EOF) as [Ha|_];
  destruct (Z.eqb_spec (Z.of_nat (Ascii.nat_of_ascii b)) Token_EOF) as [Hb|_].
  - intros _. apply Hinj. lia.
  - destruct (Nat.eqb (Ascii.nat_of_ascii b) 10);
      [discriminate|].
    destruct (Nat.eqb (Ascii.nat_of_ascii b) 9); [discriminate|].
    destruct (Nat.eqb (Ascii.nat_of_ascii b) 13); discriminate.
  - destruct (Nat.eqb (Ascii.nat_of_ascii a) 10);
      [discriminate|].
    destruct (Nat.eqb (Ascii.nat_of_ascii a) 9); [discriminate|].
    destruct (Nat.eqb (Ascii.nat_of_ascii a) 13); discriminate.
  - destruct (Nat.eqb_spec (Ascii.nat_of_ascii a) 10) as [A10|_];
    destruct (Nat.eqb_spec (Ascii.nat_of_ascii b) 10) as [B10|_];
    destruct (Nat.eqb_spec (Ascii.nat_of_ascii a) 9) as [A9|_];
    destruct (Nat.eqb_spec (Ascii.nat_of_ascii b) 9) as [B9|_];
    destruct (Nat.eqb_spec (Ascii.nat_of_ascii a) 13) as [A13|_];
    destruct (Nat.eqb_spec (Ascii.nat_of_ascii b) 13) as [B13|_];
    intros H; try discriminate H; try (apply Hinj; congruence);
    inversion H; reflexivity.
Qed.

(** X4.  When the end-of-input sentinel is negative, no string has it as its
    first character code: the test that would display ["<EOF>"] never
    succeeds, and the function only rewrites the three control characters. *)
Theorem getErrorDisplayForChar_EOF_branch_is_dead (c : string) :
  Token_EOF < 0 ->
  getErrorDisplayForChar c =
    if String.eqb c char_LF then "\n"
    else if String.eqb c char_TAB then "\t"
    else if String.eqb c char_CR then "\r"
    else c.
Proof.
  intros Hneg. unfold getErrorDisplayForChar.
  destruct c as [|a rest]; cbn [charCodeAt0]; [reflexivity|].
  destruct (Z.eqb_spec (Z.of_nat (Ascii.nat_of_ascii a)) Token_EOF) as [He|_];
    [lia|reflexivity].
Qed.

End DisplayFacts.

(** ** Nested modes *)

Section ModeFacts.
Context {Stm Itp : Type} {TC : TokenConstants}
        {CS : CharStream Stm} {IN : Interpreter Stm Itp}.
Local Abbreviation World := (World Stm Itp).

Lemma run_normal {A : Type} (m : M Stm Itp A) (w : World) (a : A) :
  fst (m w) = Normal a -> m w = (Normal a, snd (m w)).
Proof. intros <-. apply surjective_pairing. Qed.

Lemma bind_normal {A B : Type} (m : M Stm Itp A) (k : A -> M Stm Itp B)
    (w w1 : World) (a : A) :
  m w = (Normal a, w1) -> bind m k w = k a w1.
Proof. intros H. unfold bind. rewrite H. reflexivity. Qed.

Lemma bind_raise {A B : Type} (m : M Stm Itp A) (k : A -> M Stm Itp B)
    (w w1 : World) (e : Thrown) :
  m w = (Raise e, w1) -> bind m k w = (Raise e, w1).
Proof. intros H. unfold bind. rewrite H. reflexivity. Qed.

Lemma last_cons_default (l : list Z) :
  forall m c, last l m = last (m :: l) c.
Proof.
  induction l as [|x l IH]; intros m c; [reflexivity|].
  change (last (m :: x :: l) c) with (last (x :: l) c).
  rewrite <- (IH x m), <- (IH x c). reflexivity.
Qed.

Lemma pushModes_spec (ms : list Z) :
  forall w : World,
    fst (pushModes ms w) = Normal tt /\
    streams (snd (pushModes ms w)) = streams w /\
    interp (snd (pushModes ms w)) = interp w /\
    _modeStack (lexer (snd (pushModes ms w))) =
      _modeStack (lexer w) ++ removelast (_mode (lexer w) :: ms) /\
    _mode (lexer (snd (pushModes ms w))) = last ms (_mode (lexer w)) /\
    set_mode (_mode (lexer w))
      (set_modeStack (_modeStack (lexer w)) (lexer (snd (pushModes ms w))))
      = lexer w.
Proof.
  induction ms as [|m rest IH]; intros w.
  - cbn. rewrite app_nil_r. repeat split. destruct (lexer w); reflexivity.
  - destruct (pushMode_lexer m w) as (Hr & Hl & Hs & Hi).
    assert (Hstep : pushModes (m :: rest) w =
                    pushModes rest (snd (pushMode m w))).
    { cbn [pushModes].
      apply (bind_normal (pushMode m) (fun _ => pushModes rest) w _ tt).
      apply run_normal. exact Hr. }
    rewrite Hstep.
    destruct (IH (snd (pushMode m w))) as (H1 & H2 & H3 & H4 & H5 & H6).
    rewrite Hl in H4, H5, H6.
    cbn [_modeStack _mode set_mode set_modeStack] in H4, H5, H6.
    split; [exact H1|]. split; [rewrite H2; exact Hs|].
    split; [rewrite H3; exact Hi|].
    split; [|split].
    + rewrite H4, <- app_assoc. destruct rest; reflexivity.
    + rewrite H5. apply last_cons_default.
    + clear H4 H5 Hl.
      destruct (lexer (snd (pushModes rest (snd (pushMode m w)))));
        destruct (lexer w); cbn in *; inversion H6; subst; reflexivity.
Qed.

Lemma popModes_spec (l : list Z) :
  forall (w : World) (st : list Z),
    _modeStack (lexer w) = st ++ l ->
    fst (popModes (List.length l) w) = Normal (rev l) /\
    streams (snd (popModes (List.length l) w)) = streams w /\
    interp (snd (popModes (List.length l) w)) = interp w /\
    lexer (snd (popModes (List.length l) w)) =
      set_mode (hd (_mode (lexer w)) l) (set_modeStack st (lexer w)).
Proof.
  induction l as [|x l IH] using rev_ind; intros w st Hst.
  - cbn. rewrite app_nil_r in Hst. repeat split.
    rewrite <- Hst. destruct (lexer w); reflexivity.
  - rewrite length_app, Nat.add_comm. cbn [List.length Nat.add].
    assert (Hne : _modeStack (lexer w) <> []).
    { rewrite Hst. intro H. apply app_eq_nil in H. destruct H as [_ H].
      apply app_eq_nil in H. destruct H; discriminate. }
    destruct (popMode_nonempty w Hne) as (Hr & Hl & Hs & Hi).
    rewrite Hst, app_assoc, last_last in Hr.
    rewrite Hst, app_assoc, last_last, removelast_last in Hl.
    assert (Hst1 : _modeStack (lexer (snd (popMode w))) = st ++ l)
      by (rewrite Hl; reflexivity).
    destruct (IH (snd (popMode w)) st Hst1) as (H1 & H2 & H3 & H4).
    assert (Hstep : popModes (S (List.length l)) w =
              (Normal (x :: rev l),
               snd (popModes (List.length l) (snd (popMode w))))).
    { cbn [popModes]. rewrite (bind_normal _ _ w _ x (run_normal _ _ _ Hr)).
      rewrite (bind_normal _ _ _ _ (rev l) (run_normal _ _ _ H1)).
      reflexivity. }
    rewrite Hstep. cbn [fst snd]. rewrite rev_app_distr.
    split; [reflexivity|]. split; [rewrite H2; exact Hs|].
    split; [rewrite H3; exact Hi|].
    rewrite H4, Hl. cbn [_mode set_mode].
    destruct l as [|y l]; destruct (lexer w); reflexivity.
Qed.

Lemma length_removelast_cons (c : Z) (ms : list Z) :
  List.length (removelast (c :: ms)) = List.length ms.
Proof.
  revert c. induction ms as [|m ms IH]; intros c; [reflexivity|].
  change (removelast (c :: m :: ms)) with (c :: removelast (m :: ms)).
  cbn [List.length]. rewrite IH. reflexivity.
Qed.

Lemma pushModes_popModes_restore (ms : list Z) (w : World) :
  fst (popModes (List.length ms) (snd (pushModes ms w))) =
    Normal (rev (removelast (_mode (lexer w) :: ms))) /\
  lexer (snd (popModes (List.length ms) (snd (pushModes ms w)))) = lexer w /\
  streams (snd (popModes (List.length ms) (snd (pushModes ms w)))) =
    streams w /\
  interp (snd (popModes (List.length ms) (snd (pushModes ms w)))) = interp w.
Proof.
  destruct (pushModes_spec ms w) as (H1 & H2 & H3 & H4 & H5 & H6).
  destruct (popModes_spec (removelast (_mode (lexer w) :: ms))
              (snd (pushModes ms w)) (_modeStack (lexer w)) H4)
    as (P1 & P2 & P3 & P4).
  rewrite length_removelast_cons in P1, P2, P3, P4.
  split; [exact P1|].
  split; [|split; [rewrite P2; exact H2|rewrite P3; exact H3]].
  rewrite P4. destruct ms as [|m ms].
  - cbn. destruct (lexer w); reflexivity.
  - change (removelast (_mode (lexer w) :: m :: ms))
      with (_mode (lexer w) :: removelast (m :: ms)).
    cbn [hd]. exact H6.
Qed.

(** X5.  Modes nest as a stack.  After [pushMode(m1); ...; pushMode(mn)], [n]
    calls of [popMode()] return the modes that were current before each
    push, newest first, the mode current before the first push coming last;
    afterwards the driver's fields, the streams and the interpreter are what
    they were before the first push. *)
Theorem pushModes_then_popModes_is_LIFO (ms : list Z) (w : World) :
  let w1 := snd (pushModes ms w) in
  let w2 := snd (popModes (List.length ms) w1) in
  fst (pushModes ms w) = Normal tt /\
  fst (popModes (List.length ms) w1) =
    Normal (rev (removelast (_mode (lexer w) :: ms))) /\
  lexer w2 = lexer w /\ streams w2 = streams w /\ interp w2 = interp w.
Proof.
  intros w1 w2.
  destruct (pushModes_spec ms w) as (H1 & _).
  destruct (pushModes_popModes_restore ms w) as (P1 & P2 & P3 & P4).
  repeat split; assumption.
Qed.

Lemma popModes_S (n : nat) :
  forall w0 : World,
    popModes (S n) w0 =
    match popModes n w0 with
    | (Normal l, w') =>
        match popMode w' with
        | (Normal m, w'') => (Normal (l ++ [m]), w'')
        | (Raise e, w'') => (Raise e, w'')
        | (OutOfFuel, w'') => (OutOfFuel, w'')
        end
    | (Raise e, w') => (Raise e, w')
    | (OutOfFuel, w') => (OutOfFuel, w')
    end.
Proof.
  induction n as [|n IHn]; intros w0.
  - cbn [popModes]. unfold bind, ret.
    destruct (popMode w0) as [[m|e|] w']; reflexivity.
  - change (popModes (S (S n)) w0)
      with (bind popMode (fun m => bind (popModes (S n))
              (fun rest => ret (m :: rest))) w0).
    change (popModes (S n) w0)
      with (bind popMode (fun m => bind (popModes n)
              (fun rest => ret (m :: rest))) w0).
    unfold bind at 1 3. destruct (popMode w0) as [[m|e|] w']; try reflexivity.
    unfold bind at 1 2. rewrite IHn.
    destruct (popModes n w') as [[l|e|] w'']; try reflexivity.
    unfold ret. cbv beta iota.
    destruct (popMode w'') as [[m'|e|] w3]; reflexivity.
Qed.

Lemma popMode_on_empty (w : World) :
  _modeStack (lexer w) = [] ->
  popMode w = (Raise (ThrowString "Empty Stack"), w).
Proof.
  intros H. unfold popMode, bind, gets. cbv beta iota. rewrite H.
  reflexivity.
Qed.

(** X6.  One [popMode()] too many is fatal, and it is the last one that fails:
    on a driver whose mode stack is empty, [n] pushes followed by [n + 1]
    pops throw "Empty Stack", after the first [n] pops have put the driver's
    fields back to what they were before the pushes. *)
Theorem popModes_underflow (ms : list Z) (w : World) :
  _modeStack (lexer w) = [] ->
  let w1 := snd (pushModes ms w) in
  fst (popModes (S (List.length ms)) w1) = Raise (ThrowString "Empty Stack") /\
  lexer (snd (popModes (S (List.length ms)) w1)) = lexer w.
Proof.
  intros Hempty w1.
  destruct (pushModes_popModes_restore ms w) as (P1 & P4 & _).
  fold w1 in P1, P4.
  rewrite popModes_S, (run_normal _ _ _ P1).
  assert (Hst : _modeStack (lexer (snd (popModes (List.length ms) w1))) = [])
    by (rewrite P4; exact Hempty).
  rewrite (popMode_on_empty _ Hst). split; [reflexivity|exact P4].
Qed.

(** X7.  Setting the mode directly between a push and its pop does not disturb
    the stack: [pushMode(m); mode(m'); popMode()] returns the mode that was
    current before the push and leaves the driver's fields as they were. *)
Theorem mode_between_push_and_pop (m m' : Z) (w : World) :
  let w1 := snd (pushMode m w) in
  let w2 := snd (mode m' w1) in
  _modeStack (lexer w2) = _modeStack (lexer w1) /\
  _mode (lexer w2) = m' /\
  fst (popMode w2) = Normal (_mode (lexer w)) /\
  lexer (snd (popMode w2)) = lexer w.
Proof.
  intros w1 w2.
  destruct (pushMode_lexer m w) as (_ & Hl & _). fold w1 in Hl.
  assert (Hl2 : lexer w2 = set_mode m' (lexer w1)) by reflexivity.
  assert (Hst : _modeStack (lexer w2) =
                _modeStack (lexer w) ++ [_mode (lexer w)]).
  { rewrite Hl2, Hl. reflexivity. }
  assert (Hne : _modeStack (lexer w2) <> []).
  { rewrite Hst. intro H. apply app_eq_nil in H. destruct H; discriminate. }
  destruct (popMode_nonempty w2 Hne) as (Hr & Hp & _).
  rewrite Hst, last_last in Hr.
  rewrite Hst, last_last, removelast_last in Hp.
  split; [rewrite Hl2; reflexivity|]. split; [rewrite Hl2; reflexivity|].
  split; [exact Hr|]. rewrite Hp, Hl2, Hl. destruct (lexer w); reflexivity.
Qed.

End ModeFacts.

(** ** What every call of [nextToken] guarantees *)

Section TokenFacts.
Context {Stm Itp : Type} {TC : TokenConstants}
        {CS : CharStream Stm} {IN : Interpreter Stm Itp}.
Local Abbreviation World := (World Stm Itp).

Lemma resolveType_normal (ttype : Z) (w w' : World) :
  resolveType ttype w = (Normal tt, w') ->
  exists r,
    _input (lexer w') = Some r /\ _input (lexer w) = Some r /\
    streams w' = streams w /\
    _token (lexer w') = _token (lexer w) /\
    (_hitEOF (lexer w') = true \/ cs_LA 1 (streams w' r) <> Token_EOF).
Proof.
  intros H. destruct (_input (lexer w)) as [r|] eqn:Hin.
  - destruct (resolveType_spec ttype w r Hin) as (w2 & Hr & Hs & _ & _ & Hl).
    rewrite Hr in H. inversion H; subst w2. exists r.
    split; [rewrite Hl; exact Hin|]. split; [reflexivity|].
    split; [exact Hs|]. split; [rewrite Hl; reflexivity|].
    rewrite Hl, Hs. cbn [_hitEOF set_type set_hitEOF].
    destruct (Z.eqb_spec (cs_LA 1 (streams w r)) Token_EOF) as [He|Hne].
    + left. apply orb_true_r.
    + right. exact Hne.
  - unfold resolveType, input_LA, with_input, bind, gets, throw in H.
    cbv beta iota in H. rewrite Hin in H. discriminate.
Qed.

(** The state in which a completed round, and so a completed call, leaves
    the driver: a stream is attached, and the latch is set unless the next
    character is not the end-of-input sentinel. *)
Lemma matchRound_normal (w w' : World) :
  matchRound w = (Normal tt, w') ->
  exists r,
    _input (lexer w') = Some r /\
    (_hitEOF (lexer w') = true \/ cs_LA 1 (streams w' r) <> Token_EOF).
Proof.
  intros H. rewrite matchRound_eq in H. cbv zeta in H.
  destruct (interp_match _ _ _) as [[t|e|] w1]; [| |discriminate].
  - destruct (resolveType_normal t w1 w' H) as (r & H1 & _ & _ & _ & H2).
    eauto.
  - destruct (onMatchFailure e w1) as [[t|e'|] w2]; try discriminate.
    destruct (resolveType_normal t w2 w' H) as (r & H1 & _ & _ & _ & H2).
    eauto.
Qed.

Lemma innerLoop_normal (f : nat) :
  forall (w w' : World) (b : bool),
    innerLoop f w = (Normal b, w') ->
    exists r,
      _input (lexer w') = Some r /\
      (_hitEOF (lexer w') = true \/ cs_LA 1 (streams w' r) <> Token_EOF).
Proof.
  induction f as [|f IH]; intros w w' b H; [discriminate|].
  rewrite innerLoop_S in H.
  destruct (matchRound w) as [[[]|e|] w1] eqn:Hr; try discriminate.
  destruct (_type (lexer w1) =? SKIP)%Z.
  { inversion H; subst. apply (matchRound_normal w w' Hr). }
  destruct (negb (_type (lexer w1) =? MORE)%Z).
  { inversion H; subst. apply (matchRound_normal w w' Hr). }
  apply (IH _ _ _ H).
Qed.

Lemma outerLoop_normal (f : nat) :
  forall (w w' : World) tk,
    outerLoop f w = (Normal tk, w') ->
    exists t r,
      tk = Some t /\ _token (lexer w') = Some t /\
      _input (lexer w') = Some r /\
      (_hitEOF (lexer w') = true \/ cs_LA 1 (streams w' r) <> Token_EOF).
Proof.
  induction f as [|f IH]; intros w w' tk H; [discriminate|].
  rewrite outerLoop_S in H.
  destruct (_hitEOF (lexer w)) eqn:Hhit.
  - destruct (emitEOF_returns w) as [(r & Hin & He)|(e & He)];
      rewrite He in H; [|discriminate].
    inversion H; subst. exists (eofToken r w), r.
    repeat split; auto.
  - destruct (startToken w) as [[[]|e|] ws]; try discriminate.
    destruct (innerLoop f ws) as [[[|]|e|] w1] eqn:Hi;
      cbn [afterInner] in H; try discriminate.
    + apply (IH _ _ _ H).
    + destruct (innerLoop_normal f ws w1 false Hi) as (r & Hin & Hlatch).
      destruct (_token (lexer w1)) as [t|] eqn:Htok.
      * rewrite (finishToken_custom w1 t Htok) in H. inversion H; subst.
        exists t, r. auto.
      * rewrite (finishToken_default w1 r Htok Hin) in H.
        inversion H; subst. exists (defaultToken r w1), r.
        repeat split; auto.
Qed.

Lemma nextToken_normal (f : nat) (w w' : World) tk :
  nextToken f w = (Normal tk, w') ->
  exists r w1 r1,
    _input (lexer w) = Some r /\
    outerLoop f (marked r w) = (Normal tk, w1) /\
    _input (lexer w1) = Some r1 /\
    w' = released r1 (fst (cs_mark (streams w r))) w1.
Proof.
  intros H. rewrite nextToken_eq in H.
  destruct (_input (lexer w)) as [r|] eqn:Hin; [|discriminate].
  exists r. unfold marked.
  destruct (cs_mark (streams w r)) as [m s]. cbn [fst snd].
  unfold try_finally in H.
  destruct (outerLoop f (update_stream r s w)) as [[tk'|e|] w1] eqn:Ho;
    [| |discriminate].
  - unfold input_release, with_input, bind, gets, throw in H.
    cbv beta iota in H.
    destruct (_input (lexer w1)) as [r1|] eqn:Hin1; [|discriminate].
    inversion H; subst. exists w1, r1. auto.
  - unfold input_release, with_input, bind, gets, throw in H.
    cbv beta iota in H.
    destruct (_input (lexer w1)) as [r1|]; discriminate.
Qed.

(** X8.  Without a stream, [nextToken()] and [getAllTokens()] throw the string
    "nextToken requires a non-null input stream." before anything happens:
    no marker is taken, no event is recorded, the world is unchanged. *)
Theorem nextToken_requires_a_stream (fuel : nat) (w : World) :
  _input (lexer w) = None ->
  nextToken fuel w =
    (Raise (ThrowString "nextToken requires a non-null input stream."), w) /\
  getAllTokens fuel w =
    (Raise (ThrowString "nextToken requires a non-null input stream."), w).
Proof.
  intros Hin.
  assert (H : nextToken fuel w =
    (Raise (ThrowString "nextToken requires a non-null input stream."), w))
    by (rewrite nextToken_eq, Hin; reflexivity).
  split; [exact H|]. unfold getAllTokens, bind. rewrite H. reflexivity.
Qed.

(** X9.  [nextToken()] never returns null: whenever a call returns, whatever the
    interpreter and its rule actions did, the result is a token, and it is
    the token the driver now holds in [_token]. *)
Theorem nextToken_returns_the_current_token
    (fuel : nat) (w w' : World) (tk : option Token) :
  nextToken fuel w = (Normal tk, w') ->
  exists t, tk = Some t /\ _token (lexer w') = Some t.
Proof.
  intros H.
  destruct (nextToken_normal fuel w w' tk H) as (r & w1 & r1 & _ & Ho & _ & Hw).
  destruct (outerLoop_normal fuel _ _ _ Ho) as (t & _ & Ht & Htok & _).
  exists t. split; [exact Ht|]. rewrite Hw. exact Htok.
Qed.

(** X10.  The end of input is never missed.  Over a stream whose [release] does
    not change the next character: whenever [nextToken()] returns, the
    latch is set or the next character is not the end-of-input sentinel;
    so if the call leaves the stream at the end of input, the very next
    call returns a token of the end-of-input type. *)
Theorem nextToken_latches_the_end_of_input
    (fuel : nat) (w w' : World) (tk : option Token) :
  release_keeps_LA ->
  nextToken fuel w = (Normal tk, w') ->
  exists r,
    _input (lexer w') = Some r /\
    (_hitEOF (lexer w') = true \/ cs_LA 1 (streams w' r) <> Token_EOF) /\
    (cs_LA 1 (streams w' r) = Token_EOF ->
     forall fuel', exists t w'',
       nextToken (S fuel') w' = (Normal (Some t), w'') /\
       tok_type t = Token_EOF /\
       tok_start t = cs_index (streams (marked r w') r)).
Proof.
  intros Hrel H.
  destruct (nextToken_normal fuel w w' tk H) as (r & w1 & r1 & _ & Ho & Hin1 & Hw).
  destruct (outerLoop_normal fuel _ _ _ Ho) as (t & r1' & _ & _ & Hin1' & Hl).
  rewrite Hin1 in Hin1'. inversion Hin1'; subst r1'.
  assert (Hin' : _input (lexer w') = Some r1) by (rewrite Hw; exact Hin1).
  assert (HLA : cs_LA 1 (streams w' r1) = cs_LA 1 (streams w1 r1)).
  { rewrite Hw. unfold released. rewrite update_stream_same. apply Hrel. }
  assert (Hlatch : _hitEOF (lexer w') = true \/
                   cs_LA 1 (streams w' r1) <> Token_EOF).
  { rewrite HLA. rewrite Hw. exact Hl. }
  exists r1. split; [exact Hin'|]. split; [exact Hlatch|].
  intros Heof fuel'. destruct Hlatch as [Hhit|Hne]; [|contradiction].
  do 2 eexists. split; [apply (nextToken_hitEOF fuel' w' r1 Hhit Hin')|].
  split; reflexivity.
Qed.

(** X11.  Once the latch is set, [getAllTokens()] returns the empty list: the
    first token it reads is the end-of-input token, which it leaves out. *)
Theorem getAllTokens_after_exhaustion (fuel : nat) (w : World) (r : Ref) :
  _hitEOF (lexer w) = true -> _input (lexer w) = Some r ->
  getAllTokens (S fuel) w = (Normal [], snd (nextToken (S fuel) w)) /\
  created (snd (nextToken (S fuel) w)) = eofToken r (marked r w) :: created w.
Proof.
  intros Hhit Hin. unfold getAllTokens, bind.
  rewrite (nextToken_hitEOF fuel w r Hhit Hin). cbn [snd].
  rewrite getAllTokens_while_S.
  change (tok_type (eofToken r (marked r w))) with Token_EOF.
  rewrite Z.eqb_refl. split; reflexivity.
Qed.

End TokenFacts.

(** ** Tokens: channel, text, spans *)

Section SpanFacts.
Context {Stm Itp : Type} {TC : TokenConstants}
        {CS : CharStream Stm} {IN : Interpreter Stm Itp}.
Local Abbreviation World := (World Stm Itp).

Lemma channel_text_stable :
  round_stable (fun w : World => (_channel (lexer w), _text (lexer w))).
Proof. repeat split. Qed.

(** X12.  Overrides do not leak from one token into the next.  Over rule actions
    that set neither channel nor text: whatever channel and text override
    the driver holds when an attempt starts, the token that default
    emission builds for that attempt is on the default channel and has no
    text override. *)
Theorem default_token_has_default_channel_and_no_text
    (wi w1 : World) (r1 : Ref) :
  match_keeps_channel_text ->
  Attempt wi w1 -> _type (lexer w1) <> SKIP ->
  _token (lexer w1) = None -> _input (lexer w1) = Some r1 ->
  exists f t w',
    outerLoop f wi = (Normal (Some t), w') /\
    tok_channel t = Token_DEFAULT_CHANNEL /\ tok_text t = None.
Proof.
  intros Hk Ha Hty Htok Hin1.
  destruct (Attempt_resolve_outerLoop wi w1 Ha Hty) as [f Hf].
  rewrite (finishToken_default w1 r1 Htok Hin1) in Hf.
  exists f, (defaultToken r1 w1), (emitted (defaultToken r1 w1) w1).
  split; [exact Hf|].
  destruct Ha as (_ & ws & wr & Hs & Hm & Hr & _).
  destruct (startToken_Normal wi ws Hs) as [ri Hini].
  rewrite (startToken_eq wi ri Hini) in Hs. inversion Hs as [Hws]. clear Hs.
  pose proof (preserves_matchRound _ channel_text_stable Hk wr) as Hp.
  rewrite Hr in Hp. cbn [snd] in Hp.
  pose proof (MoreRounds_preserves _ channel_text_stable ws wr Hk Hm) as Hq.
  rewrite Hq, <- Hws in Hp. cbn in Hp. injection Hp as Hc Ht.
  split; [exact Hc|exact Ht].
Qed.

(** X13.  [reset()] puts the driver's fields back to what the constructor gives
    them for the same stream (the source pair being the one the constructor
    or the setter built), whatever the driver went through: in particular
    the latch is lowered and the mode stack emptied.  The attached stream is
    sought to 0 and the interpreter is reset. *)
Theorem reset_gives_the_constructed_state
    (w : World) (heap : Ref -> Stm) (i : Itp) :
  _tokenFactorySourcePair (lexer w) = (tt, _input (lexer w)) ->
  fst (reset w) = Normal tt /\
  lexer (snd (reset w)) = lexer (constructor (_input (lexer w)) heap i) /\
  interp (snd (reset w)) = interp_reset (interp w) /\
  events (snd (reset w)) = events w /\
  match _input (lexer w) with
  | Some r =>
      streams (snd (reset w)) r = cs_seek 0 (streams w r) /\
      forall r', r' <> r -> streams (snd (reset w)) r' = streams w r'
  | None => streams (snd (reset w)) = streams w
  end.
Proof.
  intros Hpair. rewrite reset_eq. cbn [fst snd lexer interp events streams].
  rewrite Hpair. repeat split.
  destruct (_input (lexer w)) as [r|]; [|reflexivity]. split.
  - apply update_stream_same.
  - intros r' Hne. apply update_stream_other. exact Hne.
Qed.

Lemma onMatchFailure_index (e : Thrown) (w1 w2 : World) (r : Ref) (t : Z) :
  consume_advances ->
  _input (lexer w1) = Some r ->
  onMatchFailure e w1 = (Normal t, w2) ->
  _input (lexer w2) = Some r /\
  cs_index (streams w1 r) <= cs_index (streams w2 r).
Proof.
  intros Hadv Hin H. unfold onMatchFailure in H.
  destruct (instanceof e RecognitionException).
  2:{ unfold bind at 1, read_stack in H. destruct (nullish e); discriminate. }
  unfold bind at 1 in H. rewrite (notifyListeners_eq e w1 r Hin) in H.
  cbv beta iota in H. unfold bind at 1 in H.
  match type of H with context [recover e ?x] => set (wn := x) in H end.
  assert (Hinn : _input (lexer wn) = Some r) by exact Hin.
  destruct (Z.eq_dec (cs_LA 1 (streams wn r)) Token_EOF) as [Heof|Hne].
  - rewrite (recover_at_EOF e wn r Hinn Heof) in H. inversion H; subst.
    split; [exact Hin|]. cbn [streams wn]. lia.
  - destruct (Hadv (streams wn r) Hne) as [(s' & Hcs & Hidx) Hic].
    destruct (instanceof e LexerNoViableAltException) eqn:Hnv.
    + rewrite (recover_no_viable_alt e wn r Hinn Hne Hnv) in H.
      destruct (Hic (interp wn)) as (s2 & i2 & Hi & Hidx2).
      unfold interp_consume_input in H. rewrite Hinn, Hi in H.
      inversion H; subst. split; [exact Hin|].
      cbn [streams update_stream]. rewrite Nat.eqb_refl.
      change (streams wn r) with (streams w1 r) in Hidx2. lia.
    + rewrite (recover_other e wn r Hinn Hne Hnv) in H.
      unfold input_consume, with_input, bind, gets in H.
      cbv beta iota in H. rewrite Hinn, Hcs in H.
      inversion H; subst. split; [exact Hin|].
      cbn [streams update_stream]. rewrite Nat.eqb_refl.
      change (streams wn r) with (streams w1 r) in Hidx. lia.
Qed.

Lemma matchRound_index (w w' : World) (r : Ref) :
  consume_advances -> match_never_rewinds -> match_keeps_input ->
  _input (lexer w) = Some r ->
  matchRound w = (Normal tt, w') ->
  _input (lexer w') = Some r /\
  cs_index (streams w r) <= cs_index (streams w' r).
Proof.
  intros Hadv Hmono Hk Hin H.
  pose proof (preserves_matchRound _ input_stable Hk w) as Hp.
  rewrite H in Hp. cbn [snd] in Hp. split; [rewrite Hp; exact Hin|].
  rewrite matchRound_eq in H. cbv zeta in H.
  set (w0 := snd (assign (set_type Token_INVALID_TYPE) w)) in H.
  pose proof (Hmono (_input (lexer w)) (_mode (lexer w)) w0 r) as Hm.
  pose proof (Hk (_input (lexer w)) (_mode (lexer w)) w0) as Hk0.
  cbv beta in Hk0.
  destruct (interp_match (_input (lexer w)) (_mode (lexer w)) w0)
    as [[t|e|] w1]; [| |discriminate]; cbn [snd] in Hm, Hk0.
  - destruct (resolveType_normal t w1 w' H) as (r' & _ & _ & Hs & _).
    rewrite Hs. exact Hm.
  - assert (Hin1 : _input (lexer w1) = Some r) by (rewrite Hk0; exact Hin).
    destruct (onMatchFailure e w1) as [[t|e'|] w2] eqn:Hf; try discriminate.
    destruct (onMatchFailure_index e w1 w2 r t Hadv Hin1 Hf) as (_ & Hle).
    destruct (resolveType_normal t w2 w' H) as (r' & _ & _ & Hs & _).
    rewrite Hs. change (streams w0 r) with (streams w r) in Hm. lia.
Qed.

Lemma MoreRounds_index (w w' : World) (r : Ref) :
  consume_advances -> match_never_rewinds -> match_keeps_input ->
  MoreRounds w w' ->
  _input (lexer w) = Some r ->
  _input (lexer w') = Some r /\
  cs_index (streams w r) <= cs_index (streams w' r).
Proof.
  intros Hadv Hmono Hk H. induction H as [w|w w1 w2 Hr _ _ IH]; intros Hin.
  - split; [exact Hin|lia].
  - destruct (matchRound_index w w1 r Hadv Hmono Hk Hin Hr) as (Hin1 & Hle).
    destruct (IH Hin1) as (Hin2 & Hle2). split; [exact Hin2|lia].
Qed.

Lemma Attempt_index (wi w1 : World) (r : Ref) :
  consume_advances -> match_never_rewinds -> match_keeps_input ->
  Attempt wi w1 ->
  _input (lexer wi) = Some r ->
  _input (lexer w1) = Some r /\
  cs_index (streams wi r) <= cs_index (streams w1 r).
Proof.
  intros Hadv Hmono Hk (_ & ws & wr & Hs & Hm & Hr & _) Hin.
  rewrite (startToken_eq wi r Hin) in Hs. inversion Hs as [Hws]. clear Hs.
  assert (Hins : _input (lexer ws) = Some r) by (rewrite <- Hws; exact Hin).
  destruct (MoreRounds_index ws wr r Hadv Hmono Hk Hm Hins) as (Hinr & Hle).
  destruct (matchRound_index wr w1 r Hadv Hmono Hk Hinr Hr) as (Hin1 & Hle1).
  split; [exact Hin1|]. rewrite <- Hws in Hle. cbn [streams] in Hle. lia.
Qed.

Lemma Skipped_index (w wi : World) (r : Ref) :
  consume_advances -> match_never_rewinds -> match_keeps_input ->
  Skipped w wi ->
  _input (lexer w) = Some r ->
  _input (lexer wi) = Some r /\
  cs_index (streams w r) <= cs_index (streams wi r).
Proof.
  intros Hadv Hmono Hk H. induction H as [w|w w1 w2 Ha _ _ IH]; intros Hin.
  - split; [exact Hin|lia].
  - destruct (Attempt_index w w1 r Hadv Hmono Hk Ha Hin) as (Hin1 & Hle).
    destruct (IH Hin1) as (Hin2 & Hle2). split; [exact Hin2|lia].
Qed.

(** X14.  Tokens come in stream order and never overlap.  Over an interpreter
    that never moves the stream backwards and whose actions leave the token
    start and the stream reference alone, and a stream on which marking and
    releasing keep the index and consuming advances it: the token that
    default emission builds in a call of [nextToken()] starts at or after
    the index the stream had when the call began, is not shorter than empty
    ([stop + 1 >= start]), and the call leaves the stream at [stop + 1],
    which is where the next call begins. *)
Theorem default_token_span_is_ordered
    (w wi w1 : World) (r : Ref) :
  marks_keep_index -> consume_advances -> match_never_rewinds ->
  match_keeps_input -> match_keeps_start ->
  _input (lexer w) = Some r ->
  Skipped (marked r w) wi ->
  Attempt wi w1 -> _type (lexer w1) <> SKIP ->
  _token (lexer w1) = None ->
  exists f t w',
    nextToken f w = (Normal (Some t), w') /\
    cs_index (streams w r) <= tok_start t /\
    tok_start t <= tok_stop t + 1 /\
    cs_index (streams w' r) = tok_stop t + 1.
Proof.
  intros Hmk Hadv Hmono Hk Hst Hin Hsk Ha Hty Htok.
  assert (Hinm : _input (lexer (marked r w)) = Some r) by exact Hin.
  destruct (Skipped_index _ _ r Hadv Hmono Hk Hsk Hinm) as (Hini & Hle1).
  destruct (Attempt_index _ _ r Hadv Hmono Hk Ha Hini) as (Hin1 & Hle2).
  destruct (Attempt_default_emission wi w1 r r Hst Ha Hty Htok Hini Hin1)
    as (f & Hf & Hs & _).
  destruct (Skipped_outerLoop _ _ Hsk f _ _ Hf) as [f' Hf']; [discriminate|].
  set (t := defaultToken r w1) in *.
  exists f', t, (released r (fst (cs_mark (streams w r))) (emitted t w1)).
  split.
  { apply (nextToken_of_outerLoop f' w (emitted t w1) r r); auto.
    discriminate. }
  assert (Hm : cs_index (streams (marked r w) r) = cs_index (streams w r)).
  { unfold marked. rewrite update_stream_same.
    destruct (Hmk (streams w r)) as [H _]. exact H. }
  assert (Hstop : tok_stop t = cs_index (streams w1 r) - 1) by reflexivity.
  split; [rewrite Hs; lia|]. split; [rewrite Hs, Hstop; lia|].
  unfold released. rewrite update_stream_same.
  destruct (Hmk (streams (emitted t w1) r)) as [_ H]. rewrite H.
  change (streams (emitted t w1) r) with (streams w1 r). lia.
Qed.

(** X15.  A recognition failure at the end of the input ends the call with the
    end-of-input token.  If, at some round of some attempt, the interpreter
    raises a recognition failure with the stream at the end of input and
    without a rule action having set a type, then the failure is reported,
    nothing is consumed, and the same call of [nextToken()] returns the
    end-of-input token at that index. *)
Theorem failure_at_end_of_input_yields_EOF
    (w wi ws wr w1 : World) (r r1 : Ref) (e : Thrown) :
  _input (lexer w) = Some r ->
  Skipped (marked r w) wi ->
  _hitEOF (lexer wi) = false ->
  startToken wi = (Normal tt, ws) ->
  MoreRounds ws wr ->
  interp_match (_input (lexer wr)) (_mode (lexer wr))
    (snd (assign (set_type Token_INVALID_TYPE) wr)) = (Raise e, w1) ->
  instanceof e RecognitionException = true ->
  _input (lexer w1) = Some r1 ->
  _type (lexer w1) = Token_INVALID_TYPE ->
  cs_LA 1 (streams w1 r1) = Token_EOF ->
  exists f t w',
    nextToken f w = (Normal (Some t), w') /\
    tok_type t = Token_EOF /\
    tok_start t = cs_index (streams w1 r1) /\
    tok_stop t = cs_index (streams w1 r1) - 1 /\
    created w' = t :: created w1 /\
    notified w' =
      EvSyntaxError (_tokenStartLine (lexer w1)) (_tokenStartColumn (lexer w1))
        ("token recognition error at: '" ++
         getErrorDisplay
           (cs_getText (_tokenStartCharIndex (lexer w1))
              (cs_index (streams w1 r1)) (streams w1 r1)) ++ "'")%string e
      :: notified w1.
Proof.
  intros Hin Hsk Hhit Hs Hm Hmatch Hrec Hin1 Hty Heof.
  set (ev := EvSyntaxError (_tokenStartLine (lexer w1))
               (_tokenStartColumn (lexer w1))
               ("token recognition error at: '" ++
                getErrorDisplay
                  (cs_getText (_tokenStartCharIndex (lexer w1))
                     (cs_index (streams w1 r1)) (streams w1 r1)) ++ "'")%string
               e).
  set (wn := mkWorld (lexer w1) (streams w1) (interp w1) (ev :: events w1)).
  assert (Hinn : _input (lexer wn) = Some r1) by exact Hin1.
  assert (Hfail : onMatchFailure e w1 = (Normal SKIP, wn)).
  { unfold onMatchFailure. rewrite Hrec. unfold bind at 1.
    rewrite (notifyListeners_eq e w1 r1 Hin1). cbv beta iota.
    unfold bind at 1. fold ev. fold wn.
    rewrite (recover_at_EOF e wn r1 Hinn Heof). reflexivity. }
  destruct (resolveType_spec SKIP wn r1 Hinn) as (w2 & Hr & Hst & Hi & Hev & Hl).
  assert (Hround : matchRound wr = (Normal tt, w2)).
  { rewrite matchRound_eq. cbv zeta. rewrite Hmatch, Hfail. exact Hr. }
  change (streams wn) with (streams w1) in Hst, Hl.
  change (lexer wn) with (lexer w1) in Hl.
  rewrite Heof, Z.eqb_refl, orb_true_r, Hty, Z.eqb_refl in Hl.
  assert (Hty2 : _type (lexer w2) = SKIP) by (rewrite Hl; reflexivity).
  assert (Hhit2 : _hitEOF (lexer w2) = true) by (rewrite Hl; reflexivity).
  assert (Hin2 : _input (lexer w2) = Some r1) by (rewrite Hl; exact Hin1).
  assert (Hi1 : innerLoop 1 wr = (Normal true, w2)).
  { rewrite innerLoop_S, Hround, Hty2. reflexivity. }
  destruct (MoreRounds_innerLoop ws wr Hm 1 _ _ Hi1) as [f Hf];
    [discriminate|].
  set (t := eofToken r1 w2).
  assert (Ho : outerLoop (S (S f)) wi = (Normal (Some t), emitted t w2)).
  { rewrite outerLoop_S, Hhit, Hs.
    rewrite (innerLoop_fuel f ws _ _ Hf) by (discriminate || lia).
    cbn [afterInner]. apply (outerLoop_hitEOF f w2 r1 Hhit2 Hin2). }
  destruct (Skipped_outerLoop _ _ Hsk _ _ _ Ho) as [f' Hf'];
    [discriminate|].
  exists f', t, (released r1 (fst (cs_mark (streams w r))) (emitted t w2)).
  split.
  { apply (nextToken_of_outerLoop f' w (emitted t w2) r r1); auto.
    discriminate. }
  unfold t, eofToken. cbn [tok_type tok_start tok_stop]. rewrite Hst.
  repeat split.
  - unfold created, released, emitted.
    cbn [events update_stream flat_map app]. rewrite Hev. reflexivity.
  - unfold notified, released, emitted.
    cbn [events update_stream filter]. rewrite Hev. reflexivity.
Qed.

(** X16.  [skip()] and [more()] decide the round.  The type constants being
    distinct from the "unset" type: when [match] returns normally, a type
    that a rule action left in [_type] wins over the type [match] returns.
    After [skip()] the round resolves to "skip" and the inner loop leaves
    asking for a new attempt; after [more()] it resolves to "more" and the
    inner loop runs another round; only a type left unset is replaced by
    the returned one. *)
Theorem action_type_decides_the_round
    (w w1 : World) (r : Ref) (ttype : Z) (f : nat) :
  Token_INVALID_TYPE <> SKIP -> Token_INVALID_TYPE <> MORE ->
  interp_match (_input (lexer w)) (_mode (lexer w))
    (snd (assign (set_type Token_INVALID_TYPE) w)) = (Normal ttype, w1) ->
  _input (lexer w1) = Some r ->
  exists w',
    matchRound w = (Normal tt, w') /\
    (_type (lexer w1) = SKIP ->
     _type (lexer w') = SKIP /\ innerLoop (S f) w = (Normal true, w')) /\
    (_type (lexer w1) = MORE ->
     _type (lexer w') = MORE /\ innerLoop (S f) w = innerLoop f w') /\
    (_type (lexer w1) = Token_INVALID_TYPE -> _type (lexer w') = ttype) /\
    (forall wm : World,
        _type (lexer (snd (skip wm))) = SKIP /\
        _type (lexer (snd (more wm))) = MORE).
Proof.
  intros Hs Hm Hmatch Hin.
  destruct (resolveType_spec ttype w1 r Hin) as (w' & Hr & _ & _ & _ & Hl).
  assert (Hround : matchRound w = (Normal tt, w')).
  { rewrite matchRound_eq. cbv zeta. rewrite Hmatch. exact Hr. }
  assert (Hty : _type (lexer w') =
                if (_type (lexer w1) =? Token_INVALID_TYPE)%Z
                then ttype else _type (lexer w1))
    by (rewrite Hl; reflexivity).
  exists w'. split; [exact Hround|]. split; [|split; [|split]].
  - intros H1. rewrite H1 in Hty.
    destruct (Z.eqb_spec SKIP Token_INVALID_TYPE) as [E|_]; [congruence|].
    split; [exact Hty|]. rewrite innerLoop_S, Hround, Hty. reflexivity.
  - intros H1. rewrite H1 in Hty.
    destruct (Z.eqb_spec MORE Token_INVALID_TYPE) as [E|_]; [congruence|].
    split; [exact Hty|]. rewrite innerLoop_S, Hround, Hty. reflexivity.
  - intros H1. rewrite H1, Z.eqb_refl in Hty. exact Hty.
  - intros wm. split; reflexivity.
Qed.

End SpanFacts.

(** ** The further properties at work on the sample runs *)

Module ExtraFacts.
Import Sample SampleRuns MoreRuns SampleFacts.
Local Abbreviation W := (World ListStream Position).

Lemma sample_release_keeps_LA : release_keeps_LA (Stm:=ListStream).
Proof. intros m s. reflexivity. Qed.

Lemma sample_match_keeps_channel_text :
  match_keeps_channel_text (Stm:=ListStream) (Itp:=Position).
Proof.
  intros inp m w. cbn [interp_match sample_interpreter].
  unfold sample_match. destruct inp as [r|]; [|reflexivity].
  cbv zeta.
  repeat match goal with
         | |- context [if ?b then _ else _] => destruct b
         | |- context [match ?x with _ => _ end] => destruct x
         end; reflexivity.
Qed.

Lemma sample_match_never_rewinds :
  match_never_rewinds (Stm:=ListStream) (Itp:=Position).
Proof.
  intros inp m w r. cbn [interp_match sample_interpreter cs_index list_stream].
  unfold sample_match. destruct inp as [r0|]; [|cbn; lia].
  cbv zeta. unfold pos_consume, ls_consume.
  repeat match goal with
         | |- context [if ?b then _ else _] => destruct b
         | |- context [match _modeStack ?x with _ => _ end] =>
             destruct (_modeStack x)
         end.
  all: cbn [snd streams assign bind ret throw lexer fst].
  all: try lia.
  all: destruct (Nat.eqb_spec r r0); subst; cbn [pos]; lia.
Qed.

Lemma getErrorDisplayForChar_EOF_branch_is_dead_witness :
  Token_EOF < 0 /\
  getErrorDisplayForChar char_LF = "\n" /\
  getErrorDisplayForChar "<" = "<".
Proof.
  assert (H : Token_EOF < 0) by (vm_compute; reflexivity).
  split; [exact H|]. split.
  - exact (getErrorDisplayForChar_EOF_branch_is_dead char_LF H).
  - exact (getErrorDisplayForChar_EOF_branch_is_dead "<" H).
Defined.

Lemma getErrorDisplayForChar_injective_witness :
  getErrorDisplayForChar char_TAB = getErrorDisplayForChar char_TAB /\
  Ascii.ascii_of_nat 9 = Ascii.ascii_of_nat 9.
Proof.
  assert (H : getErrorDisplayForChar
                (String (Ascii.ascii_of_nat 9) EmptyString) =
              getErrorDisplayForChar
                (String (Ascii.ascii_of_nat 9) EmptyString))
    by (vm_compute; reflexivity).
  split; [exact H|].
  exact (getErrorDisplayForChar_injective _ _ H).
Defined.

Lemma popModes_underflow_witness :
  _modeStack (lexer (fresh "a")) = [] /\
  fst (popModes 3 (snd (pushModes [3; 5] (fresh "a")))) =
    Raise (ThrowString "Empty Stack") /\
  lexer (snd (popModes 3 (snd (pushModes [3; 5] (fresh "a"))))) =
    lexer (fresh "a").
Proof.
  split; [reflexivity|].
  apply (popModes_underflow [3; 5] (fresh "a")). reflexivity.
Defined.

Lemma nextToken_requires_a_stream_witness :
  _input (lexer detached) = None /\
  nextToken 3 detached =
    (Raise (ThrowString "nextToken requires a non-null input stream."),
     detached) /\
  getAllTokens 3 detached =
    (Raise (ThrowString "nextToken requires a non-null input stream."),
     detached).
Proof.
  split; [reflexivity|].
  apply (nextToken_requires_a_stream 3 detached). reflexivity.
Defined.

Lemma first_call_on_a :
  nextToken 3 (fresh "a") =
    (Normal (Some (mkToken (tt, Some O) IDENT None 0 0 0 1 0)),
     snd (nextToken 3 (fresh "a"))).
Proof. apply run_eq. vm_compute. reflexivity. Qed.

Lemma nextToken_returns_the_current_token_witness :
  exists t,
    Some (mkToken (tt, Some O) IDENT None 0 0 0 1 0) = Some t /\
    _token (lexer (snd (nextToken 3 (fresh "a")))) = Some t.
Proof.
  exact (nextToken_returns_the_current_token 3 (fresh "a") _ _
           first_call_on_a).
Defined.

Lemma nextToken_latches_the_end_of_input_witness :
  exists r,
    _input (lexer exhausted) = Some r /\
    (_hitEOF (lexer exhausted) = true \/
     cs_LA 1 (streams exhausted r) <> Token_EOF) /\
    (cs_LA 1 (streams exhausted r) = Token_EOF ->
     forall fuel', exists t w'',
       nextToken (S fuel') exhausted = (Normal (Some t), w'') /\
       tok_type t = Token_EOF /\
       tok_start t = cs_index (streams (marked r exhausted) r)).
Proof.
  exact (nextToken_latches_the_end_of_input 3 (fresh "a") _ _
           sample_release_keeps_LA first_call_on_a).
Defined.

Lemma getAllTokens_after_exhaustion_witness :
  _hitEOF (lexer exhausted) = true /\
  getAllTokens 1 exhausted = (Normal [], snd (nextToken 1 exhausted)) /\
  created (snd (nextToken 1 exhausted)) =
    eofToken O (marked O exhausted) :: created exhausted.
Proof.
  assert (Hhit : _hitEOF (lexer exhausted) = true)
    by (vm_compute; reflexivity).
  split; [exact Hhit|].
  apply (getAllTokens_after_exhaustion 0 exhausted O Hhit).
  vm_compute. reflexivity.
Defined.

Lemma tagged_attempt : Attempt tagged tagged_resolved.
Proof.
  split; [vm_compute; reflexivity|]. exists tagged_started, tagged_started.
  split; [unfold tagged_started, after; apply run_eq;
          vm_compute; reflexivity|].
  split; [apply more_none|].
  split; [unfold tagged_resolved, after; apply run_eq;
          vm_compute; reflexivity|].
  vm_compute. discriminate.
Defined.

Lemma default_token_has_default_channel_and_no_text_witness :
  _channel (lexer tagged) = 5 /\ _text (lexer tagged) = Some "x" /\
  exists f t w',
    outerLoop f tagged = (Normal (Some t), w') /\
    tok_channel t = Token_DEFAULT_CHANNEL /\ tok_text t = None.
Proof.
  split; [vm_compute; reflexivity|]. split; [vm_compute; reflexivity|].
  apply (default_token_has_default_channel_and_no_text tagged tagged_resolved
           O sample_match_keeps_channel_text tagged_attempt).
  - vm_compute. discriminate.
  - vm_compute. reflexivity.
  - vm_compute. reflexivity.
Defined.

Lemma reset_gives_the_constructed_state_witness :
  _hitEOF (lexer exhausted) = true /\
  lexer (snd (reset exhausted)) = lexer (fresh "a") /\
  streams (snd (reset exhausted)) O = cs_seek 0 (streams exhausted O).
Proof.
  split; [vm_compute; reflexivity|].
  assert (Hpair : _tokenFactorySourcePair (lexer exhausted) =
                  (tt, _input (lexer exhausted)))
    by (vm_compute; reflexivity).
  destruct (reset_gives_the_constructed_state exhausted
              (fun _ => mkListStream (codes "a") 0 0) (mkPosition 1 0) Hpair)
    as (_ & H2 & _ & _ & H5).
  assert (Hin : _input (lexer exhausted) = Some O)
    by (vm_compute; reflexivity).
  rewrite Hin in H2, H5. split; [exact H2|exact (proj1 H5)].
Defined.

Lemma default_token_span_is_ordered_witness :
  exists f t w',
    nextToken f space_a = (Normal (Some t), w') /\
    cs_index (streams space_a O) <= tok_start t /\
    tok_start t <= tok_stop t + 1 /\
    cs_index (streams w' O) = tok_stop t + 1.
Proof.
  apply (default_token_span_is_ordered space_a space_a_skipped
           space_a_resolved O sample_marks_keep_index sample_consume_advances
           sample_match_never_rewinds sample_match_keeps_input
           sample_match_keeps_start).
  - reflexivity.
  - eapply skipped_step;
      [apply space_a_first_attempt|vm_compute; reflexivity|apply skipped_none].
  - apply space_a_second_attempt.
  - vm_compute. discriminate.
  - vm_compute. reflexivity.
Defined.

Lemma failure_at_end_of_input_yields_EOF_witness :
  exists f t w',
    nextToken f hash = (Normal (Some t), w') /\
    tok_type t = Token_EOF /\
    tok_start t = cs_index (streams hash_failed O) /\
    tok_stop t = cs_index (streams hash_failed O) - 1 /\
    created w' = t :: created hash_failed /\
    notified w' =
      EvSyntaxError (_tokenStartLine (lexer hash_failed))
        (_tokenStartColumn (lexer hash_failed))
        ("token recognition error at: '" ++
         getErrorDisplay
           (cs_getText (_tokenStartCharIndex (lexer hash_failed))
              (cs_index (streams hash_failed O)) (streams hash_failed O)) ++
         "'")%string rule_failure
      :: notified hash_failed.
Proof.
  apply (failure_at_end_of_input_yields_EOF hash hash_marked hash_started
           hash_started hash_failed O O rule_failure).
  - reflexivity.
  - apply skipped_none.
  - vm_compute. reflexivity.
  - unfold hash_started, after. apply run_eq. vm_compute. reflexivity.
  - apply more_none.
  - unfold hash_failed. apply run_eq. vm_compute. reflexivity.
  - reflexivity.
  - vm_compute. reflexivity.
  - vm_compute. reflexivity.
  - vm_compute. reflexivity.
Defined.

(** The run on ["#"], evaluated: one diagnostic for the character, then the
    end-of-input token at index 1. *)
Example nextToken_on_hash :
  fst (nextToken 3 hash) =
    Normal (Some (mkToken (tt, Some O) (-1) None 0 1 0 1 1)) /\
  notified (snd (nextToken 3 hash)) =
    [EvSyntaxError 1 0 "token recognition error at: '#'" rule_failure].
Proof. split; vm_compute; reflexivity. Qed.

Lemma action_type_decides_the_round_witness :
  _type (lexer space_a_skipped) = SKIP /\
  innerLoop 1 space_a_started = (Normal true, space_a_skipped).
Proof.
  assert (Hm : interp_match (_input (lexer space_a_started))
                 (_mode (lexer space_a_started))
                 (snd (assign (set_type Token_INVALID_TYPE) space_a_started)) =
               (Normal WS,
                snd (interp_match (_input (lexer space_a_started))
                       (_mode (lexer space_a_started))
                       (snd (assign (set_type Token_INVALID_TYPE)
                               space_a_started)))))
    by (apply run_eq; vm_compute; reflexivity).
  assert (H1 : Token_INVALID_TYPE <> SKIP) by (vm_compute; discriminate).
  assert (H2 : Token_INVALID_TYPE <> MORE) by (vm_compute; discriminate).
  assert (Hin : _input (lexer (snd (interp_match
                   (_input (lexer space_a_started))
                   (_mode (lexer space_a_started))
                   (snd (assign (set_type Token_INVALID_TYPE)
                           space_a_started))))) = Some O)
    by (vm_compute; reflexivity).
  destruct (action_type_decides_the_round space_a_started _ O WS 0
              H1 H2 Hm Hin)
    as (w' & Hr & Hskip & _).
  assert (Hw : w' = space_a_skipped).
  { unfold space_a_skipped, after. rewrite Hr. reflexivity. }
  rewrite <- Hw. apply Hskip. vm_compute. reflexivity.
Defined.

End ExtraFacts.
